(** * Dual-tour TSP model: tour extraction, model builder, vertex input

    A shallow embedding of [vertex.hpp], [tour.hpp] and [graph.hpp], and
    of the graph of two tours that [main.cpp] builds.

    Conventions.
    - [size_t] and [unsigned] counters are natural numbers in [Tour] and
      [Graph].  The source compares its [unsigned] counters with a
      [size_t] count: below [2^32] vertices no counter wraps and the
      natural numbers are exact (an [n]-by-[n] matrix of [n * n] cells
      only exists in memory when [n < 2^32], lemma
      [matrix_size_fits_unsigned]).  [Machine] has the iterator of
      [tour.hpp] with the conversions of the source, for every size.
    - [double] is the binary64 type [float] of the kernel; [hypot] and
      [ceil] of the C library are parameters.
    - [std::vector<T>] is [list T]; [v[i]] is [v !!! i] and [v[i] = x] is
      [<[i:=x]> v].  Out-of-range accesses are undefined in the source;
      the loops stay below [n], where a well-formed matrix and the [seen]
      vector have a cell (lemmas [matrix_at_in_bounds], [marks_ready]).
    - a [throw] is the [Err] constructor of [result]. *)

From Stdlib Require Import Floats ZArith Lia Ascii.
From stdpp Require Import base option list strings pretty.

(** ** Results of fallible code *)

Inductive result (E A : Type) : Type :=
| Ok (a : A)
| Err (e : E).
Arguments Ok {E A} a.
Arguments Err {E A} e.

(** ** [utils::matrix] ([tour.hpp], lines 11-47) *)

Module Utils.

(** [Item *buffer; size_t len]. *)
Record matrix (Item : Type) : Type := Matrix {
  buffer : list Item;
  len : nat
}.
Arguments Matrix {Item} buffer len.
Arguments buffer {Item} m.
Arguments len {Item} m.

Section Matrix.
Context {Item : Type} `{!Inhabited Item}.

(** [matrix(size_t n)]: [new Item[n * n]], each cell holding the
    default-constructed item [d]. *)
Definition new (d : Item) (n : nat) : matrix Item :=
  Matrix (replicate (n * n) d) n.

Definition size (m : matrix Item) : nat := len m.

Definition total (m : matrix Item) : nat := size m * size m.

(** [m[idx]]: the span of [size()] items starting at
    [buffer + idx * size()]. *)
Definition row (m : matrix Item) (idx : nat) : list Item :=
  take (size m) (drop (idx * size m) (buffer m)).

(** [m[i][j]]: item [j] of the span [m[i]]. *)
Definition at_ (m : matrix Item) (i j : nat) : Item :=
  row m i !!! j.

(** [m[i][j] = x]: a write through the span, at
    [buffer[i * size() + j]]. *)
Definition set (m : matrix Item) (i j : nat) (x : Item) : matrix Item :=
  Matrix (<[i * size m + j := x]> (buffer m)) (len m).

(** The buffer really has [len * len] cells. *)
Definition wf (m : matrix Item) : Prop :=
  length (buffer m) = len m * len m.

(** A matrix filled from a function, row by row. *)
Definition of_fun (n : nat) (f : nat → nat → Item) : matrix Item :=
  Matrix (flat_map (λ i, map (f i) (seq 0 n)) (seq 0 n)) n.
End Matrix.

End Utils.

(** ** [vertex] and [utils::invalid_file] ([vertex.hpp]) *)

Module Vertex.

Definition SIZE_MAX : N := (2 ^ 64 - 1)%N.

(** [size_t id; double x1, y1; double x2, y2;] with the private
    constructor [vertex(id, x1, y1, x2, y2)], which [with_id] exposes. *)
Record vertex : Type := with_id {
  id : N;
  x1 : float; y1 : float;
  x2 : float; y2 : float
}.

(** [next_id()]: [static size_t count = 1; return count++;], the counter
    being passed in and out. *)
Definition next_id (count : N) : N * N :=
  (count, ((count + 1) mod 2 ^ 64)%N).

(** [vertex(double x1, double y1, double x2, double y2)]: the public
    constructor, [vertex(vertex::next_id(), x1, y1, x2, y2)]. *)
Definition vertex_new (count : N) (x1 y1 x2 y2 : float) : vertex * N :=
  let '(id, count) := next_id count in (with_id id x1 y1 x2 y2, count).

(** [constexpr vertex()]: [vertex(SIZE_MAX, 0, 0, 0, 0)]. *)
Definition vertex_default : vertex := with_id SIZE_MAX 0 0 0 0.

#[global] Instance vertex_inhabited : Inhabited vertex := populate vertex_default.

(** The copy constructor and [operator=] copy the five fields. *)
Definition copy (v : vertex) : vertex := with_id (id v) (x1 v) (y1 v) (x2 v) (y2 v).

(** [operator==] compares the ids only. *)
Definition eqb (u v : vertex) : bool := (id u =? id v)%N.

Section Cost.
(** [hypot] and [ceil] of [<cmath>]. *)
Variables (hypot : float → float → float) (ceil : float → float).

(** Lines 109-112. *)
Definition cost1 (this other : vertex) : float :=
  ceil (hypot (x1 this - x1 other) (y1 this - y1 other)).

(** Lines 114-117. *)
Definition cost2 (this other : vertex) : float :=
  ceil (hypot (x2 this - x2 other) (y2 this - y2 other)).
End Cost.

(** [utils::invalid_file], with the file name its message carries. *)
Inductive invalid_file : Type :=
| is_empty_or_missing (filename : string)
| contains_invalid_data (filename : string).

Section Read.
(** [std::istream::operator>>(double&)] on the text left in a stream:
    the value read and the text after it, or [None] when the extraction
    fails (the stream then stays failed). *)
Variable extract_double : string → option (float * string).

(** The files: the lines [std::getline] yields from the file of that
    name, [None] when the file cannot be opened. *)
Variable files : string → option (list string).

(** Lines 166-169: [is >> vertex.x1 >> vertex.y1 >> vertex.x2 >> vertex.y2],
    then the stream tested as a condition.  The id of [vertex] is left
    as it was. *)
Definition extract_vertex (stream : string) (v : vertex) : option vertex :=
  '(x1, stream) ← extract_double stream;
  '(y1, stream) ← extract_double stream;
  '(x2, stream) ← extract_double stream;
  '(y2, stream) ← extract_double stream;
  Some (with_id (id v) x1 y1 x2 y2).

(** The loop of lines 145-152 over the lines still to be read. *)
Fixpoint read_lines (filename : string) (lines : list string)
    (vertices : list vertex) : result invalid_file (list vertex) :=
  match lines with
  | [] => Ok vertices
  | line :: lines =>
      let new_vertex := vertex_default in
      match extract_vertex line new_vertex with
      | Some new_vertex => read_lines filename lines (vertices ++ [copy new_vertex])
      | None => Err (contains_invalid_data filename)
      end
  end.

(** Lines 140-159.  A file that cannot be opened yields no line. *)
Definition read (filename : string) : result invalid_file (list vertex) :=
  match read_lines filename (default [] (files filename)) [] with
  | Ok vertices =>
      if decide (length vertices ≤ 0) then Err (is_empty_or_missing filename)
      else Ok vertices
  | Err e => Err e
  end.

End Read.

End Vertex.

(** ** [tour] and [tour::iter_tours] ([tour.hpp], lines 50-163)

    The counters are natural numbers here.  Those of the source are
    [unsigned]: the two agree on fewer than [2^32] vertices, and
    [Machine] below has the source's conversions. *)

Module Tour.
Import Vertex.

(** [class tour : public std::vector<unsigned>]. *)
Definition tour : Type := list nat.

(** The state of an [iter_tours] object. *)
Record iter_tours : Type := IterTours {
  seen : list bool;
  vertices : list vertex;
  solution : Utils.matrix bool
}.

(** Constructor: [seen(vertices.size(), false)]. *)
Definition init (vs : list vertex) (sol : Utils.matrix bool) : iter_tours :=
  IterTours (replicate (length vs) false) vs sol.

Definition count (it : iter_tours) : nat := length (vertices it).

Definition set_seen (it : iter_tours) (s : list bool) : iter_tours :=
  IterTours s (vertices it) (solution it).

(** [for (unsigned x = from; x < from + todo; x++) if (p x) return x;
    return nullopt;] *)
Fixpoint scan (p : nat → bool) (from todo : nat) : option nat :=
  match todo with
  | 0 => None
  | S todo' => if p from then Some from else scan p (S from) todo'
  end.

(** Lines 72-79. *)
Definition new_node (it : iter_tours) : option nat :=
  scan (λ node, negb (seen it !!! node)) 0 (count it).

(** Lines 82-90. *)
Definition best_next (it : iter_tours) (u : nat) : option nat :=
  let solution := Utils.row (solution it) u in
  scan (λ v, solution !!! v && negb (seen it !!! v)) 0 (count it).

(** The loop of lines 97-106, [len] iterations left, [vs] the tour
    built so far. *)
Fixpoint walk (len : nat) (it : iter_tours) (node : nat) (vs : tour)
  : tour * iter_tours :=
  match len with
  | 0 => (vs, it)
  | S len' =>
      let it := set_seen it (<[node := true]> (seen it)) in
      let vs := vs ++ [node] in
      match best_next it node with
      | Some next => walk len' it next vs
      | None => (vs, it)
      end
  end.

(** Lines 93-108: [next_tour(unsigned node)], with [len] the count
    itself; [Machine.next_tour_from] has the conversion to [unsigned]. *)
Definition next_tour_from (it : iter_tours) (node : nat) : tour * iter_tours :=
  walk (count it) it node [].

(** Lines 112-117: [next_tour(void)]. *)
Definition next_tour (it : iter_tours) : option (tour * iter_tours) :=
  match new_node it with
  | Some node => Some (next_tour_from it node)
  | None => None
  end.

(** The choice made by lines 137-139. *)
Definition pick (min_tour t : tour) : tour :=
  if length t <? length min_tour then t else min_tour.

(** The [while] loop of lines 136-140, whose body keeps [pick min_tour t].
    [fuel] bounds the number of times the loop condition is evaluated;
    [None] means the bound was reached before the loop ended. *)
Fixpoint min_loop (fuel : nat) (it : iter_tours) (min_tour : tour) : option tour :=
  match fuel with
  | 0 => None
  | S fuel' =>
      match next_tour it with
      | Some (t, it') =>
          min_loop fuel' it' (if length t <? length min_tour then t else min_tour)
      | None => Some min_tour
      end
  end.

(** Lines 122-142, with the loop bounded by [fuel]. *)
Definition min_sub_tour_fuel (fuel : nat) (vs : list vertex)
    (sol : Utils.matrix bool) : option tour :=
  match next_tour (init vs sol) with
  | Some (first, it') => min_loop fuel it' first
  | None => Some []
  end.

(** [tour::min_sub_tour].  The loop condition is evaluated at most
    [vertices.size()] times (lemma [min_sub_tour_fuel_tours]), so this
    is the value returned. *)
Definition min_sub_tour (vs : list vertex) (sol : Utils.matrix bool) : tour :=
  default [] (min_sub_tour_fuel (length vs) vs sol).

(** The tours the iterator yields, in order, at most [fuel] of them. *)
Fixpoint tours_from (fuel : nat) (it : iter_tours) : list tour :=
  match fuel with
  | 0 => []
  | S fuel' =>
      match next_tour it with
      | Some (t, it') => t :: tours_from fuel' it'
      | None => []
      end
  end.

Definition all_tours (vs : list vertex) (sol : Utils.matrix bool) : list tour :=
  tours_from (length vs) (init vs sol).

(** Number of positions not yet seen. *)
Definition unseen (s : list bool) : nat :=
  length (filter (λ b, b = false) s).

(** [t] is the first tour of minimal length in [ts]. *)
Definition first_shortest (ts : list tour) (t : tour) : Prop :=
  ∃ i, ts !! i = Some t ∧
       (∀ j t', ts !! j = Some t' → length t ≤ length t') ∧
       (∀ j t', j < i → ts !! j = Some t' → length t < length t').

(** Later tours start at higher positions. *)
Definition starts_increase (ts : list tour) : Prop :=
  ∀ i j ti tj, i < j → ts !! i = Some ti → ts !! j = Some tj →
    ∃ a b, head ti = Some a ∧ head tj = Some b ∧ a < b.

(** [s] after the positions [l] have been marked one by one. *)
Definition mark_all (s : list bool) (l : list nat) : list bool :=
  foldl (λ s x, <[x := true]> s) s l.

(** The [seen] vector has one bit per vertex. *)
Definition ready (it : iter_tours) : Prop := length (seen it) = count it.

(** [it'] is [it] after the positions [new], all unseen in [it] and
    pairwise distinct, have been marked seen. *)
Definition marks (it : iter_tours) (new : list nat) (it' : iter_tours) : Prop :=
  vertices it' = vertices it ∧ solution it' = solution it ∧
  length (seen it') = length (seen it) ∧
  NoDup new ∧
  (∀ x, x ∈ new → x < count it ∧ seen it !!! x = false) ∧
  (∀ v, seen it' !!! v = true ↔ seen it !!! v = true ∨ v ∈ new) ∧
  unseen (seen it') + length new = unseen (seen it).

End Tour.

(** ** [tour::iter_tours] with its counters at their C++ types

    [Tour] counts in natural numbers.  In [tour.hpp] the loop counters
    [node], [v] and [len] are [unsigned], 32 bits wide, and are compared
    with or initialised from [count()], a [size_t]: an increment wraps at
    [2^32], and [unsigned len = this->count()] keeps the count modulo
    [2^32].  [Machine] is the same code with these conversions; a loop
    that may then run for ever is bounded by [fuel], and [None] means
    that the bound was reached.  The two agree on fewer than [2^32]
    vertices (lemma [machine_min_sub_tour_agrees]). *)

Module Machine.
Import Vertex Tour.

(** The value a [size_t] takes when it is stored in an [unsigned]. *)
Definition to_unsigned (x : N) : N := (x mod 2 ^ 32)%N.

(** Lines 67-69: [vertices.size()], a [size_t]. *)
Definition count (it : iter_tours) : N := N.of_nat (length (vertices it)).

(** [for (unsigned x = from; x < count; x++) if (p x) return x;
    return nullopt;] where [count] is a [size_t]; [fuel] bounds the
    evaluations of the loop condition. *)
Fixpoint scan (fuel : nat) (p : nat → bool) (count x : N) : option (option nat) :=
  match fuel with
  | 0 => None
  | S fuel' =>
      if (x <? count)%N then
        if p (N.to_nat x) then Some (Some (N.to_nat x))
        else scan fuel' p count (to_unsigned (x + 1))
      else Some None
  end.

(** Lines 72-79. *)
Definition new_node (fuel : nat) (it : iter_tours) : option (option nat) :=
  scan fuel (λ node, negb (seen it !!! node)) (count it) 0.

(** Lines 82-90. *)
Definition best_next (fuel : nat) (it : iter_tours) (u : nat)
    : option (option nat) :=
  let solution := Utils.row (solution it) u in
  scan fuel (λ v, solution !!! v && negb (seen it !!! v)) (count it) 0.

(** The loop of lines 97-106, [len] iterations left. *)
Fixpoint walk (fuel len : nat) (it : iter_tours) (node : nat) (vs : tour)
  : option (tour * iter_tours) :=
  match len with
  | 0 => Some (vs, it)
  | S len' =>
      let it := set_seen it (<[node := true]> (seen it)) in
      let vs := vs ++ [node] in
      match best_next fuel it node with
      | None => None
      | Some (Some next) => walk fuel len' it next vs
      | Some None => Some (vs, it)
      end
  end.

(** Lines 93-108: [next_tour(unsigned node)], with
    [unsigned len = this->count()]. *)
Definition next_tour_from (fuel : nat) (it : iter_tours) (node : nat)
    : option (tour * iter_tours) :=
  walk fuel (N.to_nat (to_unsigned (count it))) it node [].

(** Lines 112-117: [next_tour(void)]. *)
Definition next_tour (fuel : nat) (it : iter_tours)
    : option (option (tour * iter_tours)) :=
  match new_node fuel it with
  | None => None
  | Some (Some node) =>
      match next_tour_from fuel it node with
      | None => None
      | Some r => Some (Some r)
      end
  | Some None => Some None
  end.

(** The [while] loop of lines 136-140; [fuel] bounds the evaluations of
    its condition, [inner] those of the loops inside. *)
Fixpoint min_loop (fuel inner : nat) (it : iter_tours) (min_tour : tour)
  : option tour :=
  match fuel with
  | 0 => None
  | S fuel' =>
      match next_tour inner it with
      | None => None
      | Some (Some (t, it')) =>
          min_loop fuel' inner it'
            (if length t <? length min_tour then t else min_tour)
      | Some None => Some min_tour
      end
  end.

(** Lines 122-142: [tour::min_sub_tour], every loop bounded by [fuel]. *)
Definition min_sub_tour_fuel (fuel : nat) (vs : list vertex)
    (sol : Utils.matrix bool) : option tour :=
  match next_tour fuel (init vs sol) with
  | None => None
  | Some (Some (first, it')) => min_loop fuel fuel it' first
  | Some None => Some []
  end.

(** The tours [next_tour()] yields until it yields none. *)
Fixpoint drain (fuel inner : nat) (it : iter_tours) : option (list tour) :=
  match fuel with
  | 0 => None
  | S fuel' =>
      match next_tour inner it with
      | None => None
      | Some (Some (t, it')) => (t ::.) <$> drain fuel' inner it'
      | Some None => Some []
      end
  end.

End Machine.

(** ** Cycles over vertex positions (specification side) *)

Module Cycle.

(** The position after [i] on a cycle of [k] positions. *)
Definition nxt (k i : nat) : nat := if decide (S i = k) then 0 else S i.

(** The [i]-th edge of the cycle [c]: from [c[i]] to its successor. *)
Definition edge_at (c : list nat) (i : nat) : option (nat * nat) :=
  match c !! i, c !! nxt (length c) i with
  | Some u, Some v => Some (u, v)
  | _, _ => None
  end.

(** [u] and [v] are joined by an edge of the cycle [c]. *)
Definition adj (c : list nat) (u v : nat) : Prop :=
  Exists (λ i, edge_at c i = Some (u, v) ∨ edge_at c i = Some (v, u))
         (seq 0 (length c)).

#[global] Instance adj_dec c u v : Decision (adj c u v).
Proof. unfold adj. apply _. Defined.

(** The adjacency matrix of a set of cycles. *)
Definition matrix_of (n : nat) (cs : list (list nat)) : Utils.matrix bool :=
  Utils.of_fun n (λ u v, bool_decide (Exists (λ c, adj c u v) cs)).

(** [sol] holds [true] exactly on the edges of the cycles [cs]. *)
Definition encodes (n : nat) (sol : Utils.matrix bool) (cs : list (list nat)) : Prop :=
  ∀ u v, u < n → v < n →
    (Utils.at_ sol u v = true ↔ ∃ c, c ∈ cs ∧ adj c u v).

(** [c] visits every position of [0 .. n-1] exactly once. *)
Definition hamiltonian (n : nat) (c : list nat) : Prop := c ≡ₚ seq 0 n.

(** The smallest vertex of [c]. *)
Definition min_elem (c : list nat) : nat := foldr Nat.min (hd 0 c) c.

(** [c] split before the first occurrence of [m]. *)
Fixpoint split_at (m : nat) (c : list nat) : list nat * list nat :=
  match c with
  | [] => ([], [])
  | x :: l =>
      if decide (x = m) then ([], c)
      else let '(a, b) := split_at m l in (x :: a, b)
  end.

(** The cycle [c] read from its vertex [m] on. *)
Definition rotate_to (m : nat) (c : list nat) : list nat :=
  let '(a, b) := split_at m c in b ++ a.

(** Of the two directions around the cycle, the one whose second vertex
    is the smaller neighbour of the first. *)
Definition orient (c : list nat) : list nat :=
  match c with
  | m :: (y :: _) as rest =>
      match last rest with
      | Some z => if decide (y ≤ z) then c else m :: reverse rest
      | None => c
      end
  | _ => c
  end.

(** The second vertex of [c] is not above its last one. *)
Definition oriented (c : list nat) : Prop :=
  ∀ y z, c !! 1 = Some y → last c = Some z → y ≤ z.

(** [cs] lists cycles by increasing first vertex: each cycle starts at a
    vertex below every other vertex of it and of the cycles after it, and
    is oriented. *)
Fixpoint sorted_cover (cs : list (list nat)) : Prop :=
  match cs with
  | [] => True
  | c :: cs' =>
      (∃ m rest, c = m :: rest ∧ ∀ x, x ∈ rest ++ concat cs' → m < x) ∧
      oriented c ∧ sorted_cover cs'
  end.

(** The cycle [c] written from its smallest vertex towards the smaller
    neighbour of that vertex. *)
Definition canon (c : list nat) : list nat := orient (rotate_to (min_elem c) c).

End Cycle.

(** ** The solver engine ([gurobi_c++.h]): what the model builder uses *)

Module Gurobi.

(** A [GRBVar] is a handle on a variable of a model, here its index in
    the model; the default-constructed [GRBVar] is the null handle. *)
Definition GRBVar : Type := option nat.

Inductive vtype : Type := GRB_CONTINUOUS | GRB_BINARY | GRB_INTEGER.

Inductive sense : Type := GRB_LESS_EQUAL | GRB_EQUAL | GRB_GREATER_EQUAL.

(** What [addVar(lb, ub, obj, type, name)] records. *)
Record var_info : Type := VarInfo {
  lb : float; ub : float; obj : float; type : vtype; name : string
}.

(** A [GRBLinExpr] built by [expr += var]: the variables summed, each
    with coefficient 1. *)
Definition GRBLinExpr : Type := list GRBVar.

(** A [GRBQuadExpr] built by [expr += x * y]: the products summed. *)
Definition GRBQuadExpr : Type := list (GRBVar * GRBVar).

(** The right-hand sides of this program are the integers [2.] and
    [(double) k], held exactly by a [double]; they are kept as integers. *)
Record lin_constr : Type := LinConstr {
  lhs : GRBLinExpr; lin_sense : sense; rhs : Z
}.

Record quad_constr : Type := QuadConstr {
  qlhs : GRBQuadExpr; quad_sense : sense; qrhs : Z
}.

(** A model: its variables and constraints in creation order, and, once
    [optimize] has run, the attributes [SolCount] and [X]. *)
Record GRBModel : Type := Model {
  vars : list var_info;
  constrs : list lin_constr;
  qconstrs : list quad_constr;
  SolCount : Z;
  X : nat → float
}.

(** [GRBModel(env)]. *)
Definition empty : GRBModel := Model [] [] [] 0 (λ _, 0%float).

Definition addVar (m : GRBModel) (lb ub obj : float) (type : vtype)
    (name : string) : GRBModel * GRBVar :=
  (Model (vars m ++ [VarInfo lb ub obj type name])
         (constrs m) (qconstrs m) (SolCount m) (X m),
   Some (length (vars m))).

Definition addConstr (m : GRBModel) (lhs : GRBLinExpr) (s : sense) (rhs : Z)
    : GRBModel :=
  Model (vars m) (constrs m ++ [LinConstr lhs s rhs]) (qconstrs m)
        (SolCount m) (X m).

Definition addQConstr (m : GRBModel) (lhs : GRBQuadExpr) (s : sense) (rhs : Z)
    : GRBModel :=
  Model (vars m) (constrs m) (qconstrs m ++ [QuadConstr lhs s rhs])
        (SolCount m) (X m).

(** [var.get(GRB_DoubleAttr_X)].  A default-constructed [GRBVar] refers
    to no variable: asking for its value raises a [GRBException], here
    [None]. *)
Definition get_X (m : GRBModel) (x : GRBVar) : option float :=
  match x with Some h => Some (X m h) | None => None end.

(** An integral candidate gives each binary variable the value 0 or 1. *)
Definition candidate : Type := nat → bool.

Definition value (σ : candidate) (x : GRBVar) : Z :=
  match x with
  | Some h => if σ h then 1 else 0
  | None => 0
  end.

Definition eval_lin (σ : candidate) (e : GRBLinExpr) : Z :=
  foldr (λ x acc, value σ x + acc)%Z 0%Z e.

Definition eval_quad (σ : candidate) (e : GRBQuadExpr) : Z :=
  foldr (λ '(x, y) acc, value σ x * value σ y + acc)%Z 0%Z e.

Definition compare (s : sense) (l r : Z) : bool :=
  match s with
  | GRB_LESS_EQUAL => (l <=? r)%Z
  | GRB_EQUAL => (l =? r)%Z
  | GRB_GREATER_EQUAL => (r <=? l)%Z
  end.

(** The candidate satisfies the constraint. *)
Definition holds_lin (σ : candidate) (c : lin_constr) : bool :=
  compare (lin_sense c) (eval_lin σ (lhs c)) (rhs c).

Definition holds_quad (σ : candidate) (c : quad_constr) : bool :=
  compare (quad_sense c) (eval_quad σ (qlhs c)) (qrhs c).

End Gurobi.

(** ** [elimination.hpp] *)

Module Elimination.
Import Vertex.

(** Modelled from the spec: the entry [(i, j)] of a snapshot.  By
    sections 3 and 4.5 of the specification the value of every variable
    of a tour is read, and a diagonal entry has no variable: [pred] is
    asked for the pairs [i ≠ j] only, and the diagonal is left [false].
    [None] is an exception raised by [pred]. *)
Definition entry (pred : nat → nat → option bool) (i j : nat) : option bool :=
  if decide (i = j) then Some false else pred i j.

(** Modelled from the spec: [utils::get_solutions] of [elimination.hpp],
    a header [graph.hpp] includes and which is not among the sources.
    By sections 4.5 and 4.6 of the specification the current value of
    every variable of a tour is snapshotted into a boolean adjacency
    matrix; an exception raised while reading one is passed on. *)
Definition get_solutions (n : nat) (pred : nat → nat → option bool)
    : option (Utils.matrix bool) :=
  if decide (Forall (λ i, Forall (λ j, is_Some (entry pred i j)) (seq 0 n)) (seq 0 n))
  then Some (Utils.of_fun n (λ i j, default false (entry pred i j)))
  else None.

(** Modelled from the spec: [utils::min_sub_tour(vertices, pred)] of
    [elimination.hpp], Tour Extraction run on the snapshot of [pred]. *)
Definition min_sub_tour (vertices : list vertex) (pred : nat → nat → option bool)
    : option Tour.tour :=
  Tour.min_sub_tour vertices <$> get_solutions (length vertices) pred.

End Elimination.

(** ** [utils::invalid_solution] and [graph] ([graph.hpp]) *)

Module Graph.
Import Vertex Gurobi.

(** Lines 41-62. *)
Record invalid_solution : Type := InvalidSolution {
  err_vertices : list vertex;
  subtour : option Tour.tour;
  what : string
}.

Definition zero_solutions (vertices : list vertex) : invalid_solution :=
  InvalidSolution vertices None "No integral solution could be found.".

Definition incomplete_tour (vertices : list vertex) (subtour : Tour.tour)
    : invalid_solution :=
  InvalidSolution vertices (Some subtour)
    "Solution found, but leads to incomplete tour.".

(** Lines 66-68 and 115-116. *)
Record graph : Type := Graph {
  model : GRBModel;
  vertices : list vertex;
  vars : Utils.matrix GRBVar
}.

(** Number of vertices. *)
Definition order (g : graph) : nat := length (vertices g).

(** Number of edges. *)
Definition size (g : graph) : nat := (order g * (order g - 1)) / 2.

(** The pairs [(u, v)] the loops [for u in 0..order, for v in u+1..order]
    go through, in that order. *)
Definition pairs (order : nat) : list (nat * nat) :=
  u ← seq 0 order; (λ v, (u, v)) <$> seq (u + 1) (order - (u + 1)).

Section Build.
Variables (hypot : float → float → float) (ceil : float → float).

(** Lines 70-77, for the cost function [cost] in place of [cost1]. *)
Definition add_edge_with (cost : vertex → vertex → float)
    (m : GRBModel) (u v : vertex) : GRBModel * GRBVar :=
  let name := "x_" +:+ pretty (id u) +:+ "_" +:+ pretty (id v) in
  let objective := cost u v in
  addVar m 0 1 objective GRB_BINARY name.

(** What [add_edge_with] asks the engine to record for the edge. *)
Definition edge_var (cost : vertex → vertex → float) (u v : vertex) : var_info :=
  VarInfo 0 1 (cost u v) GRB_BINARY
          ("x_" +:+ pretty (id u) +:+ "_" +:+ pretty (id v)).

(** Lines 70-77. *)
Definition add_edge : GRBModel → vertex → vertex → GRBModel * GRBVar :=
  add_edge_with (cost1 hypot ceil).

(** Lines 85-87: the body of the inner loop, on the model and the
    matrix built so far. *)
Definition add_pair (cost : vertex → vertex → float) (vertices : list vertex)
    (st : GRBModel * Utils.matrix GRBVar) (u v : nat)
    : GRBModel * Utils.matrix GRBVar :=
  let '(m, vars) := st in
  let '(m, x_uv) := add_edge_with cost m (vertices !!! u) (vertices !!! v) in
  (m, Utils.set (Utils.set vars u v x_uv) v u x_uv).

(** Lines 79-91, for the cost function [cost] in place of [cost1]; the
    model is passed in and out. *)
Definition add_vars_with (cost : vertex → vertex → float)
    (m : GRBModel) (vertices : list vertex) : GRBModel * Utils.matrix GRBVar :=
  let order := length vertices in
  foldl (λ st u,
    foldl (λ st v, add_pair cost vertices st u v)
          st (seq (u + 1) (order - (u + 1))))
    (m, Utils.new None order) (seq 0 order).

(** What the loops leave after going through the pairs [ps] from the
    model [m0] and the matrix [X0]: one variable appended per pair, in
    order, its handle stored at both [(u, v)] and [(v, u)]; nothing else
    touched. *)
Definition built (cost : vertex → vertex → float) (vertices : list vertex)
    (m0 : GRBModel) (X0 : Utils.matrix GRBVar) (ps : list (nat * nat))
    (r : GRBModel * Utils.matrix GRBVar) : Prop :=
  Gurobi.vars r.1 =
    Gurobi.vars m0 ++
    ((λ p, edge_var cost (vertices !!! p.1) (vertices !!! p.2)) <$> ps) ∧
  constrs r.1 = constrs m0 ∧ qconstrs r.1 = qconstrs m0 ∧
  SolCount r.1 = SolCount m0 ∧ X r.1 = X m0 ∧
  Utils.wf r.2 ∧ Utils.size r.2 = Utils.size X0 ∧
  (∀ i u v, ps !! i = Some (u, v) →
     Utils.at_ r.2 u v = Some (length (Gurobi.vars m0) + i) ∧
     Utils.at_ r.2 v u = Some (length (Gurobi.vars m0) + i)) ∧
  (∀ a b, a < Utils.size X0 → b < Utils.size X0 →
     (a, b) ∉ ps → (b, a) ∉ ps → Utils.at_ r.2 a b = Utils.at_ X0 a b).

(** Lines 79-91. *)
Definition add_vars : GRBModel → list vertex → GRBModel * Utils.matrix GRBVar :=
  add_vars_with (cost1 hypot ceil).

(** The expression built by lines 96-101 for the vertex [u]. *)
Definition deg_2_expr (order : nat) (vars : Utils.matrix GRBVar) (u : nat)
    : GRBLinExpr :=
  foldl (λ expr v, if decide (u ≠ v) then expr ++ [Utils.at_ vars u v] else expr)
        [] (seq 0 order).

(** Lines 93-105; [model.update()] changes nothing that is modelled. *)
Definition add_constraint_deg_2 (m : GRBModel) (order : nat)
    (vars : Utils.matrix GRBVar) : GRBModel :=
  foldl (λ m u, addConstr m (deg_2_expr order vars u) GRB_EQUAL 2) m (seq 0 order).

(** Lines 107-113: the constructor. *)
Definition make (vertices : list vertex) : graph :=
  let '(m, vars) := add_vars empty vertices in
  let m := add_constraint_deg_2 m (length vertices) vars in
  Graph m vertices vars.

End Build.

Section Solve.
(** [GRBModel::optimize], with the callback attached: whatever the
    engine does to the model. *)
Variable optimize : GRBModel → GRBModel.

Definition solution_count (g : graph) : Z := SolCount (model g).

(** Lines 146-158; [total_time] is what [elapsed()] returned.  The graph
    comes back with the model the engine has worked on. *)
Definition solve (g : graph) (total_time : float)
    : graph * result invalid_solution float :=
  let g := Graph (optimize (model g)) (vertices g) (vars g) in
  if decide (solution_count g ≤ 0)%Z
  then (g, Err (zero_solutions (vertices g)))
  else (g, Ok total_time).

End Solve.

(** The predicate of lines 184-186:
    [vars[i][j].get(GRB_DoubleAttr_X) > 0.5], [None] when the engine
    raises an exception. *)
Definition selected (g : graph) (i j : nat) : option bool :=
  (λ x, (0.5 <? x)%float) <$> get_X (model g) (Utils.at_ (vars g) i j).

(** What [tour] and [solution] throw: a [utils::invalid_solution], or
    the [GRBException] of the engine. *)
Inductive failure : Type :=
| Invalid (e : invalid_solution)
| EngineError.

(** Lines 182-192. *)
Definition tour (g : graph) : result failure Tour.tour :=
  match Elimination.min_sub_tour (vertices g) (selected g) with
  | None => Err EngineError
  | Some min =>
      if decide (length min ≠ order g)
      then Err (Invalid (incomplete_tour (vertices g) min))
      else Ok min
  end.

(** Lines 194-205. *)
Definition solution (g : graph) : result failure (list vertex) :=
  match tour g with
  | Ok tour => Ok (foldl (λ vs v, vs ++ [vertices g !!! v]) [] tour)
  | Err e => Err e
  end.

End Graph.

(** ** The graph of two tours built by [program::map] ([main.cpp]) *)

Module DualGraph.
Import Vertex Gurobi.

(** Modelled from the spec: the [graph] that [main.cpp] uses, built by
    [graph(vertices, env, similarity)] and queried by [solution(i)] for
    the tours [i = 0, 1].  The [graph.hpp] among the sources holds one
    variable matrix and no similarity threshold.  Section 4.4 of the
    specification: for each of the two tours, one binary variable per
    unordered pair of vertices with that tour's cost as objective
    coefficient and one degree-2 equality per vertex; and one constraint
    that the sum over all unordered pairs of the product of the two
    tours' variables is at least [k].  Each tour's variables and degree
    constraints are built by [add_vars] and [add_constraint_deg_2] of
    [graph.hpp] with that tour's cost function. *)
Record graph : Type := Graph {
  model : GRBModel;
  vertices : list vertex;
  vars1 : Utils.matrix GRBVar;
  vars2 : Utils.matrix GRBVar;
  similarity : nat
}.

Definition order (g : graph) : nat := length (vertices g).

(** Modelled from the spec: the sum over all unordered pairs of the
    product of tour 1's and tour 2's variable for the pair. *)
Definition similarity_expr (order : nat) (vars1 vars2 : Utils.matrix GRBVar)
    : GRBQuadExpr :=
  foldl (λ expr u,
    foldl (λ expr v, expr ++ [(Utils.at_ vars1 u v, Utils.at_ vars2 u v)])
          expr (seq (u + 1) (order - (u + 1))))
    [] (seq 0 order).

(** Modelled from the spec: the similarity constraint, at least [k]. *)
Definition similarity_constr (order : nat)
    (vars1 vars2 : Utils.matrix GRBVar) (k : nat) : quad_constr :=
  QuadConstr (similarity_expr order vars1 vars2) GRB_GREATER_EQUAL (Z.of_nat k).

(** Modelled from the spec: the similarity constraint handed to the
    engine. *)
Definition add_constraint_similarity (m : GRBModel) (order : nat)
    (vars1 vars2 : Utils.matrix GRBVar) (k : nat) : GRBModel :=
  addQConstr m (similarity_expr order vars1 vars2) GRB_GREATER_EQUAL (Z.of_nat k).

Section Build.
Variables (hypot : float → float → float) (ceil : float → float).

(** Modelled from the spec: the constructor [graph(vertices, env, k)]. *)
Definition make (vertices : list vertex) (k : nat) : graph :=
  let order := length vertices in
  let '(m, vars1) := Graph.add_vars_with (cost1 hypot ceil) empty vertices in
  let '(m, vars2) := Graph.add_vars_with (cost2 hypot ceil) m vertices in
  let m := Graph.add_constraint_deg_2 m order vars1 in
  let m := Graph.add_constraint_deg_2 m order vars2 in
  let m := add_constraint_similarity m order vars1 vars2 k in
  Graph m vertices vars1 vars2 k.

End Build.

(** The cost function of tour [i]. *)
Definition cost_of (hypot : float → float → float) (ceil : float → float)
    (i : bool) : vertex → vertex → float :=
  if i then cost2 hypot ceil else cost1 hypot ceil.

(** The variable matrix of tour [i]. *)
Definition vars_of (g : graph) (i : bool) : Utils.matrix GRBVar :=
  if i then vars2 g else vars1 g.

(** The similarity count of section 3 of the specification: the number
    of unordered pairs whose variable is 1 in both tours. *)
Definition shared (g : graph) (σ : candidate) : nat :=
  length (filter
    (λ '(u, v), value σ (Utils.at_ (vars1 g) u v) = 1%Z ∧
                value σ (Utils.at_ (vars2 g) u v) = 1%Z)
    (Graph.pairs (order g))).

End DualGraph.

(** ** Concrete inputs *)

Module Examples.
Import Vertex Gurobi.

(** The unit square of section 8 of the specification, both metrics
    alike. *)
Definition square : list vertex :=
  [with_id 1 0 0 0 0; with_id 2 0 1 0 1; with_id 3 1 1 1 1; with_id 4 1 0 1 0].

(** Six vertices, all at the origin. *)
Definition six : list vertex := replicate 6 (with_id 7 0 0 0 0).

(** A cycle through four positions, and its matrix. *)
Definition c4 : list nat := [2; 0; 3; 1].
Definition sol4 : Utils.matrix bool := Cycle.matrix_of 4 [c4].

(** Two triangles over six positions, and their matrix. *)
Definition tri1 : list nat := [3; 1; 5].
Definition tri2 : list nat := [4; 0; 2].
Definition sol6 : Utils.matrix bool := Cycle.matrix_of 6 [tri1; tri2].

(** A matrix with an empty row, a row of one entry and a full row. *)
Definition ragged : Utils.matrix bool :=
  Utils.Matrix [false; false; false; false;
                false; false; true;  false;
                true;  true;  true;  true;
                false; false; false; false] 4.

(** Stand-ins for [hypot] and [ceil]. *)
Definition toy_hypot (x y : float) : float := sqrt (x * x + y * y).
Definition toy_ceil (x : float) : float := x.

(** An engine that reports one solution, the cycle 0-1-2-3 of the square:
    the variables of the pairs (0,1), (0,3), (1,2), (2,3) at 1. *)
Definition toy_optimize (m : GRBModel) : GRBModel :=
  Model (vars m) (constrs m) (qconstrs m) 1
        (λ h, if bool_decide (h ∈ [0; 2; 3; 5]) then 1%float else 0%float).

(** An engine that reports one solution made of the two edges (0,1)
    and (2,3) only. *)
Definition split_optimize (m : GRBModel) : GRBModel :=
  Model (vars m) (constrs m) (qconstrs m) 1
        (λ h, if bool_decide (h ∈ [0; 5]) then 1%float else 0%float).

(** A candidate for the model of two tours over the square: in tour 1
    the cycle 0-1-2-3 (variables 0, 2, 3, 5), in tour 2 the cycle
    0-1-3-2 (variables 6 + 0, 6 + 1, 6 + 4, 6 + 5). *)
Definition toy_candidate : candidate :=
  λ h, bool_decide (h ∈ [0; 2; 3; 5; 6; 7; 10; 11]).

(** A stand-in for the extraction of a [double]: blanks are skipped and
    one decimal digit is read. *)
Fixpoint skip_blanks (s : string) : string :=
  match s with
  | String " "%char rest => skip_blanks rest
  | _ => s
  end.

Definition digit (c : ascii) : option float :=
  match c with
  | "0"%char => Some 0%float
  | "1"%char => Some 1%float
  | "2"%char => Some 2%float
  | "3"%char => Some 3%float
  | _ => None
  end.

Definition toy_extract (s : string) : option (float * string) :=
  match skip_blanks s with
  | String c rest => d ← digit c; Some (d, rest)
  | EmptyString => None
  end.

(** Three files: two records, a record followed by a blank line, and
    no line at all. *)
Definition toy_files (filename : string) : option (list string) :=
  if decide (filename = "two.txt") then Some ["0 0 0 0"; "1 1 1 1"]
  else if decide (filename = "blank.txt") then Some ["0 0 0 0"; ""]
  else if decide (filename = "empty.txt") then Some []
  else None.

End Examples.

(** ** [utils::join] ([graph.hpp], lines 26-39) and the printers it is
    used with *)

Module Join.
Import Vertex.

Section Join.
Context {Item : Type}.
(** [buf << item]: the text the item's [operator<<] writes. *)
Variable show : Item → string.

(** The body of the loop, on the buffer and the [first] flag. *)
Definition join_step (sep : string) (st : string * bool) (item : Item)
    : string * bool :=
  let '(buf, first) := st in
  let buf := if first then buf else buf +:+ sep in
  (buf +:+ show item, false).

(** Lines 27-39. *)
Definition join (range : list Item) (sep : string) : string :=
  (foldl (join_step sep) (EmptyString, true) range).1.
End Join.

(** [operator<<(std::ostream&, const vertex&)] ([vertex.hpp], lines
    161-164): [os << "v:" << vertex.id]. *)
Definition show_vertex (v : vertex) : string := "v:" +:+ pretty (id v).

(** [os << unsigned], for the entries of a tour. *)
Definition show_unsigned (x : nat) : string := pretty x.

End Join.

(** ** [utils::not_enough_items] and [utils::sample] ([vertex.hpp],
    lines 43-78) *)

Module Sample.

(** The exception, with the two sizes its message reports. *)
Record not_enough_items : Type := NotEnoughItems {
  current : nat;
  expected : nat
}.

Section Sample.
Context {Item : Type}.
(** [std::ranges::sample(input, std::back_inserter(output), count, rng)]
    with [rng = std::ranlux48(seed)]: the items written to [output]. *)
Variable ranges_sample : list Item → nat → N → list Item.

(** Lines 66-78; [count > input.size()] is written
    [length input < count]. *)
Definition sample (input : list Item) (count : nat) (seed : N)
    : result not_enough_items (list Item) :=
  if decide (length input < count)
  then Err (NotEnoughItems (length input) count)
  else Ok (ranges_sample input count seed).
End Sample.

End Sample.

(** ** More of [vertex], [tour] and [graph] *)

Module More.
Import Vertex Gurobi.

(** Successive calls of the public constructor
    [vertex(x1, y1, x2, y2)], one per coordinate record, the counter of
    [next_id] threaded through. *)
Definition construct_all (count : N)
    (coords : list (float * float * float * float)) : list vertex * N :=
  foldl (λ '(vs, count) '(x1, y1, x2, y2),
           let '(v, count) := vertex_new count x1 y1 x2 y2 in
           (vs ++ [v], count))
        ([], count) coords.

(** Consecutive entries of [t] are joined by a [true] entry of [sol]. *)
Definition chain (sol : Utils.matrix bool) (t : list nat) : Prop :=
  ∀ i u v, t !! i = Some u → t !! S i = Some v → Utils.at_ sol u v = true.

(** The same, the last entry and the first included. *)
Definition closed_chain (sol : Utils.matrix bool) (t : list nat) : Prop :=
  ∀ i u v, t !! i = Some u → t !! Cycle.nxt (length t) i = Some v →
    Utils.at_ sol u v = true.

(** The positions marked in [s] are closed under the [true] entries of
    [sol]. *)
Definition closed_seen (n : nat) (sol : Utils.matrix bool) (s : list bool) : Prop :=
  ∀ u v, u < n → v < n → Utils.at_ sol u v = true →
    s !!! u = true → s !!! v = true.

(** What the degree-2 constraints give an integral candidate: a
    symmetric matrix with a [false] diagonal and exactly two [true]
    entries in each row. *)
Definition two_regular (n : nat) (sol : Utils.matrix bool) : Prop :=
  (∀ u v, u < n → v < n → Utils.at_ sol u v = Utils.at_ sol v u) ∧
  (∀ u, u < n → Utils.at_ sol u u = false) ∧
  (∀ u, u < n → ∃ a b, a < n ∧ b < n ∧ a ≠ b ∧
     ∀ v, v < n → (Utils.at_ sol u v = true ↔ v = a ∨ v = b)).

(** [graph::var_count] and [graph::constr_count] ([graph.hpp], lines
    165-173): the attributes [NumVars] and [NumConstrs] of the model. *)
Definition var_count (g : Graph.graph) : Z :=
  Z.of_nat (length (vars (Graph.model g))).

Definition constr_count (g : Graph.graph) : Z :=
  Z.of_nat (length (constrs (Graph.model g))).

(** The number of variables incident to [u] that the candidate sets
    to 1. *)
Definition degree (σ : candidate) (n : nat) (X : Utils.matrix GRBVar) (u : nat) : nat :=
  length (filter (λ v, value σ (Utils.at_ X u v) = 1%Z)
                 (filter (λ v, u ≠ v) (seq 0 n))).

End More.

(** ** [program] and [main] ([main.cpp]) *)

Module Program.

(** Lines 55-56: [unsigned seed = this->seed() & 0x0FFFFFFFU;] then
    [(int) seed], for a 64-bit [seed()]. *)
Definition env_seed (seed : Z) : Z :=
  let seed := (Z.land seed 0x0FFFFFFF mod 2 ^ 32)%Z in
  if (seed <? 2 ^ 31)%Z then seed else (seed - 2 ^ 32)%Z.

(** The classes of the exceptions [main] tells apart, with their bases:
    those of [vertex.hpp] and [graph.hpp], the standard ones they derive
    from, [GRBException], and anything else. *)
Inductive exn_class : Type :=
| invalid_solution | invalid_file | not_enough_items
| domain_error | invalid_argument | out_of_range
| logic_error | runtime_error | std_exception
| GRBException | other.

#[global] Instance exn_class_eq_dec : EqDecision exn_class.
Proof. solve_decision. Defined.

Definition base (c : exn_class) : option exn_class :=
  match c with
  | invalid_solution => Some domain_error
  | invalid_file => Some invalid_argument
  | not_enough_items => Some out_of_range
  | domain_error | invalid_argument | out_of_range => Some logic_error
  | logic_error | runtime_error => Some std_exception
  | std_exception | GRBException | other => None
  end.

(** A handler for [handler] catches an exception of class [thrown]: the
    class itself or one of its bases, at most [depth] steps up. *)
Fixpoint catches (depth : nat) (handler thrown : exn_class) : bool :=
  if decide (handler = thrown) then true
  else match depth, base thrown with
       | S depth, Some b => catches depth handler b
       | _, _ => false
       end.

Definition EXIT_SUCCESS : Z := 0.
Definition EXIT_FAILURE : Z := 1.

(** Lines 202-228: the [try] block of [main] around [program.run()],
    [None] when [run] returns, [Some c] when it throws an exception of
    class [c]. *)
Definition main_status (thrown : option exn_class) : Z :=
  match thrown with
  | None => EXIT_SUCCESS
  | Some c =>
      if catches 3 invalid_solution c then EXIT_SUCCESS
      else if catches 3 std_exception c then EXIT_FAILURE
      else if catches 3 GRBException c then EXIT_FAILURE
      else EXIT_FAILURE
  end.

End Program.

Module MoreExamples.
Import Vertex.

(** A symmetric matrix of two triangles, 0-1-2 and 3-4-5. *)
Definition triangles : Utils.matrix bool :=
  Utils.of_fun 6 (λ u v, bool_decide (u ≠ v ∧ u `div` 3 = v `div` 3)).



(** A list of [2^32] vertices. *)
Definition huge : list vertex := replicate (N.to_nat (2 ^ 32)) vertex_default.

(** A stand-in for [std::ranges::sample]: the first [count] items. *)
Definition first_items (input : list vertex) (count : nat) (seed : N)
    : list vertex := take count input.

End MoreExamples.

(* ================================================================= *)
(** * Properties *)
(* ================================================================= *)

(** ** The matrix container *)

Section MatrixFacts.
Context {Item : Type} `{!Inhabited Item}.
Implicit Types m : Utils.matrix Item.

Lemma matrix_row_lookup m i j :
  j < Utils.size m → Utils.row m i !! j = Utils.buffer m !! (i * Utils.size m + j).
Proof.
  intros Hj. unfold Utils.row.
  rewrite lookup_take_lt by done. by rewrite lookup_drop.
Qed.

Lemma matrix_at_eq m i j :
  j < Utils.size m → Utils.at_ m i j = Utils.buffer m !!! (i * Utils.size m + j).
Proof.
  intros Hj. unfold Utils.at_.
  rewrite !list_lookup_total_alt, matrix_row_lookup; done.
Qed.

(** Reads at positions below the size stay inside a well-formed buffer. *)
Lemma matrix_at_in_bounds m i j :
  Utils.wf m → i < Utils.size m → j < Utils.size m →
  Utils.buffer m !! (i * Utils.size m + j) = Some (Utils.at_ m i j).
Proof.
  intros Hwf Hi Hj. rewrite matrix_at_eq by done.
  apply list_lookup_lookup_total_lt. unfold Utils.wf, Utils.size in *. nia.
Qed.

(** A matrix whose cells can be addressed by a [size_t] has a size that
    an [unsigned] holds: the counters of the loops over it do not wrap. *)
Lemma matrix_size_fits_unsigned m :
  Utils.wf m → (Z.of_nat (length (Utils.buffer m)) < 2 ^ 64)%Z →
  (Z.of_nat (Utils.size m) < 2 ^ 32)%Z.
Proof.
  unfold Utils.wf, Utils.size. intros -> H.
  rewrite Nat2Z.inj_mul in H. nia.
Qed.

Lemma flat_index_inj n i j i' j' :
  j < n → j' < n → i * n + j = i' * n + j' → i = i' ∧ j = j'.
Proof.
  intros Hj Hj' Heq.
  destruct (Nat.lt_total i i') as [Hlt|[->|Hlt]]; [|lia|].
  - pose proof (Nat.mul_le_mono_r (S i) i' n ltac:(lia)). lia.
  - pose proof (Nat.mul_le_mono_r (S i') i n ltac:(lia)). lia.
Qed.

Lemma matrix_new_wf (d : Item) n : Utils.wf (Utils.new d n).
Proof. unfold Utils.wf, Utils.new; simpl. by rewrite length_replicate. Qed.

Lemma matrix_set_wf m i j x : Utils.wf m → Utils.wf (Utils.set m i j x).
Proof. unfold Utils.wf, Utils.set; simpl. by rewrite length_insert. Qed.

Lemma matrix_set_size m i j x : Utils.size (Utils.set m i j x) = Utils.size m.
Proof. done. Qed.

Lemma matrix_at_set_eq m i j x :
  Utils.wf m → i < Utils.size m → j < Utils.size m →
  Utils.at_ (Utils.set m i j x) i j = x.
Proof.
  intros Hwf Hi Hj. rewrite matrix_at_eq by done. simpl.
  apply list_lookup_total_insert_eq. unfold Utils.wf, Utils.size in *. nia.
Qed.

Lemma matrix_at_set_ne m i j i' j' x :
  j < Utils.size m → j' < Utils.size m → (i, j) ≠ (i', j') →
  Utils.at_ (Utils.set m i j x) i' j' = Utils.at_ m i' j'.
Proof.
  intros Hj Hj' Hne. rewrite !matrix_at_eq by done. simpl.
  apply list_lookup_total_insert_ne. intros Heq.
  apply flat_index_inj in Heq as [-> ->]; done.
Qed.

Lemma matrix_at_new (d : Item) n i j :
  i < n → j < n → Utils.at_ (Utils.new d n) i j = d.
Proof.
  intros Hi Hj. rewrite matrix_at_eq by done. simpl.
  apply lookup_total_replicate_2. unfold Utils.size; simpl. nia.
Qed.

Lemma flat_rows_lookup (f : nat → nat → Item) n k s i j :
  i < k → j < n →
  flat_map (λ i, map (f i) (seq 0 n)) (seq s k) !! (i * n + j) = Some (f (s + i) j).
Proof.
  revert s i. induction k as [|k IH]; intros s i Hi Hj; [lia|].
  simpl. destruct i as [|i].
  - rewrite lookup_app_l by (rewrite length_map, length_seq; lia).
    simpl. rewrite list_lookup_fmap, lookup_seq_lt by done. simpl.
    by rewrite Nat.add_0_r.
  - rewrite lookup_app_r by (rewrite length_map, length_seq; lia).
    rewrite length_map, length_seq.
    replace (S i * n + j - n) with (i * n + j) by lia.
    rewrite IH by lia. do 2 f_equal. lia.
Qed.

Lemma matrix_of_fun_wf n (f : nat → nat → Item) : Utils.wf (Utils.of_fun n f).
Proof.
  unfold Utils.wf, Utils.of_fun; simpl.
  assert (∀ rows : list nat,
    length (flat_map (λ i, map (f i) (seq 0 n)) rows) = length rows * n) as Hlen.
  { induction rows as [|r rows IH]; simpl; [done|].
    by rewrite length_app, length_map, length_seq, IH. }
  by rewrite Hlen, length_seq.
Qed.

Lemma matrix_at_of_fun n (f : nat → nat → Item) i j :
  i < n → j < n → Utils.at_ (Utils.of_fun n f) i j = f i j.
Proof.
  intros Hi Hj. rewrite matrix_at_eq by done. simpl.
  apply list_lookup_total_correct. unfold Utils.size; simpl.
  by rewrite flat_rows_lookup.
Qed.

End MatrixFacts.

(** ** Linear scans *)

Lemma scan_Some p from todo x :
  Tour.scan p from todo = Some x ↔
  from ≤ x < from + todo ∧ p x = true ∧ ∀ y, from ≤ y < x → p y = false.
Proof.
  revert from. induction todo as [|todo IH]; intros from; simpl.
  - split; [done|lia].
  - destruct (p from) eqn:Hp.
    + split.
      * intros [= <-]. split_and!; [lia|lia|done|lia].
      * intros (Hx & Hpx & Hmin). f_equal.
        destruct (decide (from = x)) as [|Hne]; [done|].
        rewrite Hmin in Hp by lia. done.
    + rewrite IH. split.
      * intros (Hx & Hpx & Hmin). split_and!; [lia|lia|done|].
        intros y Hy. destruct (decide (y = from)) as [->|]; [done|].
        apply Hmin. lia.
      * intros (Hx & Hpx & Hmin).
        assert (x ≠ from) by congruence.
        split_and!; [lia|lia|done|]. intros y Hy. apply Hmin. lia.
Qed.

Lemma scan_None p from todo :
  Tour.scan p from todo = None ↔ ∀ y, from ≤ y < from + todo → p y = false.
Proof.
  revert from. induction todo as [|todo IH]; intros from; simpl.
  - split; [lia|done].
  - destruct (p from) eqn:Hp.
    + split; [done|]. intros H. rewrite H in Hp by lia. done.
    + rewrite IH. split.
      * intros H y Hy. destruct (decide (y = from)) as [->|]; [done|].
        apply H. lia.
      * intros H y Hy. apply H. lia.
Qed.

(** ** The [seen] bits *)

Import Vertex Tour Cycle.

Lemma seen_insert_true (s : list bool) u v :
  <[u:=true]> s !!! v = true ↔ s !!! v = true ∨ (u = v ∧ v < length s).
Proof.
  destruct (decide (u = v)) as [->|Hne].
  - destruct (decide (v < length s)) as [Hlt|Hge].
    + rewrite list_lookup_total_insert_eq by done. tauto.
    + rewrite list_insert_ge by lia. intuition lia.
  - rewrite list_lookup_total_insert_ne by done. intuition congruence.
Qed.

Lemma unseen_insert (s : list bool) v :
  v < length s → s !!! v = false → S (unseen (<[v:=true]> s)) = unseen s.
Proof.
  unfold unseen. revert v.
  induction s as [|b s IH]; intros v Hv Hs; [simpl in *; lia|].
  destruct v as [|v].
  - simpl in Hs. subst b. simpl. rewrite !filter_cons. simpl.
    repeat case_decide; done.
  - change (<[S v:=true]> (b :: s)) with (b :: <[v:=true]> s).
    change ((b :: s) !!! S v) with (s !!! v) in Hs. simpl in Hv.
    rewrite !filter_cons.
    case_decide; simpl; rewrite <- (IH v) by (done || lia); done.
Qed.

Lemma unseen_le (s : list bool) : unseen s ≤ length s.
Proof. apply length_filter. Qed.

Lemma unseen_replicate n : unseen (replicate n false) = n.
Proof.
  unfold unseen. induction n as [|n IH]; [done|].
  change (replicate (S n) false) with (false :: replicate n false).
  rewrite filter_cons. case_decide; simpl; [by rewrite IH|done].
Qed.

Lemma unseen_zero (s : list bool) :
  unseen s = 0 ↔ ∀ v, v < length s → s !!! v = true.
Proof.
  unfold unseen. induction s as [|b s IH].
  - simpl. split; [intros _ v; lia|done].
  - rewrite filter_cons. destruct b; case_decide as Hb; try done; simpl.
    + rewrite IH. split.
      * intros H [|v] Hv; [done|]. apply H. lia.
      * intros H v Hv. apply (H (S v)). lia.
    + split; [lia|]. intros H. specialize (H 0 ltac:(lia)). done.
Qed.

(** ** One walk: [next_tour(unsigned node)] *)

Lemma walk_S len it node vs :
  walk (S len) it node vs =
    let it1 := set_seen it (<[node := true]> (seen it)) in
    match best_next it1 node with
    | Some next => walk len it1 next (vs ++ [node])
    | None => (vs ++ [node], it1)
    end.
Proof. done. Qed.

Lemma new_node_Some it node :
  new_node it = Some node ↔
  node < count it ∧ seen it !!! node = false ∧ ∀ y, y < node → seen it !!! y = true.
Proof.
  unfold new_node. rewrite scan_Some. simpl.
  rewrite negb_true_iff. split.
  - intros (Hn & Hs & Hmin). split_and!; [lia|done|].
    intros y Hy. specialize (Hmin y ltac:(lia)).
    by apply negb_false_iff in Hmin.
  - intros (Hn & Hs & Hmin). split_and!; [lia|lia|done|].
    intros y Hy. apply negb_false_iff, Hmin. lia.
Qed.

Lemma new_node_None it :
  new_node it = None ↔ ∀ y, y < count it → seen it !!! y = true.
Proof.
  unfold new_node. rewrite scan_None. simpl. split.
  - intros H y Hy. specialize (H y ltac:(lia)). by apply negb_false_iff in H.
  - intros H y Hy. apply negb_false_iff, H. lia.
Qed.

Lemma best_next_Some it u v :
  best_next it u = Some v ↔
  v < count it ∧ Utils.at_ (solution it) u v = true ∧ seen it !!! v = false ∧
  ∀ y, y < v → Utils.at_ (solution it) u y = true → seen it !!! y = true.
Proof.
  unfold best_next, Utils.at_. rewrite scan_Some. simpl.
  rewrite andb_true_iff, negb_true_iff. split.
  - intros (Hn & [Ha Hs] & Hmin). split_and!; [lia|done|done|].
    intros y Hy Hay. specialize (Hmin y ltac:(lia)).
    rewrite Hay in Hmin. simpl in Hmin. by apply negb_false_iff in Hmin.
  - intros (Hn & Ha & Hs & Hmin). split_and!; [lia|lia|done|done|].
    intros y Hy. apply andb_false_iff.
    destruct (Utils.row (solution it) u !!! y) eqn:Hay; [right|by left].
    apply negb_false_iff, Hmin; [lia|done].
Qed.

Lemma best_next_None it u :
  best_next it u = None ↔
  ∀ y, y < count it → Utils.at_ (solution it) u y = true → seen it !!! y = true.
Proof.
  unfold best_next, Utils.at_. rewrite scan_None. simpl. split.
  - intros H y Hy Hay. specialize (H y ltac:(lia)).
    rewrite Hay in H. simpl in H. by apply negb_false_iff in H.
  - intros H y Hy. apply andb_false_iff.
    destruct (Utils.row (solution it) u !!! y) eqn:Hay; [right|by left].
    apply negb_false_iff, H; [lia|done].
Qed.

Lemma marks_nil it : marks it [] it.
Proof.
  unfold marks. split_and!.
  - done.
  - done.
  - done.
  - constructor.
  - intros x Hx. by apply elem_of_nil in Hx.
  - intros v. split; [by left|]. intros [?|Hv]; [done|by apply elem_of_nil in Hv].
  - simpl. lia.
Qed.

Lemma marks_single it node :
  node < length (seen it) → node < count it → seen it !!! node = false →
  marks it [node] (set_seen it (<[node := true]> (seen it))).
Proof.
  intros Hlen Hn Hs. unfold marks; simpl. split_and!.
  - done.
  - done.
  - by rewrite length_insert.
  - apply NoDup_singleton.
  - intros x ->%list_elem_of_singleton. done.
  - intros v. rewrite seen_insert_true, list_elem_of_singleton.
    intuition (subst; lia || done).
  - rewrite <- (unseen_insert (seen it) node) by done. lia.
Qed.

Lemma marks_app it1 it2 it3 l1 l2 :
  marks it1 l1 it2 → marks it2 l2 it3 → marks it1 (l1 ++ l2) it3.
Proof.
  intros (Hv1 & Hsol1 & Hlen1 & Hnd1 & Hin1 & Hs1 & Hu1)
         (Hv2 & Hsol2 & Hlen2 & Hnd2 & Hin2 & Hs2 & Hu2).
  unfold marks. split_and!.
  - congruence.
  - congruence.
  - congruence.
  - apply NoDup_app. split_and!; [done| |done].
    intros x Hx1 Hx2. apply Hin2 in Hx2 as [_ Hx2].
    assert (seen it2 !!! x = true) as Ht by (apply Hs1; by right).
    congruence.
  - intros x [Hx|Hx]%elem_of_app; [by apply Hin1|].
    apply Hin2 in Hx as [Hx Hf]. unfold count in *. rewrite Hv1 in Hx. split; [done|].
    destruct (seen it1 !!! x) eqn:Hsx; [|done].
    assert (seen it2 !!! x = true) as Ht by (apply Hs1; by left).
    congruence.
  - intros v. rewrite Hs2, Hs1, elem_of_app. tauto.
  - rewrite length_app. lia.
Qed.

Lemma walk_marks len it node acc :
  length (seen it) = count it → node < count it → seen it !!! node = false →
  ∃ new,
    (walk (S len) it node acc).1 = acc ++ node :: new ∧
    marks it (node :: new) (walk (S len) it node acc).2 ∧
    length new ≤ len.
Proof.
  revert it node acc. induction len as [|len IH]; intros it node acc Hlen Hn Hs.
  - exists []. rewrite walk_S; simpl.
    pose proof (marks_single it node ltac:(lia) Hn Hs) as Hm.
    destruct (best_next _ node); simpl; done.
  - rewrite walk_S. cbv zeta.
    pose proof (marks_single it node ltac:(lia) Hn Hs) as Hm.
    set (it1 := set_seen it (<[node:=true]> (seen it))) in *.
    destruct (best_next it1 node) as [next|] eqn:Hb.
    + apply best_next_Some in Hb as (Hnn & _ & Hsn & _).
      destruct (IH it1 next (acc ++ [node])) as (new & Ht & Hm' & Hl).
      { subst it1; simpl. rewrite length_insert. done. }
      { done. }
      { done. }
      exists (next :: new). split_and!.
      * rewrite Ht. by rewrite <- app_assoc.
      * apply (marks_app _ _ _ [node] (next :: new) Hm Hm').
      * simpl. lia.
    + exists []. simpl. split_and!; [done|done|lia].
Qed.

(** ** The iterator: [next_tour(void)] *)

Lemma next_tour_Some it t it' :
  length (seen it) = count it →
  next_tour it = Some (t, it') →
  ∃ node new,
    t = node :: new ∧ node < count it ∧ seen it !!! node = false ∧
    (∀ y, y < node → seen it !!! y = true) ∧
    marks it t it' ∧ length t ≤ count it.
Proof.
  intros Hlen. unfold next_tour, next_tour_from.
  destruct (new_node it) as [node|] eqn:Hnode; [|done].
  intros [= Hw]. apply new_node_Some in Hnode as (Hn & Hs & Hmin).
  destruct (count it) as [|len] eqn:Hc; [lia|].
  destruct (walk_marks len it node [] ltac:(lia) ltac:(lia) Hs) as (new & Ht & Hm & Hl).
  rewrite Hw in Ht, Hm. simpl in *. subst t.
  exists node, new. split_and!; try done. simpl. lia.
Qed.

Lemma next_tour_None it :
  length (seen it) = count it →
  next_tour it = None ↔ unseen (seen it) = 0.
Proof.
  intros Hlen. unfold next_tour.
  destruct (new_node it) as [node|] eqn:Hnode.
  - split; [done|]. intros Hz.
    apply new_node_Some in Hnode as (Hn & Hs & _).
    rewrite unseen_zero in Hz. rewrite Hz in Hs by lia. done.
  - split; [|done]. intros _. apply unseen_zero.
    rewrite new_node_None in Hnode. intros v Hv. apply Hnode. lia.
Qed.

(** ** The loop of [min_sub_tour] *)

Lemma init_ready vs sol : ready (init vs sol).
Proof. unfold ready, init, count; simpl. by rewrite length_replicate. Qed.

Lemma marks_ready it l it' : ready it → marks it l it' → ready it'.
Proof.
  unfold ready, count. intros Hr (Hv & _ & Hlen & _). by rewrite Hlen, Hv.
Qed.

Lemma next_tour_unseen it t it' :
  ready it → next_tour it = Some (t, it') →
  ready it' ∧ unseen (seen it') < unseen (seen it).
Proof.
  intros Hr Hn.
  destruct (next_tour_Some it t it' Hr Hn) as (node & new & -> & _ & _ & _ & Hm & _).
  split; [by eapply marks_ready|].
  destruct Hm as (_ & _ & _ & _ & _ & _ & Hu). simpl in Hu. lia.
Qed.

Lemma min_loop_tours fuel it m :
  ready it → unseen (seen it) < fuel →
  min_loop fuel it m = Some (foldl pick m (tours_from fuel it)).
Proof.
  revert it m. induction fuel as [|fuel IH]; intros it m Hr Hu; [lia|].
  simpl. destruct (next_tour it) as [[t it']|] eqn:Hn; [|done].
  destruct (next_tour_unseen it t it' Hr Hn) as [Hr' Hu'].
  rewrite IH by (done || lia). done.
Qed.

Lemma tours_from_stable fuel fuel' it :
  ready it → unseen (seen it) ≤ fuel → unseen (seen it) ≤ fuel' →
  tours_from fuel it = tours_from fuel' it.
Proof.
  revert fuel' it. induction fuel as [|fuel IH]; intros fuel' it Hr Hu Hu'.
  - assert (next_tour it = None) as Hn by (apply next_tour_None; [done|lia]).
    destruct fuel'; simpl; [done|]. by rewrite Hn.
  - destruct fuel' as [|fuel'].
    + assert (next_tour it = None) as Hn by (apply next_tour_None; [done|lia]).
      simpl. by rewrite Hn.
    + simpl. destruct (next_tour it) as [[t it']|] eqn:Hn; [|done].
      destruct (next_tour_unseen it t it' Hr Hn) as [Hr' Hlt].
      f_equal. apply IH; [done|lia|lia].
Qed.

(** The tours collected by [tours_from] are all there are: the iterator
    is exhausted after them. *)
Lemma tours_from_exhausts fuel it :
  ready it → unseen (seen it) ≤ fuel →
  ∃ it', ready it' ∧ next_tour it' = None ∧
         marks it (concat (tours_from fuel it)) it'.
Proof.
  revert it. induction fuel as [|fuel IH]; intros it Hr Hu.
  - exists it. split_and!; [done|apply next_tour_None; [done|lia]|apply marks_nil].
  - simpl. destruct (next_tour it) as [[t it']|] eqn:Hn.
    + destruct (next_tour_unseen it t it' Hr Hn) as [Hr' Hlt].
      destruct (next_tour_Some it t it' Hr Hn) as (_ & _ & _ & _ & _ & _ & Hm & _).
      destruct (IH it' Hr' ltac:(lia)) as (it2 & Hr2 & Hn2 & Hm2).
      exists it2. split_and!; [done|done|]. simpl. by eapply marks_app.
    + exists it. split_and!; [done|done|apply marks_nil].
Qed.

Lemma min_sub_tour_fuel_tours fuel vs sol :
  length vs ≤ fuel →
  min_sub_tour_fuel fuel vs sol =
    Some (match all_tours vs sol with
          | [] => []
          | first :: rest => foldl pick first rest
          end).
Proof.
  intros Hfuel. unfold min_sub_tour_fuel, all_tours.
  pose proof (init_ready vs sol) as Hr.
  assert (unseen (seen (init vs sol)) = length vs) as Hu
    by apply unseen_replicate.
  destruct (next_tour (init vs sol)) as [[first it']|] eqn:Hn.
  - destruct (next_tour_unseen _ _ _ Hr Hn) as [Hr' Hlt].
    rewrite min_loop_tours by (done || lia).
    destruct (length vs) as [|n] eqn:Hlen; [lia|].
    simpl. rewrite Hn. do 2 f_equal.
    apply tours_from_stable; [done|lia|lia].
  - destruct (length vs); simpl; [done|]. by rewrite Hn.
Qed.

Lemma min_sub_tour_tours vs sol :
  min_sub_tour vs sol =
    match all_tours vs sol with
    | [] => []
    | first :: rest => foldl pick first rest
    end.
Proof. unfold min_sub_tour. by rewrite min_sub_tour_fuel_tours. Qed.

Lemma walk_length len it node acc :
  length (walk len it node acc).1 ≤ length acc + len.
Proof.
  revert it node acc. induction len as [|len IH]; intros it node acc.
  - simpl. lia.
  - rewrite walk_S. cbv zeta. destruct (best_next _ node) as [next|].
    + etrans; [apply IH|]. rewrite length_app. simpl. lia.
    + simpl. rewrite length_app. simpl. lia.
Qed.

Lemma tours_from_each fuel it t :
  ready it → t ∈ tours_from fuel it →
  ∃ node new, t = node :: new ∧ NoDup t ∧
    (∀ x, x ∈ t → x < count it ∧ seen it !!! x = false) ∧
    length t ≤ count it.
Proof.
  revert it. induction fuel as [|fuel IH]; intros it Hr Hin; simpl in Hin.
  { by apply elem_of_nil in Hin. }
  destruct (next_tour it) as [[t0 it']|] eqn:Hn; [|by apply elem_of_nil in Hin].
  destruct (next_tour_Some it t0 it' Hr Hn)
    as (node & new & Ht0 & _ & _ & _ & Hm & Hlen).
  apply elem_of_cons in Hin as [->|Hin].
  - exists node, new. destruct Hm as (_ & _ & _ & Hnd & Hx & _). done.
  - destruct (IH it' (marks_ready _ _ _ Hr Hm) Hin)
      as (node' & new' & Ht & Hnd & Hx & Hl).
    destruct Hm as (Hv & _ & _ & _ & _ & Hs & _).
    assert (count it' = count it) as Hc by (unfold count; by rewrite Hv).
    exists node', new'. split_and!; [done|done| |lia].
    intros x Hxt. destruct (Hx x Hxt) as [Hlt Hf]. split; [lia|].
    destruct (seen it !!! x) eqn:Hsx; [|done].
    assert (seen it' !!! x = true) by (apply Hs; by left). congruence.
Qed.

Lemma tours_from_starts fuel it :
  ready it → starts_increase (tours_from fuel it).
Proof.
  revert it. induction fuel as [|fuel IH]; intros it Hr i j ti tj Hij Hi Hj;
    simpl in *; [done|].
  destruct (next_tour it) as [[t0 it']|] eqn:Hn; [|done].
  destruct (next_tour_Some it t0 it' Hr Hn)
    as (node & new & Ht0 & Hnode & Hsn & Hmin & Hm & _).
  pose proof (marks_ready _ _ _ Hr Hm) as Hr'.
  destruct j as [|j]; [lia|]. simpl in Hj.
  destruct i as [|i]; simpl in Hi.
  - injection Hi as <-.
    assert (tj ∈ tours_from fuel it') as Hin by (eapply list_elem_of_lookup_2; done).
    destruct (tours_from_each fuel it' tj Hr' Hin) as (b & new' & -> & _ & Hx & _).
    exists node, b. subst t0. split_and!; [done|done|].
    destruct (Hx b ltac:(left)) as [_ Hb].
    destruct Hm as (_ & _ & _ & _ & _ & Hs & _).
    destruct (Nat.lt_total node b) as [|[<-|Hlt]]; [done| |].
    + assert (seen it' !!! node = true) by (apply Hs; right; left). congruence.
    + assert (seen it' !!! b = true) by (apply Hs; left; by apply Hmin). congruence.
  - eapply (IH it' Hr' i j); [lia|done|done].
Qed.

Lemma foldl_pick_first_shortest m l : first_shortest (m :: l) (foldl pick m l).
Proof.
  induction l as [|x l IH] using rev_ind.
  - exists 0. simpl. split_and!; [done| |lia].
    intros [|j] t'; simpl; [by intros [= <-]|done].
  - rewrite foldl_snoc. destruct IH as (i & Hi & Hall & Hbefore).
    unfold pick at 1. destruct (Nat.ltb_spec (length x) (length (foldl pick m l))) as [Hlt|Hge].
    + exists (length (m :: l)). split_and!.
      * rewrite app_comm_cons. by rewrite list_lookup_middle.
      * intros j t'. rewrite app_comm_cons. intros Hj.
        apply lookup_app_Some in Hj as [Hj|[_ Hj]].
        -- specialize (Hall j t' Hj). lia.
        -- apply list_lookup_singleton_Some in Hj as [_ <-]. done.
      * intros j t' Hj. rewrite app_comm_cons, lookup_app_l by done.
        intros Hl. specialize (Hall j t' Hl). lia.
    + exists i. split_and!.
      * rewrite app_comm_cons. apply lookup_app_l_Some. done.
      * intros j t'. rewrite app_comm_cons. intros Hj.
        apply lookup_app_Some in Hj as [Hj|[_ Hj]].
        -- by eapply Hall.
        -- apply list_lookup_singleton_Some in Hj as [_ <-]. done.
      * intros j t' Hj. rewrite app_comm_cons. intros Hl.
        apply lookup_app_Some in Hl as [Hl|[Hl _]].
        -- by eapply Hbefore.
        -- apply lookup_lt_Some in Hi. unfold tour in *. lia.
Qed.

Lemma first_shortest_elem ts t : first_shortest ts t → t ∈ ts.
Proof. intros (i & Hi & _). by eapply list_elem_of_lookup_2. Qed.

(** ** Cycles and their edges *)

Lemma nxt_lt k i : i < k → nxt k i < k.
Proof. unfold nxt. case_decide; lia. Qed.

Lemma edge_at_Some c i u v :
  edge_at c i = Some (u, v) ↔ c !! i = Some u ∧ c !! nxt (length c) i = Some v.
Proof.
  unfold edge_at. destruct (c !! i), (c !! nxt _ i); split.
  all: try (intros [= -> ->]; done). all: try (intros [[= ->] [= ->]]; done).
  all: try done. all: intros [? ?]; done.
Qed.

Lemma adj_iff c u v :
  adj c u v ↔
  ∃ i, (c !! i = Some u ∧ c !! nxt (length c) i = Some v) ∨
       (c !! i = Some v ∧ c !! nxt (length c) i = Some u).
Proof.
  unfold adj. rewrite Exists_exists. split.
  - intros (i & _ & H). exists i. by rewrite !edge_at_Some in H.
  - intros (i & H). exists i. rewrite !edge_at_Some. split; [|done].
    apply elem_of_seq. split; [lia|].
    destruct H as [[H _]|[H _]]; apply lookup_lt_Some in H; lia.
Qed.

Lemma adj_sym c u v : adj c u v → adj c v u.
Proof. rewrite !adj_iff. intros (i & H). exists i. tauto. Qed.

Lemma adj_elem c u v : adj c u v → u ∈ c ∧ v ∈ c.
Proof.
  rewrite adj_iff. intros (i & [[H1 H2]|[H1 H2]]);
    split; by eapply list_elem_of_lookup_2.
Qed.

(** Edges are kept when the cycle is read from another starting point. *)
Lemma adj_app_comm l1 l2 u v : adj (l1 ++ l2) u v → adj (l2 ++ l1) u v.
Proof.
  assert (∀ i x, (l1 ++ l2) !! i = Some x →
    (l2 ++ l1) !! (if decide (i < length l1) then i + length l2 else i - length l1) = Some x)
    as Hmove.
  { intros i x Hi. case_decide as Hlt.
    - rewrite lookup_app_l in Hi by done.
      rewrite lookup_app_r by lia. rewrite <- Hi. f_equal. lia.
    - rewrite lookup_app_r in Hi by lia.
      apply lookup_lt_Some in Hi as Hlt2.
      rewrite lookup_app_l by lia. done. }
  assert (∀ i, i < length (l1 ++ l2) →
    nxt (length (l2 ++ l1))
        (if decide (i < length l1) then i + length l2 else i - length l1) =
    let i' := nxt (length (l1 ++ l2)) i in
    if decide (i' < length l1) then i' + length l2 else i' - length l1) as Hnxt.
  { intros i. rewrite !length_app. unfold nxt. simpl.
    intros Hi. repeat case_decide; lia. }
  rewrite !adj_iff. intros (i & H).
  exists (if decide (i < length l1) then i + length l2 else i - length l1).
  assert (i < length (l1 ++ l2)) as Hi
    by (destruct H as [[H _]|[H _]]; by apply lookup_lt_Some in H).
  rewrite Hnxt by done. cbv zeta.
  destruct H as [[H1 H2]|[H1 H2]]; [left|right]; split; by apply Hmove.
Qed.

(** Edges are kept when the cycle is read backwards. *)
Lemma adj_reverse_1 c u v : adj c u v → adj (reverse c) u v.
Proof.
  rewrite !adj_iff. intros (i & H).
  assert (i < length c) as Hi
    by (destruct H as [[H _]|[H _]]; by apply lookup_lt_Some in H).
  pose proof (nxt_lt _ _ Hi) as Hn.
  exists (length c - S (nxt (length c) i)).
  rewrite length_reverse.
  assert (nxt (length c) (length c - S (nxt (length c) i)) = length c - S i) as ->.
  { unfold nxt in *. repeat case_decide; lia. }
  rewrite !reverse_lookup by lia.
  replace (length c - S (length c - S (nxt (length c) i))) with (nxt (length c) i) by lia.
  replace (length c - S (length c - S i)) with i by lia.
  tauto.
Qed.

Lemma adj_reverse c u v : adj (reverse c) u v ↔ adj c u v.
Proof.
  split; [|apply adj_reverse_1].
  intros H%adj_reverse_1. by rewrite reverse_involutive in H.
Qed.

(** In a duplicate-free cycle the neighbours of [c[j]] are its
    successor and its predecessor. *)
Lemma adj_neighbours c j x v :
  NoDup c → c !! j = Some x → adj c x v →
  c !! nxt (length c) j = Some v ∨ ∃ i, nxt (length c) i = j ∧ c !! i = Some v.
Proof.
  intros Hnd Hj. rewrite adj_iff. intros (i & [[H1 H2]|[H1 H2]]).
  - left. by rewrite <- (NoDup_lookup _ _ _ _ Hnd H1 Hj).
  - right. exists i. split; [|done]. by eapply NoDup_lookup.
Qed.

(** ** Canonical form of a cycle *)

Lemma min_elem_le c x : x ∈ c → min_elem c ≤ x.
Proof.
  unfold min_elem. generalize (hd 0 c). intros d.
  induction c as [|y c IH]; intros Hx; [by apply elem_of_nil in Hx|].
  simpl. apply elem_of_cons in Hx as [->|Hx]; [lia|].
  specialize (IH Hx). lia.
Qed.

Lemma min_elem_in c : c ≠ [] → min_elem c ∈ c.
Proof.
  unfold min_elem. destruct c as [|d c]; [done|]. intros _. simpl hd.
  assert (∀ l : list nat, foldr Nat.min d l = d ∨ foldr Nat.min d l ∈ l) as H.
  { induction l as [|y l IH]; simpl; [by left|].
    destruct (Nat.min_spec y (foldr Nat.min d l)) as [[_ ->]|[_ ->]].
    - right. left.
    - destruct IH as [->|IH]; [by left|]. right. by right. }
  destruct (H (d :: c)) as [->|Hin]; [left|done].
Qed.

Lemma split_at_app m c : (split_at m c).1 ++ (split_at m c).2 = c.
Proof.
  induction c as [|x c IH]; simpl; [done|].
  case_decide; simpl; [done|].
  destruct (split_at m c) as [a b]; simpl in *. by f_equal.
Qed.

Lemma split_at_head m c : m ∈ c → head (split_at m c).2 = Some m.
Proof.
  induction c as [|x c IH]; intros Hin; [by apply elem_of_nil in Hin|].
  simpl. case_decide as Hx; simpl; [by subst|].
  apply elem_of_cons in Hin as [->|Hin]; [done|].
  specialize (IH Hin). destruct (split_at m c) as [a b]; simpl in *. done.
Qed.

Lemma rotate_to_eq m c : rotate_to m c = (split_at m c).2 ++ (split_at m c).1.
Proof. unfold rotate_to. by destruct (split_at m c). Qed.

Lemma rotate_to_perm m c : rotate_to m c ≡ₚ c.
Proof.
  rewrite rotate_to_eq. rewrite <- (split_at_app m c) at 3.
  apply Permutation_app_comm.
Qed.

Lemma rotate_to_adj m c u v : adj (rotate_to m c) u v ↔ adj c u v.
Proof.
  rewrite rotate_to_eq. rewrite <- (split_at_app m c) at 3.
  split; apply adj_app_comm.
Qed.

Lemma rotate_to_head m c : m ∈ c → head (rotate_to m c) = Some m.
Proof.
  intros Hin. rewrite rotate_to_eq.
  pose proof (split_at_head m c Hin) as Hh.
  destruct ((split_at m c).2); simpl in *; done.
Qed.

Lemma orient_cases c :
  orient c = c ∨ ∃ m rest, c = m :: rest ∧ orient c = m :: reverse rest.
Proof.
  destruct c as [|m [|y l]]; simpl; [by left|by left|].
  destruct (last (y :: l)); [|by left].
  case_decide; [by left|]. right. by exists m, (y :: l).
Qed.

Lemma orient_perm c : orient c ≡ₚ c.
Proof.
  destruct (orient_cases c) as [->|(m & rest & -> & ->)]; [done|].
  by rewrite reverse_Permutation.
Qed.

Lemma adj_cons_reverse m rest u v : adj (m :: reverse rest) u v ↔ adj (m :: rest) u v.
Proof.
  rewrite <- (adj_reverse (m :: rest)), reverse_cons.
  split; [apply (adj_app_comm [m])|apply (adj_app_comm _ [m])].
Qed.

Lemma orient_adj c u v : adj (orient c) u v ↔ adj c u v.
Proof.
  destruct (orient_cases c) as [->|(m & rest & -> & ->)]; [done|].
  apply adj_cons_reverse.
Qed.

Lemma orient_head c : head (orient c) = head c.
Proof. by destruct (orient_cases c) as [->|(m & rest & -> & ->)]. Qed.

Lemma orient_oriented c y z :
  NoDup c → orient c !! 1 = Some y → last (orient c) = Some z → y ≤ z.
Proof.
  destruct c as [|m [|y0 l]]; simpl; [done|done|].
  intros Hnd.
  destruct (last (y0 :: l)) as [z0|] eqn:Hlast;
    [|intros _; by rewrite last_cons_cons, Hlast].
  case_decide as Hle.
  - intros [= <-]. rewrite last_cons_cons, Hlast. intros [= <-]. done.
  - change ((m :: reverse (y0 :: l)) !! 1) with (reverse (y0 :: l) !! 0).
    rewrite <- head_lookup, head_reverse, Hlast. intros [= <-].
    rewrite last_cons, last_reverse. simpl. intros [= <-]. lia.
Qed.

Lemma canon_perm c : canon c ≡ₚ c.
Proof. unfold canon. by rewrite orient_perm, rotate_to_perm. Qed.

Lemma canon_adj c u v : adj (canon c) u v ↔ adj c u v.
Proof. unfold canon. by rewrite orient_adj, rotate_to_adj. Qed.

Lemma canon_head c : c ≠ [] → head (canon c) = Some (min_elem c).
Proof.
  intros Hc. unfold canon. rewrite orient_head.
  by apply rotate_to_head, min_elem_in.
Qed.

Lemma canon_oriented c : NoDup c → oriented (canon c).
Proof.
  intros Hnd y z. unfold canon. apply orient_oriented.
  by rewrite rotate_to_perm.
Qed.

Lemma canon_elem c x : x ∈ canon c ↔ x ∈ c.
Proof. by rewrite canon_perm. Qed.

Lemma canon_NoDup c : NoDup (canon c) ↔ NoDup c.
Proof. by rewrite canon_perm. Qed.

Lemma canon_length c : length (canon c) = length c.
Proof. by rewrite canon_perm. Qed.

(** ** Walking a cycle *)

Lemma mark_all_length s l : length (mark_all s l) = length s.
Proof.
  unfold mark_all. revert s. induction l as [|x l IH]; intros s; simpl; [done|].
  by rewrite IH, length_insert.
Qed.

Lemma mark_all_true s l v :
  mark_all s l !!! v = true ↔ s !!! v = true ∨ (v ∈ l ∧ v < length s).
Proof.
  unfold mark_all. revert s. induction l as [|x l IH]; intros s; simpl.
  - rewrite elem_of_nil. tauto.
  - rewrite IH, seen_insert_true, length_insert, elem_of_cons.
    intuition (subst; auto).
Qed.

Section WalkCycle.
Variables (c : list nat) (vs : list vertex) (sol : Utils.matrix bool).
Hypothesis Hnd : NoDup c.
Hypothesis Hrange : ∀ x, x ∈ c → x < length vs.
Hypothesis Hrows : ∀ u v, u ∈ c → v < length vs →
  (Utils.at_ sol u v = true ↔ adj c u v).
Hypothesis Hdir : oriented c.

Lemma walk_cycle len : ∀ s j node acc,
  length s = length vs →
  c !! j = Some node →
  (∀ i x, c !! i = Some x → (s !!! x = true ↔ i < j)) →
  length c ≤ j + len →
  walk len (IterTours s vs sol) node acc =
    (acc ++ drop j c, IterTours (mark_all s (drop j c)) vs sol).
Proof.
  induction len as [|len IH]; intros s j node acc Hlen Hj Hseen Hfuel.
  { apply lookup_lt_Some in Hj. lia. }
  assert (node ∈ c) as Hin by (by eapply list_elem_of_lookup_2).
  assert (node < length s) as Hnode by (rewrite Hlen; by apply Hrange).
  pose proof (lookup_lt_Some _ _ _ Hj) as Hjlt.
  rewrite walk_S. cbv zeta. unfold set_seen; simpl.
  rewrite (drop_S _ _ _ Hj).
  assert (∀ i x, c !! i = Some x → (<[node:=true]> s !!! x = true ↔ i < S j)) as Hseen'.
  { intros i x Hi. rewrite seen_insert_true, (Hseen i x Hi). split.
    - intros [?|[-> _]]; [lia|].
      rewrite (NoDup_lookup _ _ _ _ Hnd Hi Hj). lia.
    - intros Hlt. destruct (decide (i = j)) as [->|]; [|left; lia].
      right. split; [congruence|]. assert (x = node) by congruence. by subst. }
  destruct (c !! S j) as [y|] eqn:Hy.
  - assert (best_next (IterTours (<[node:=true]> s) vs sol) node = Some y) as ->.
    { apply best_next_Some. unfold count; simpl.
      assert (nxt (length c) j = S j) as Hn.
      { apply lookup_lt_Some in Hy. unfold nxt. case_decide; lia. }
      split_and!.
      - apply Hrange. by eapply list_elem_of_lookup_2.
      - apply Hrows; [done|apply Hrange; by eapply list_elem_of_lookup_2|].
        apply adj_iff. exists j. left. by rewrite Hn.
      - destruct (<[node:=true]> s !!! y) eqn:Hsy; [|done].
        apply (Hseen' (S j)) in Hsy; [lia|done].
      - intros v Hv Hav.
        apply Hrows in Hav; [|done|].
        2:{ assert (y < length vs) by (apply Hrange; by eapply list_elem_of_lookup_2). lia. }
        destruct (adj_neighbours c j node v Hnd Hj Hav) as [Hs|(i & Hi & Hiv)].
        + rewrite Hn in Hs. assert (v = y) by congruence. lia.
        + unfold nxt in Hi. case_decide as Hk.
          * (* the predecessor of the first vertex is the last one *)
            subst j. exfalso.
            assert (last c = Some v) as Hl.
            { rewrite last_lookup. rewrite <- Hk. done. }
            pose proof (Hdir y v Hy Hl). lia.
          * apply (Hseen' i v Hiv). lia. }
    rewrite (IH (<[node:=true]> s) (S j) y (acc ++ [node]));
      [|by rewrite length_insert|done|done|lia].
    by rewrite <- app_assoc.
  - assert (S j = length c) as Hend.
    { apply lookup_ge_None in Hy. lia. }
    assert (best_next (IterTours (<[node:=true]> s) vs sol) node = None) as ->.
    { apply best_next_None. unfold count; simpl. intros v Hv Hav.
      apply Hrows in Hav; [|done|done].
      destruct (adj_neighbours c j node v Hnd Hj Hav) as [Hs|(i & Hi & Hiv)].
      - apply (Hseen' _ v Hs). apply nxt_lt in Hjlt. lia.
      - apply (Hseen' i v Hiv). apply lookup_lt_Some in Hiv. lia. }
    rewrite (drop_ge c (S j)) by lia. done.
Qed.

End WalkCycle.

(** A canonical cycle whose vertices are all unseen and whose first vertex
    is the lowest unseen position is the next tour. *)
Lemma next_tour_cycle c m rest s vs sol :
  c = m :: rest →
  length s = length vs →
  NoDup c →
  (∀ x, x ∈ c → x < length vs ∧ s !!! x = false) →
  (∀ y, y < m → s !!! y = true) →
  (∀ u v, u ∈ c → v < length vs → (Utils.at_ sol u v = true ↔ adj c u v)) →
  oriented c →
  next_tour (IterTours s vs sol) = Some (c, IterTours (mark_all s c) vs sol).
Proof.
  intros Hc Hlen Hnd Hin Hmin Hrows Hdir.
  assert (m ∈ c) as Hm by (subst c; left).
  unfold next_tour.
  assert (new_node (IterTours s vs sol) = Some m) as ->.
  { apply new_node_Some. unfold count; simpl.
    destruct (Hin m Hm). done. }
  f_equal. unfold next_tour_from, count; simpl.
  rewrite (walk_cycle c vs sol Hnd (λ x Hx, proj1 (Hin x Hx)) Hrows Hdir
             (length vs) s 0 m []).
  - by rewrite drop_0.
  - done.
  - by subst c.
  - intros i x Hi. split; [|lia]. intros Hs.
    destruct (Hin x) as [_ Hf]; [by eapply list_elem_of_lookup_2|congruence].
  - simpl.
    assert (c ⊆+ seq 0 (length vs)) as Hsub.
    { apply NoDup_submseteq; [done|].
      intros x Hx. apply elem_of_seq. destruct (Hin x Hx). lia. }
    apply submseteq_length in Hsub. by rewrite length_seq in Hsub.
Qed.

(** ** A matrix made of disjoint cycles *)

Lemma tours_from_cycles cs : ∀ fuel s vs sol,
  length s = length vs →
  length cs ≤ fuel →
  sorted_cover cs → NoDup (concat cs) →
  (∀ x, x ∈ concat cs → x < length vs ∧ s !!! x = false) →
  (∀ v, v < length vs → s !!! v = true ∨ v ∈ concat cs) →
  (∀ c u v, c ∈ cs → u ∈ c → v < length vs →
     (Utils.at_ sol u v = true ↔ adj c u v)) →
  tours_from fuel (IterTours s vs sol) = cs.
Proof.
  induction cs as [|c cs IH]; intros fuel s vs sol Hlen Hfuel Hsc Hnd Hin Hall Hrows.
  - destruct fuel as [|fuel]; simpl; [done|].
    unfold next_tour.
    assert (new_node (IterTours s vs sol) = None) as ->; [|done].
    apply new_node_None. unfold count; simpl. intros y Hy.
    destruct (Hall y Hy) as [?|Hn]; [done|]. by apply elem_of_nil in Hn.
  - destruct fuel as [|fuel]; [simpl in Hfuel; lia|].
    destruct Hsc as ((m & rest & Hc & Hlow) & Hdir & Hsc).
    simpl in Hnd, Hin, Hall. apply NoDup_app in Hnd as (Hndc & Hdisj & Hnd').
    simpl.
    rewrite (next_tour_cycle c m rest s vs sol Hc Hlen Hndc).
    + f_equal. apply IH.
      * by rewrite mark_all_length.
      * simpl in Hfuel. lia.
      * done.
      * done.
      * intros x Hx. destruct (Hin x) as [Hlt Hf]; [apply elem_of_app; by right|].
        split; [done|].
        destruct (mark_all s c !!! x) eqn:Hmx; [|done].
        apply mark_all_true in Hmx as [?|[Hxc _]]; [congruence|].
        by destruct (Hdisj x Hxc).
      * intros v Hv. destruct (Hall v Hv) as [Hs|[Hvc|Hvr]%elem_of_app].
        -- left. apply mark_all_true. by left.
        -- left. apply mark_all_true. right. split; [done|lia].
        -- by right.
      * intros c' u v Hc'. apply Hrows. by right.
    + intros x Hx. apply Hin, elem_of_app. by left.
    + intros y Hy.
      assert (m < length vs) as Hm.
      { destruct (Hin m) as [? _]; [|done]. subst c. left. }
      destruct (Hall y ltac:(lia)) as [?|Hyc]; [done|].
      subst c. simpl in Hyc. apply elem_of_cons in Hyc as [->|Hyc]; [lia|].
      specialize (Hlow y Hyc). lia.
    + intros u v Hu Hv. apply Hrows; [left|done|done].
    + done.
Qed.

Lemma sorted_cover_length cs : sorted_cover cs → length cs ≤ length (concat cs).
Proof.
  induction cs as [|c cs IH]; simpl; [done|].
  intros ((m & rest & -> & _) & _ & Hsc). specialize (IH Hsc).
  rewrite length_app. simpl. lia.
Qed.

Lemma all_tours_cycles vs sol cs :
  sorted_cover cs → concat cs ≡ₚ seq 0 (length vs) →
  (∀ c u v, c ∈ cs → u ∈ c → v < length vs →
     (Utils.at_ sol u v = true ↔ adj c u v)) →
  all_tours vs sol = cs.
Proof.
  intros Hsc Hperm Hrows. unfold all_tours, init.
  apply tours_from_cycles.
  - by rewrite length_replicate.
  - etrans; [by apply sorted_cover_length|].
    by rewrite Hperm, length_seq.
  - done.
  - rewrite Hperm. apply NoDup_seq.
  - intros x Hx. rewrite Hperm in Hx. apply elem_of_seq in Hx.
    split; [lia|]. apply lookup_total_replicate_2. lia.
  - intros v Hv. right. rewrite Hperm. apply elem_of_seq. lia.
  - done.
Qed.

(** The canonical form of a duplicate-free cycle starts below all its
    other vertices. *)
Lemma canon_lowest c :
  c ≠ [] → NoDup c →
  ∃ rest, canon c = min_elem c :: rest ∧ ∀ x, x ∈ rest → min_elem c < x.
Proof.
  intros Hc Hnd. pose proof (canon_head c Hc) as Hh.
  destruct (canon c) as [|m rest] eqn:Hcan; [done|].
  injection Hh as ->. exists rest. split; [done|].
  intros x Hx.
  assert (x ∈ c) as Hxc by (apply canon_elem; rewrite Hcan; by right).
  pose proof (min_elem_le c x Hxc).
  apply canon_NoDup in Hnd. rewrite Hcan in Hnd.
  apply NoDup_cons in Hnd as [Hnotin _].
  destruct (decide (x = min_elem c)) as [->|]; [done|lia].
Qed.

Lemma encodes_matrix_of n cs : encodes n (matrix_of n cs) cs.
Proof.
  intros u v Hu Hv. unfold matrix_of.
  rewrite matrix_at_of_fun by done.
  rewrite bool_decide_eq_true, Exists_exists. done.
Qed.

Lemma min_sub_tour_cases vs sol :
  (all_tours vs sol = [] ∧ min_sub_tour vs sol = []) ∨
  first_shortest (all_tours vs sol) (min_sub_tour vs sol).
Proof.
  rewrite min_sub_tour_tours. destruct (all_tours vs sol) as [|first rest].
  - by left.
  - right. apply foldl_pick_first_shortest.
Qed.

Lemma min_sub_tour_props vs sol :
  NoDup (min_sub_tour vs sol) ∧
  (∀ x, x ∈ min_sub_tour vs sol → x < length vs) ∧
  length (min_sub_tour vs sol) ≤ length vs.
Proof.
  destruct (min_sub_tour_cases vs sol) as [[_ ->]|Hin%first_shortest_elem].
  - split_and!; [constructor|by intros x ?%elem_of_nil|simpl; lia].
  - destruct (tours_from_each _ _ _ (init_ready vs sol) Hin)
      as (node & new & _ & Hnd & Hx & Hl).
    split_and!; [done| |done]. intros x Hxin. by destruct (Hx x Hxin).
Qed.

Lemma min_sub_tour_bounds vs sol : length (min_sub_tour vs sol) ≤ length vs.
Proof. apply min_sub_tour_props. Qed.

(** ** C10 *)

(** C10.  Whatever the vertex list and the matrix, the tour returned by
    [tour::min_sub_tour] has pairwise distinct entries, each a position
    below [n], and at most [n] entries; on an empty vertex list the
    function returns the empty tour, without entering the loop. *)
Theorem min_sub_tour_distinct_bounded (vs : list vertex) (sol : Utils.matrix bool) :
  NoDup (min_sub_tour vs sol) ∧
  (∀ x, x ∈ min_sub_tour vs sol → x < length vs) ∧
  length (min_sub_tour vs sol) ≤ length vs ∧
  (∀ fuel, min_sub_tour_fuel fuel [] sol = Some []) ∧
  min_sub_tour [] sol = [].
Proof.
  destruct (min_sub_tour_props vs sol) as (H1 & H2 & H3).
  split_and!; done.
Qed.

(** ** C1 *)

(** C1.  When the matrix holds exactly the edges of one cycle [c] through
    all [n] positions, [tour::min_sub_tour] returns that cycle, read from
    position 0 towards the smaller neighbour of 0: a sequence of length
    [n], without repetition, containing every position, and whose
    consecutive entries (the last and the first included) are exactly the
    edges of [c]. *)
Theorem min_sub_tour_hamiltonian
    (vs : list vertex) (sol : Utils.matrix bool) (c : list nat) :
  hamiltonian (length vs) c →
  encodes (length vs) sol [c] →
  min_sub_tour vs sol = canon c ∧
  length (min_sub_tour vs sol) = length vs ∧
  NoDup (min_sub_tour vs sol) ∧
  (∀ v, v < length vs → v ∈ min_sub_tour vs sol) ∧
  (∀ u v, adj (min_sub_tour vs sol) u v ↔ adj c u v).
Proof.
  unfold hamiltonian. intros Hham Henc.
  assert (NoDup c) as Hnd by (rewrite Hham; apply NoDup_seq).
  assert (min_sub_tour vs sol = canon c) as Heq.
  { destruct (decide (c = [])) as [->|Hne].
    - symmetry in Hham. apply Permutation_nil_r in Hham.
      destruct vs; [done|]. done.
    - destruct (canon_lowest c Hne Hnd) as (rest & Hcan & Hlow).
      rewrite min_sub_tour_tours, (all_tours_cycles vs sol [canon c]); [done| | |].
      + simpl. split_and!; [|by apply canon_oriented|done].
        exists (min_elem c), rest. split; [done|].
        intros x. rewrite app_nil_r. apply Hlow.
      + simpl. by rewrite app_nil_r, canon_perm.
      + intros c' u v ->%list_elem_of_singleton Hu Hv.
        assert (u < length vs) as Hu'.
        { rewrite canon_elem in Hu. rewrite Hham in Hu. apply elem_of_seq in Hu. lia. }
        rewrite (Henc u v Hu' Hv), canon_adj. split.
        * intros (c' & ->%list_elem_of_singleton & Hadj). done.
        * intros Hadj. exists c. split; [left|done]. }
  rewrite Heq. split_and!.
  - done.
  - by rewrite canon_length, Hham, length_seq.
  - by apply canon_NoDup.
  - intros v Hv. rewrite canon_elem, Hham. apply elem_of_seq. lia.
  - apply canon_adj.
Qed.

(** ** C2 *)

Lemma pick_length m t : length (pick m t) = length t `min` length m.
Proof. unfold pick. destruct (Nat.ltb_spec (length t) (length m)); lia. Qed.

Lemma two_cycles_tours vs sol p q :
  p ≠ [] → q ≠ [] → min_elem p < min_elem q →
  p ++ q ≡ₚ seq 0 (length vs) →
  (∀ u v, u < length vs → v < length vs →
     (Utils.at_ sol u v = true ↔ adj p u v ∨ adj q u v)) →
  all_tours vs sol = [canon p; canon q].
Proof.
  intros Hp Hq Hlt Hperm Henc.
  assert (NoDup (p ++ q)) as Hnd by (rewrite Hperm; apply NoDup_seq).
  apply NoDup_app in Hnd as (Hndp & Hdisj & Hndq).
  assert (∀ x, x ∈ p ++ q → x < length vs) as Hrange.
  { intros x Hx. rewrite Hperm in Hx. apply elem_of_seq in Hx. lia. }
  destruct (canon_lowest p Hp Hndp) as (restp & Hcp & Hlowp).
  destruct (canon_lowest q Hq Hndq) as (restq & Hcq & Hlowq).
  apply all_tours_cycles.
  - simpl. split_and!; [|by apply canon_oriented| |by apply canon_oriented|done].
    + exists (min_elem p), restp. split; [done|].
      intros x. rewrite app_nil_r. intros [Hx|Hx]%elem_of_app; [by apply Hlowp|].
      rewrite canon_elem in Hx. pose proof (min_elem_le q x Hx). lia.
    + exists (min_elem q), restq. split; [done|].
      intros x. rewrite app_nil_r. apply Hlowq.
  - simpl. by rewrite app_nil_r, !canon_perm.
  - intros c u v Hc Hu Hv.
    apply elem_of_cons in Hc as [->|Hc];
      [|apply list_elem_of_singleton in Hc as ->].
    + rewrite canon_elem in Hu.
      rewrite Henc, canon_adj; [|apply Hrange, elem_of_app; by left|done].
      split; [|by left]. intros [?|[Hq' _]%adj_elem]; [done|].
      by destruct (Hdisj u Hu).
    + rewrite canon_elem in Hu.
      rewrite Henc, canon_adj; [|apply Hrange, elem_of_app; by right|done].
      split; [|by right]. intros [[Hp' _]%adj_elem|?]; [|done].
      by destruct (Hdisj u Hp').
Qed.

(** C2.  [tour::min_sub_tour] returns the first of the shortest tours the
    iterator yields (or the empty tour when it yields none); the tours
    yielded are all the iterator has, and their first vertices increase,
    so the first of the shortest is the one of lowest starting position.
    When the matrix holds exactly the edges of two disjoint cycles of
    [a] and [b] vertices, [a + b = n] and [a, b >= 3], the result is one
    of the two cycles and has [min a b] vertices. *)
Theorem min_sub_tour_shortest (vs : list vertex) (sol : Utils.matrix bool) :
  ((all_tours vs sol = [] ∧ min_sub_tour vs sol = []) ∨
   first_shortest (all_tours vs sol) (min_sub_tour vs sol)) ∧
  starts_increase (all_tours vs sol) ∧
  (∃ it', marks (init vs sol) (concat (all_tours vs sol)) it' ∧
          next_tour it' = None) ∧
  (∀ c1 c2,
     3 ≤ length c1 → 3 ≤ length c2 →
     c1 ++ c2 ≡ₚ seq 0 (length vs) →
     encodes (length vs) sol [c1; c2] →
     length (min_sub_tour vs sol) = length c1 `min` length c2 ∧
     ∃ c, c ∈ [c1; c2] ∧ length c = length c1 `min` length c2 ∧
          min_sub_tour vs sol = canon c).
Proof.
  split_and!.
  - apply min_sub_tour_cases.
  - apply tours_from_starts, init_ready.
  - destruct (tours_from_exhausts (length vs) (init vs sol)) as (it' & _ & Hn & Hm).
    + apply init_ready.
    + unfold init; simpl. by rewrite unseen_replicate.
    + by exists it'.
  - intros c1 c2 Hl1 Hl2 Hperm Henc.
    assert (c1 ≠ []) as Hne1 by (intros ->; simpl in Hl1; lia).
    assert (c2 ≠ []) as Hne2 by (intros ->; simpl in Hl2; lia).
    assert (NoDup (c1 ++ c2)) as Hnd by (rewrite Hperm; apply NoDup_seq).
    apply NoDup_app in Hnd as (_ & Hdisj & _).
    assert (min_elem c1 ≠ min_elem c2) as Hne.
    { intros Heq. apply (Hdisj (min_elem c1)); [by apply min_elem_in|].
      rewrite Heq. by apply min_elem_in. }
    assert (∀ u v, u < length vs → v < length vs →
      (Utils.at_ sol u v = true ↔ adj c1 u v ∨ adj c2 u v)) as Henc'.
    { intros u v Hu Hv. rewrite (Henc u v Hu Hv). split.
      - intros (c & Hc & Hadj). apply elem_of_cons in Hc as [->|Hc]; [by left|].
        apply list_elem_of_singleton in Hc as ->. by right.
      - intros [?|?]; [exists c1|exists c2]; (split; [|done]); [left|right; left]. }
    rewrite min_sub_tour_tours.
    destruct (Nat.lt_total (min_elem c1) (min_elem c2)) as [Hlt|[?|Hlt]]; [|done|].
    + rewrite (two_cycles_tours vs sol c1 c2); [|done..]. simpl.
      rewrite pick_length, !canon_length. split; [lia|].
      unfold pick. rewrite !canon_length.
      destruct (Nat.ltb_spec (length c2) (length c1)).
      * exists c2. split_and!; [right; left|lia|done].
      * exists c1. split_and!; [left|lia|done].
    + rewrite (two_cycles_tours vs sol c2 c1); [|done|done|done| |].
      2:{ by rewrite (Permutation_app_comm c2 c1). }
      2:{ intros u v Hu Hv. rewrite (Henc' u v Hu Hv). tauto. }
      simpl. rewrite pick_length, !canon_length. split; [lia|].
      unfold pick. rewrite !canon_length.
      destruct (Nat.ltb_spec (length c1) (length c2)).
      * exists c1. split_and!; [left|lia|done].
      * exists c2. split_and!; [right; left|lia|done].
Qed.

(** ** The pairs of the model builder's loops *)

Lemma foldl_bind {A B C} (g : A → B → A) (f : C → list B) (a : A) (l : list C) :
  foldl g a (l ≫= f) = foldl (λ a x, foldl g a (f x)) a l.
Proof.
  revert a. induction l as [|x l IH]; intros a; csimpl; [done|].
  by rewrite foldl_app, IH.
Qed.

Lemma foldl_pairs {S} (f : S → nat → nat → S) n (l : list nat) (st : S) :
  foldl (λ st u, foldl (λ st v, f st u v) st (seq (u + 1) (n - (u + 1)))) st l =
  foldl (λ st p, f st p.1 p.2) st
        (l ≫= λ u, (λ v, (u, v)) <$> seq (u + 1) (n - (u + 1))).
Proof.
  rewrite foldl_bind. revert st.
  induction l as [|u l IH]; intros st; simpl; [done|].
  rewrite foldl_fmap. apply IH.
Qed.

Lemma elem_of_pairs n u v : (u, v) ∈ Graph.pairs n ↔ u < v < n.
Proof.
  unfold Graph.pairs. rewrite list_elem_of_bind. split.
  - intros (u' & Hin & Hu'). apply list_elem_of_fmap in Hin as (v' & [= -> ->] & Hv').
    apply elem_of_seq in Hv'. apply elem_of_seq in Hu'. lia.
  - intros Huv. exists u. split.
    + apply list_elem_of_fmap. exists v. split; [done|]. apply elem_of_seq. lia.
    + apply elem_of_seq. lia.
Qed.

Lemma NoDup_pairs n : NoDup (Graph.pairs n).
Proof.
  unfold Graph.pairs. apply NoDup_bind.
  - intros u1 u2 [u v] _ _ (? & [= -> ->] & _)%list_elem_of_fmap
      (? & [= -> ->] & _)%list_elem_of_fmap. done.
  - intros u _. apply NoDup_fmap_2; [|apply NoDup_seq].
    intros v1 v2 [=]. done.
  - apply NoDup_seq.
Qed.

Lemma length_pairs n : length (Graph.pairs n) = n * (n - 1) / 2.
Proof.
  unfold Graph.pairs.
  assert (∀ k s, s + k = n →
    2 * length (seq s k ≫= λ u, (λ v, (u, v)) <$> seq (u + 1) (n - (u + 1)))
    = k * (k - 1)) as H.
  { induction k as [|k IH]; intros s Hs; csimpl; [done|].
    rewrite length_app, length_fmap, length_seq.
    specialize (IH (S s) ltac:(lia)). nia. }
  specialize (H n 0 ltac:(lia)).
  apply Nat.div_unique_exact; [lia|]. lia.
Qed.

(** ** The variables of one tour: [add_vars] *)

Section AddVars.
Import Gurobi.
Variable cost : vertex → vertex → float.
Variable vs : list vertex.

Lemma add_pairs_built m0 X0 ps :
  Utils.wf X0 → NoDup ps →
  (∀ u v, (u, v) ∈ ps → u < v < Utils.size X0) →
  Graph.built cost vs m0 X0 ps
    (foldl (λ st p, Graph.add_pair cost vs st p.1 p.2) (m0, X0) ps).
Proof.
  intros Hwf. induction ps as [|[u v] ps IH] using rev_ind; intros Hnd Hrange.
  - unfold Graph.built; simpl. rewrite app_nil_r. split_and!; try done.
  - apply NoDup_app in Hnd as (Hnd & Hnotin & _).
    rewrite foldl_snoc.
    destruct (IH Hnd) as (Hvars & Hc & Hq & Hsc & HX & Hwf' & Hsize & Hat & Hother).
    { intros a b Hab. apply Hrange, elem_of_app. by left. }
    destruct (foldl _ (m0, X0) ps) as [m1 X1]. simpl in *.
    assert (u < v < Utils.size X0) as Huv.
    { apply Hrange, elem_of_app. right. left. }
    assert ((u, v) ∉ ps) as Hfresh.
    { intros Hin. apply (Hnotin _ Hin). left. }
    assert ((v, u) ∉ ps) as Hfresh'.
    { intros Hin. assert (v < u) by (apply (Hrange v u), elem_of_app; by left). lia. }
    unfold Graph.built, Graph.add_pair, Graph.add_edge_with, addVar; simpl.
    split_and!; try done.
    + rewrite Hvars, fmap_app. simpl. by rewrite <- app_assoc.
    + by do 2 apply matrix_set_wf.
    + intros i a b Hi.
      assert (length (vars m1) = length (vars m0) + length ps) as Hlen.
      { by rewrite Hvars, length_app, length_fmap. }
      apply lookup_app_Some in Hi as [Hi|[Hge Hi]].
      * assert ((a, b) ∈ ps) as Hin by (by eapply list_elem_of_lookup_2).
        assert (a < b < Utils.size X0) as Hab.
        { apply Hrange, elem_of_app. by left. }
        destruct (Hat i a b Hi) as [H1 H2].
        rewrite !matrix_at_set_ne; rewrite ?matrix_set_size; try lia;
          [done|intros [= ? ?]; simplify_eq; lia || done..].
      * apply list_lookup_singleton_Some in Hi as [Hi [= <- <-]].
        replace i with (length ps) by lia. rewrite <- Hlen.
        split.
        -- rewrite matrix_at_set_ne; rewrite ?matrix_set_size; try lia.
           ++ apply matrix_at_set_eq; [done|lia|lia].
           ++ intros [= ? ?]. lia.
        -- apply matrix_at_set_eq; [by apply matrix_set_wf|..];
             rewrite matrix_set_size; lia.
    + intros a b Ha Hb Hab Hba.
      rewrite !matrix_at_set_ne; rewrite ?matrix_set_size; try lia.
      * apply Hother; try done.
        -- intros Hin. apply Hab, elem_of_app. by left.
        -- intros Hin. apply Hba, elem_of_app. by left.
      * intros [= ? ?]. simplify_eq. apply Hab, elem_of_app. right. left.
      * intros [= ? ?]. simplify_eq. apply Hba, elem_of_app. right. left.
Qed.

Lemma add_vars_with_pairs m :
  Graph.add_vars_with cost m vs =
  foldl (λ st p, Graph.add_pair cost vs st p.1 p.2)
        (m, Utils.new None (length vs)) (Graph.pairs (length vs)).
Proof.
  unfold Graph.add_vars_with, Graph.pairs. cbv zeta.
  by rewrite (foldl_pairs (Graph.add_pair cost vs)).
Qed.

Lemma add_vars_with_built m :
  Graph.built cost vs m (Utils.new None (length vs)) (Graph.pairs (length vs))
        (Graph.add_vars_with cost m vs).
Proof.
  rewrite add_vars_with_pairs. apply add_pairs_built.
  - apply matrix_new_wf.
  - apply NoDup_pairs.
  - intros u v. by rewrite elem_of_pairs.
Qed.

End AddVars.

Lemma built_handles cost vs m0 n r u v :
  Graph.built cost vs m0 (Utils.new None n) (Graph.pairs n) r →
  u < v < n →
  ∃ i, Graph.pairs n !! i = Some (u, v) ∧
       Utils.at_ r.2 u v = Some (length (Gurobi.vars m0) + i) ∧
       Utils.at_ r.2 v u = Some (length (Gurobi.vars m0) + i) ∧
       Gurobi.vars r.1 !! (length (Gurobi.vars m0) + i) =
         Some (Graph.edge_var cost (vs !!! u) (vs !!! v)) ∧
       length (Gurobi.vars m0) + i < length (Gurobi.vars r.1).
Proof.
  intros (Hvars & _ & _ & _ & _ & _ & _ & Hat & _) Huv.
  assert ((u, v) ∈ Graph.pairs n) as Hin by (by apply elem_of_pairs).
  apply list_elem_of_lookup_1 in Hin as (i & Hi).
  destruct (Hat i u v Hi) as [H1 H2].
  exists i. split_and!; [done|done|done| |].
  - rewrite Hvars, lookup_app_r by lia.
    replace (length (Gurobi.vars m0) + i - length (Gurobi.vars m0)) with i by lia.
    by rewrite list_lookup_fmap, Hi.
  - rewrite Hvars, length_app, length_fmap.
    apply lookup_lt_Some in Hi. lia.
Qed.

Lemma built_diagonal cost vs m0 n r u :
  Graph.built cost vs m0 (Utils.new None n) (Graph.pairs n) r →
  u < n → Utils.at_ r.2 u u = None.
Proof.
  intros (_ & _ & _ & _ & _ & _ & _ & _ & Hother) Hu.
  rewrite Hother; [by apply matrix_at_new|done|done|..];
    rewrite elem_of_pairs; lia.
Qed.

Lemma built_count cost vs m0 n r :
  Graph.built cost vs m0 (Utils.new None n) (Graph.pairs n) r →
  length (Gurobi.vars r.1) = length (Gurobi.vars m0) + n * (n - 1) / 2.
Proof.
  intros (Hvars & _). by rewrite Hvars, length_app, length_fmap, length_pairs.
Qed.

(** ** C6 *)

(** C6.  In the matrix [add_vars] builds over [n] vertices, the entries
    [(u, v)] and [(v, u)] of two distinct positions hold one and the same
    handle, that of a variable created by this call; no diagonal entry
    is ever written, it keeps the null handle; two different unordered
    pairs never share a variable, and the call creates [n (n - 1) / 2]
    variables, one per unordered pair. *)
Theorem add_vars_shared_handle
    (hypot : float → float → float) (ceil : float → float)
    (m : Gurobi.GRBModel) (vs : list vertex) :
  (∀ u v, u < length vs → v < length vs → u ≠ v →
     ∃ h, Utils.at_ (Graph.add_vars hypot ceil m vs).2 u v = Some h ∧
          Utils.at_ (Graph.add_vars hypot ceil m vs).2 v u = Some h ∧
          length (Gurobi.vars m) ≤ h <
            length (Gurobi.vars (Graph.add_vars hypot ceil m vs).1)) ∧
  (∀ u, u < length vs →
     Utils.at_ (Graph.add_vars hypot ceil m vs).2 u u = None) ∧
  (∀ u v u' v', u < v < length vs → u' < v' < length vs →
     Utils.at_ (Graph.add_vars hypot ceil m vs).2 u v =
     Utils.at_ (Graph.add_vars hypot ceil m vs).2 u' v' →
     u = u' ∧ v = v') ∧
  length (Gurobi.vars (Graph.add_vars hypot ceil m vs).1) =
    length (Gurobi.vars m) + length vs * (length vs - 1) / 2.
Proof.
  unfold Graph.add_vars.
  pose proof (add_vars_with_built (cost1 hypot ceil) vs m) as Hb.
  set (r := Graph.add_vars_with (cost1 hypot ceil) m vs) in *.
  split_and!.
  - intros u v Hu Hv Hne.
    destruct (Nat.lt_total u v) as [Hlt|[?|Hlt]]; [|done|].
    + destruct (built_handles _ _ _ _ _ u v Hb ltac:(lia)) as (i & _ & H1 & H2 & _ & Hlt').
      exists (length (Gurobi.vars m) + i). split_and!; [done|done|lia|done].
    + destruct (built_handles _ _ _ _ _ v u Hb ltac:(lia)) as (i & _ & H1 & H2 & _ & Hlt').
      exists (length (Gurobi.vars m) + i). split_and!; [done|done|lia|done].
  - intros u Hu. by eapply built_diagonal.
  - intros u v u' v' Huv Huv' Heq.
    destruct (built_handles _ _ _ _ _ u v Hb Huv) as (i & Hi & H1 & _).
    destruct (built_handles _ _ _ _ _ u' v' Hb Huv') as (i' & Hi' & H1' & _).
    rewrite H1, H1' in Heq. assert (i = i') as -> by (injection Heq; lia).
    rewrite Hi in Hi'. by injection Hi'.
  - by eapply built_count.
Qed.

(** ** Degree constraints *)

Lemma deg_2_expr_eq n (X : Utils.matrix Gurobi.GRBVar) u :
  Graph.deg_2_expr n X u =
  (λ v, Utils.at_ X u v) <$> filter (λ v, u ≠ v) (seq 0 n).
Proof.
  unfold Graph.deg_2_expr.
  assert (∀ l acc,
    foldl (λ expr v, if decide (u ≠ v) then expr ++ [Utils.at_ X u v] else expr) acc l
    = acc ++ ((λ v, Utils.at_ X u v) <$> filter (λ v, u ≠ v) l)) as H.
  { induction l as [|v l IH]; intros acc; simpl; [by rewrite app_nil_r|].
    rewrite IH, filter_cons. case_decide; [|done].
    by rewrite fmap_cons, <- app_assoc. }
  by rewrite H.
Qed.

Lemma add_constraint_deg_2_spec m n (X : Utils.matrix Gurobi.GRBVar) :
  Gurobi.vars (Graph.add_constraint_deg_2 m n X) = Gurobi.vars m ∧
  Gurobi.constrs (Graph.add_constraint_deg_2 m n X) =
    Gurobi.constrs m ++
    ((λ u, Gurobi.LinConstr (Graph.deg_2_expr n X u) Gurobi.GRB_EQUAL 2) <$> seq 0 n) ∧
  Gurobi.qconstrs (Graph.add_constraint_deg_2 m n X) = Gurobi.qconstrs m.
Proof.
  unfold Graph.add_constraint_deg_2. generalize (seq 0 n). intros l.
  revert m. induction l as [|u l IH]; intros m; simpl.
  - by rewrite app_nil_r.
  - destruct (IH (Gurobi.addConstr m (Graph.deg_2_expr n X u) Gurobi.GRB_EQUAL 2))
      as (-> & -> & ->). simpl. by rewrite <- app_assoc.
Qed.

(** ** The graph of one tour, as [graph.hpp] builds it *)

Lemma graph_make_spec hypot ceil vs :
  ∃ m1,
    Graph.built (cost1 hypot ceil) vs Gurobi.empty
      (Utils.new None (length vs)) (Graph.pairs (length vs))
      (m1, Graph.vars (Graph.make hypot ceil vs)) ∧
    Graph.vertices (Graph.make hypot ceil vs) = vs ∧
    Gurobi.vars (Graph.model (Graph.make hypot ceil vs)) = Gurobi.vars m1 ∧
    Gurobi.constrs (Graph.model (Graph.make hypot ceil vs)) =
      (λ u, Gurobi.LinConstr
              (Graph.deg_2_expr (length vs) (Graph.vars (Graph.make hypot ceil vs)) u)
              Gurobi.GRB_EQUAL 2) <$> seq 0 (length vs) ∧
    Gurobi.qconstrs (Graph.model (Graph.make hypot ceil vs)) = [].
Proof.
  unfold Graph.make, Graph.add_vars.
  pose proof (add_vars_with_built (cost1 hypot ceil) vs Gurobi.empty) as Hb.
  destruct (Graph.add_vars_with (cost1 hypot ceil) Gurobi.empty vs) as [m1 X1].
  exists m1. simpl.
  pose proof Hb as (_ & Hc & Hq & _). simpl in *.
  destruct (add_constraint_deg_2_spec m1 (length vs) X1) as (Hv2 & Hc2 & Hq2).
  split_and!; [done|done|done| |].
  - by rewrite Hc2, Hc.
  - by rewrite Hq2, Hq.
Qed.

(** The constructor of [graph.hpp]: one degree-2 equality per vertex, one
    binary variable per pair with [cost1] as objective coefficient, and
    no quadratic constraint. *)
Lemma graph_make_model hypot ceil vs :
  (∀ u, u < length vs →
     Gurobi.constrs (Graph.model (Graph.make hypot ceil vs)) !! u =
     Some (Gurobi.LinConstr
             ((λ v, Utils.at_ (Graph.vars (Graph.make hypot ceil vs)) u v)
                <$> filter (λ v, u ≠ v) (seq 0 (length vs)))
             Gurobi.GRB_EQUAL 2)) ∧
  length (Gurobi.constrs (Graph.model (Graph.make hypot ceil vs))) = length vs ∧
  (∀ u v, u < v < length vs →
     ∃ h, Utils.at_ (Graph.vars (Graph.make hypot ceil vs)) u v = Some h ∧
          Gurobi.vars (Graph.model (Graph.make hypot ceil vs)) !! h =
            Some (Graph.edge_var (cost1 hypot ceil) (vs !!! u) (vs !!! v))) ∧
  length (Gurobi.vars (Graph.model (Graph.make hypot ceil vs))) =
    length vs * (length vs - 1) / 2 ∧
  Gurobi.qconstrs (Graph.model (Graph.make hypot ceil vs)) = [].
Proof.
  destruct (graph_make_spec hypot ceil vs) as (m1 & Hb & _ & Hv & Hc & Hq).
  split_and!.
  - intros u Hu. rewrite Hc, <- deg_2_expr_eq.
    by rewrite list_lookup_fmap, lookup_seq_lt.
  - by rewrite Hc, length_fmap, length_seq.
  - intros u v Huv.
    destruct (built_handles _ _ _ _ _ u v Hb Huv) as (idx & _ & H1 & _ & H3 & _).
    simpl in *. exists idx. by rewrite Hv.
  - rewrite Hv. apply (built_count _ _ _ _ _ Hb).
  - done.
Qed.

(** ** The graph of two tours *)

Lemma dual_make_spec hypot ceil vs k :
  ∃ m1 X1 m2 X2,
    Graph.built (cost1 hypot ceil) vs Gurobi.empty
      (Utils.new None (length vs)) (Graph.pairs (length vs)) (m1, X1) ∧
    Graph.built (cost2 hypot ceil) vs m1
      (Utils.new None (length vs)) (Graph.pairs (length vs)) (m2, X2) ∧
    DualGraph.vars1 (DualGraph.make hypot ceil vs k) = X1 ∧
    DualGraph.vars2 (DualGraph.make hypot ceil vs k) = X2 ∧
    DualGraph.vertices (DualGraph.make hypot ceil vs k) = vs ∧
    Gurobi.vars (DualGraph.model (DualGraph.make hypot ceil vs k)) = Gurobi.vars m2 ∧
    Gurobi.constrs (DualGraph.model (DualGraph.make hypot ceil vs k)) =
      ((λ u, Gurobi.LinConstr (Graph.deg_2_expr (length vs) X1 u) Gurobi.GRB_EQUAL 2)
         <$> seq 0 (length vs)) ++
      ((λ u, Gurobi.LinConstr (Graph.deg_2_expr (length vs) X2 u) Gurobi.GRB_EQUAL 2)
         <$> seq 0 (length vs)) ∧
    Gurobi.qconstrs (DualGraph.model (DualGraph.make hypot ceil vs k)) =
      [DualGraph.similarity_constr (length vs) X1 X2 k].
Proof.
  unfold DualGraph.make.
  pose proof (add_vars_with_built (cost1 hypot ceil) vs Gurobi.empty) as Hb1.
  destruct (Graph.add_vars_with (cost1 hypot ceil) Gurobi.empty vs) as [m1 X1].
  pose proof (add_vars_with_built (cost2 hypot ceil) vs m1) as Hb2.
  destruct (Graph.add_vars_with (cost2 hypot ceil) m1 vs) as [m2 X2].
  exists m1, X1, m2, X2. simpl.
  pose proof Hb1 as (_ & Hc1 & Hq1 & _).
  pose proof Hb2 as (_ & Hc2 & Hq2 & _). simpl in *.
  destruct (add_constraint_deg_2_spec m2 (length vs) X1) as (Hv3 & Hc3 & Hq3).
  destruct (add_constraint_deg_2_spec
              (Graph.add_constraint_deg_2 m2 (length vs) X1) (length vs) X2)
    as (Hv4 & Hc4 & Hq4).
  split_and!; try done.
  - by rewrite Hv4, Hv3.
  - by rewrite Hc4, Hc3, Hc2, Hc1.
  - by rewrite Hq4, Hq3, Hq2, Hq1.
Qed.

Lemma value_01 σ x : Gurobi.value σ x = 0%Z ∨ Gurobi.value σ x = 1%Z.
Proof. destruct x as [h|]; simpl; [destruct (σ h)|]; auto. Qed.






(** ** C3 *)


(** ** C4 *)

(** C4.  For each tour [i] of the model built for two tours: the
    constraint of the vertex [u] is the linear equality whose left-hand
    side sums the variables [vars_i[u][v]] of all [v] other than [u] and
    whose right-hand side is 2, and there are as many linear constraints
    as tours times vertices; each pair [u < v] has a binary variable with
    bounds 0 and 1 whose objective coefficient is the cost of the pair
    for that tour; variables are not shared between pairs or between
    tours, and there are [n (n - 1) / 2] of them per tour. *)
Theorem dual_graph_degree_and_variables
    (hypot : float → float → float) (ceil : float → float)
    (vs : list vertex) (k : nat) (i : bool) :
  (∀ u, u < length vs →
     Gurobi.constrs (DualGraph.model (DualGraph.make hypot ceil vs k))
       !! ((if i then length vs else 0) + u) =
     Some (Gurobi.LinConstr
             ((λ v, Utils.at_ (DualGraph.vars_of (DualGraph.make hypot ceil vs k) i) u v)
                <$> filter (λ v, u ≠ v) (seq 0 (length vs)))
             Gurobi.GRB_EQUAL 2)) ∧
  length (Gurobi.constrs (DualGraph.model (DualGraph.make hypot ceil vs k))) =
    2 * length vs ∧
  (∀ u v, u < v < length vs →
     ∃ h info,
       Utils.at_ (DualGraph.vars_of (DualGraph.make hypot ceil vs k) i) u v = Some h ∧
       Utils.at_ (DualGraph.vars_of (DualGraph.make hypot ceil vs k) i) v u = Some h ∧
       Gurobi.vars (DualGraph.model (DualGraph.make hypot ceil vs k)) !! h = Some info ∧
       Gurobi.obj info = DualGraph.cost_of hypot ceil i (vs !!! u) (vs !!! v) ∧
       Gurobi.type info = Gurobi.GRB_BINARY ∧
       Gurobi.lb info = 0%float ∧ Gurobi.ub info = 1%float) ∧
  (∀ j u v u' v', u < v < length vs → u' < v' < length vs →
     Utils.at_ (DualGraph.vars_of (DualGraph.make hypot ceil vs k) i) u v =
     Utils.at_ (DualGraph.vars_of (DualGraph.make hypot ceil vs k) j) u' v' →
     i = j ∧ u = u' ∧ v = v') ∧
  length (Gurobi.vars (DualGraph.model (DualGraph.make hypot ceil vs k))) =
    2 * (length vs * (length vs - 1) / 2).
Proof.
  destruct (dual_make_spec hypot ceil vs k)
    as (m1 & X1 & m2 & X2 & Hb1 & Hb2 & HX1 & HX2 & _ & Hv & Hc & _).
  set (g := DualGraph.make hypot ceil vs k) in *.
  pose proof (built_count _ _ _ _ _ Hb1) as Hn1.
  pose proof (built_count _ _ _ _ _ Hb2) as Hn2. simpl in Hn1, Hn2.
  assert (Gurobi.vars m2 =
    Gurobi.vars m1 ++
    ((λ p, Graph.edge_var (cost2 hypot ceil) (vs !!! p.1) (vs !!! p.2))
       <$> Graph.pairs (length vs))) as Hvars2 by apply Hb2.
  assert (∀ j u v, u < v < length vs →
    ∃ idx, Graph.pairs (length vs) !! idx = Some (u, v) ∧
      Utils.at_ (DualGraph.vars_of g j) u v =
        Some ((if j then length vs * (length vs - 1) / 2 else 0) + idx) ∧
      Utils.at_ (DualGraph.vars_of g j) v u =
        Some ((if j then length vs * (length vs - 1) / 2 else 0) + idx) ∧
      Gurobi.vars m2 !! ((if j then length vs * (length vs - 1) / 2 else 0) + idx) =
        Some (Graph.edge_var (DualGraph.cost_of hypot ceil j) (vs !!! u) (vs !!! v)))
    as Hhandle.
  { intros j u v Huv. destruct j; simpl.
    - destruct (built_handles _ _ _ _ _ u v Hb2 Huv) as (idx & Hi & H1 & H2 & H3 & _).
      simpl in *. exists idx. rewrite HX2, <- Hn1. done.
    - destruct (built_handles _ _ _ _ _ u v Hb1 Huv) as (idx & Hi & H1 & H2 & H3 & Hlt).
      simpl in *. exists idx. rewrite HX1. split_and!; [done..|].
      rewrite Hvars2, lookup_app_l by done. done. }
  split_and!.
  - intros u Hu. rewrite Hc, <- !deg_2_expr_eq.
    destruct i; simpl.
    + rewrite lookup_app_r; rewrite length_fmap, length_seq; [|lia].
      replace (length vs + u - length vs) with u by lia.
      rewrite list_lookup_fmap, lookup_seq_lt by done. simpl. by rewrite HX2.
    + rewrite lookup_app_l by (rewrite length_fmap, length_seq; lia).
      rewrite list_lookup_fmap, lookup_seq_lt by done. simpl. by rewrite HX1.
  - rewrite Hc, length_app, !length_fmap, !length_seq. lia.
  - intros u v Huv.
    destruct (Hhandle i u v Huv) as (idx & _ & H1 & H2 & H3).
    eexists _, _. rewrite Hv. split_and!; [done|done|done|done..].
  - intros j u v u' v' Huv Huv' Heq.
    destruct (Hhandle i u v Huv) as (idx & Hi & H1 & _).
    destruct (Hhandle j u' v' Huv') as (idx' & Hi' & H1' & _).
    rewrite H1, H1' in Heq. apply (inj Some) in Heq.
    pose proof (lookup_lt_Some _ _ _ Hi) as Hlt.
    pose proof (lookup_lt_Some _ _ _ Hi') as Hlt'.
    rewrite length_pairs in Hlt, Hlt'.
    revert Heq Hlt Hlt'. generalize (length vs * (length vs - 1) / 2).
    intros N Heq Hlt Hlt'.
    assert (i = j ∧ idx = idx') as [-> ->]
      by (destruct i, j; simpl in Heq; split; first [done|lia|exfalso; lia]).
    rewrite Hi in Hi'. injection Hi' as -> ->. done.
  - rewrite Hv, Hn2, Hn1. simpl. lia.
Qed.

(** ** Result assembly: [solve], [tour], [solution] *)

Lemma foldl_push_back {A B} (f : A → B) (l : list A) (acc : list B) :
  foldl (λ acc x, acc ++ [f x]) acc l = acc ++ (f <$> l).
Proof.
  revert acc. induction l as [|x l IH]; intros acc; simpl; [by rewrite app_nil_r|].
  by rewrite IH, <- app_assoc.
Qed.

Lemma get_solutions_Some n pred sol :
  Elimination.get_solutions n pred = Some sol ↔
  (∀ i j, i < n → j < n → i ≠ j → is_Some (pred i j)) ∧
  sol = Utils.of_fun n (λ i j, default false (Elimination.entry pred i j)).
Proof.
  unfold Elimination.get_solutions. case_decide as Hall.
  - split.
    + intros [= <-]. split; [|done]. intros i j Hi Hj Hne.
      rewrite Forall_forall in Hall.
      specialize (Hall i (proj2 (elem_of_seq 0 n i) ltac:(lia))).
      rewrite Forall_forall in Hall.
      specialize (Hall j (proj2 (elem_of_seq 0 n j) ltac:(lia))).
      unfold Elimination.entry in Hall. by rewrite decide_False in Hall.
    + by intros [_ ->].
  - split; [done|]. intros [Hsome _]. destruct Hall.
    apply Forall_forall. intros i Hi%elem_of_seq.
    apply Forall_forall. intros j Hj%elem_of_seq.
    unfold Elimination.entry. case_decide; [done|].
    apply Hsome; lia.
Qed.

Lemma get_solutions_None n pred :
  Elimination.get_solutions n pred = None ↔
  ∃ i j, i < n ∧ j < n ∧ i ≠ j ∧ pred i j = None.
Proof.
  split.
  - intros Hnone.
    destruct (decide (Exists (λ i, Exists (λ j, i ≠ j ∧ pred i j = None) (seq 0 n))
                             (seq 0 n))) as [Hex|Hnex].
    + apply Exists_exists in Hex as (i & Hi%elem_of_seq & Hex).
      apply Exists_exists in Hex as (j & Hj%elem_of_seq & Hne & Hp).
      exists i, j. split_and!; [lia|lia|done|done].
    + assert (Elimination.get_solutions n pred =
        Some (Utils.of_fun n (λ i j, default false (Elimination.entry pred i j))))
        as Hsome; [|congruence].
      apply get_solutions_Some. split; [|done]. intros i j Hi Hj Hne.
      destruct (pred i j) eqn:Hp; [done|]. destruct Hnex.
      apply Exists_exists. exists i. split; [apply elem_of_seq; lia|].
      apply Exists_exists. exists j. split; [apply elem_of_seq; lia|done].
  - intros (i & j & Hi & Hj & Hne & Hp).
    destruct (Elimination.get_solutions n pred) as [sol|] eqn:Hg; [|done].
    apply get_solutions_Some in Hg as [Hsome _].
    specialize (Hsome i j Hi Hj Hne). rewrite Hp in Hsome. by destruct Hsome.
Qed.

Lemma get_solutions_at n pred sol :
  Elimination.get_solutions n pred = Some sol →
  Utils.wf sol ∧ Utils.size sol = n ∧
  (∀ i j, i < n → j < n → i ≠ j → pred i j = Some (Utils.at_ sol i j)) ∧
  (∀ i, i < n → Utils.at_ sol i i = false).
Proof.
  intros [Hsome ->]%get_solutions_Some. split_and!.
  - apply matrix_of_fun_wf.
  - done.
  - intros i j Hi Hj Hne. rewrite matrix_at_of_fun by done.
    unfold Elimination.entry. rewrite decide_False by done.
    by destruct (Hsome i j Hi Hj Hne) as [b ->].
  - intros i Hi. rewrite matrix_at_of_fun by done.
    unfold Elimination.entry. by rewrite decide_True.
Qed.

Lemma selected_Some g i j b :
  Graph.selected g i j = Some b ↔
  ∃ h, Utils.at_ (Graph.vars g) i j = Some h ∧
       b = (0.5 <? Gurobi.X (Graph.model g) h)%float.
Proof.
  unfold Graph.selected, Gurobi.get_X.
  destruct (Utils.at_ (Graph.vars g) i j) as [h|]; simpl.
  - split; [intros [= <-]; by exists h|]. by intros (h' & [= <-] & ->).
  - split; [done|]. by intros (h' & ? & _).
Qed.

Lemma selected_None g i j :
  Graph.selected g i j = None ↔ Utils.at_ (Graph.vars g) i j = None.
Proof.
  unfold Graph.selected, Gurobi.get_X.
  by destruct (Utils.at_ (Graph.vars g) i j).
Qed.

(** What [tour] and [solution] do once the snapshot [sol] is taken. *)
Lemma tour_outcome (g : Graph.graph) (sol : Utils.matrix bool) :
  Elimination.get_solutions (Graph.order g) (Graph.selected g) = Some sol →
  (∀ t, Graph.tour g =
          Err (Graph.Invalid (Graph.incomplete_tour (Graph.vertices g) t)) ↔
        t = Tour.min_sub_tour (Graph.vertices g) sol ∧
        length t < Graph.order g) ∧
  (∀ e, Graph.tour g = Err e →
        ∃ t, e = Graph.Invalid (Graph.incomplete_tour (Graph.vertices g) t)) ∧
  (¬ length (Tour.min_sub_tour (Graph.vertices g) sol) < Graph.order g →
   Graph.tour g = Ok (Tour.min_sub_tour (Graph.vertices g) sol) ∧
   length (Tour.min_sub_tour (Graph.vertices g) sol) = Graph.order g ∧
   ∃ s, Graph.solution g = Ok s ∧ length s = Graph.order g ∧
        s = (λ v, Graph.vertices g !!! v)
              <$> Tour.min_sub_tour (Graph.vertices g) sol).
Proof.
  intros Hsol.
  pose proof (min_sub_tour_bounds (Graph.vertices g) sol) as Hle.
  unfold Graph.solution, Graph.tour, Elimination.min_sub_tour, Graph.order in *.
  rewrite Hsol. simpl.
  set (min := Tour.min_sub_tour (Graph.vertices g) sol) in *.
  split_and!.
  - intros t. case_decide as Hne; split.
    + intros [= <-]. split; [done|lia].
    + intros [-> _]. done.
    + done.
    + intros [-> Hlt]. lia.
  - intros e. case_decide; [|done]. intros [= <-]. by exists min.
  - intros Hge. assert (length min = length (Graph.vertices g)) as Heq by lia.
    case_decide; [done|]. split_and!; [done|done|].
    eexists. split_and!; [done| |].
    + rewrite foldl_push_back. simpl. by rewrite length_fmap.
    + by rewrite foldl_push_back.
Qed.

Lemma solve_keeps optimize g total_time :
  Graph.vars (Graph.solve optimize g total_time).1 = Graph.vars g ∧
  Graph.vertices (Graph.solve optimize g total_time).1 = Graph.vertices g ∧
  Graph.model (Graph.solve optimize g total_time).1 = optimize (Graph.model g).
Proof. unfold Graph.solve. by case_decide. Qed.

(** Off the diagonal the variable matrix of a constructed graph holds a
    handle, the same at [(i, j)] and [(j, i)]. *)
Lemma graph_make_handles hypot ceil vs i j :
  i < length vs → j < length vs → i ≠ j →
  ∃ h, Utils.at_ (Graph.vars (Graph.make hypot ceil vs)) i j = Some h ∧
       Utils.at_ (Graph.vars (Graph.make hypot ceil vs)) j i = Some h.
Proof.
  intros Hi Hj Hne.
  destruct (graph_make_spec hypot ceil vs) as (m1 & Hb & _).
  destruct (Nat.lt_total i j) as [Hlt|[->|Hlt]]; [|done|].
  - destruct (built_handles _ _ _ _ _ i j Hb (conj Hlt Hj)) as (k & _ & H1 & H2 & _).
    simpl in *. eauto.
  - destruct (built_handles _ _ _ _ _ j i Hb (conj Hlt Hi)) as (k & _ & H1 & H2 & _).
    simpl in *. eauto.
Qed.

(** ** C8 *)

(** C8.  On the graph the constructor builds, whatever the engine does
    in [optimize]: [solve] hands the model to the engine and throws
    [zero_solutions] exactly when the solution count the engine leaves,
    a count and so never negative, is zero; otherwise it returns.  The
    snapshot [tour] then takes reads the value the engine left for the
    variable of each pair, [true] exactly when the value is above 0.5;
    no read fails, so [tour] throws nothing but [incomplete_tour], and
    throws it, carrying the extracted cycle, exactly when that cycle has
    fewer than [n] vertices; when the cycle has [n] vertices [tour]
    returns it and [solution] returns the [n] vertices at its
    positions. *)
Theorem solve_and_tour_outcome
    (hypot : float → float → float) (ceil : float → float)
    (optimize : Gurobi.GRBModel → Gurobi.GRBModel)
    (vs : list vertex) (total_time : float) :
  (0 ≤ Gurobi.SolCount
         (optimize (Graph.model (Graph.make hypot ceil vs))))%Z →
  Graph.model (Graph.solve optimize (Graph.make hypot ceil vs) total_time).1 =
    optimize (Graph.model (Graph.make hypot ceil vs)) ∧
  Graph.vertices (Graph.solve optimize (Graph.make hypot ceil vs) total_time).1 = vs ∧
  Graph.vars (Graph.solve optimize (Graph.make hypot ceil vs) total_time).1 =
    Graph.vars (Graph.make hypot ceil vs) ∧
  ((Graph.solve optimize (Graph.make hypot ceil vs) total_time).2 =
      Err (Graph.zero_solutions vs) ↔
   Gurobi.SolCount (optimize (Graph.model (Graph.make hypot ceil vs))) = 0%Z) ∧
  (Gurobi.SolCount (optimize (Graph.model (Graph.make hypot ceil vs))) ≠ 0%Z ↔
   (Graph.solve optimize (Graph.make hypot ceil vs) total_time).2 = Ok total_time) ∧
  ∃ sol : Utils.matrix bool,
    Elimination.get_solutions (length vs)
      (Graph.selected
         (Graph.solve optimize (Graph.make hypot ceil vs) total_time).1) = Some sol ∧
    Utils.wf sol ∧ Utils.size sol = length vs ∧
    (∀ i j, i < length vs → j < length vs → i ≠ j →
       ∃ h, Utils.at_ (Graph.vars (Graph.make hypot ceil vs)) i j = Some h ∧
            Utils.at_ sol i j =
              (0.5 <? Gurobi.X
                        (optimize (Graph.model (Graph.make hypot ceil vs))) h)%float) ∧
    (∀ t, Graph.tour
            (Graph.solve optimize (Graph.make hypot ceil vs) total_time).1 =
            Err (Graph.Invalid (Graph.incomplete_tour vs t)) ↔
          t = Tour.min_sub_tour vs sol ∧ length t < length vs) ∧
    (∀ e, Graph.tour
            (Graph.solve optimize (Graph.make hypot ceil vs) total_time).1 = Err e →
          ∃ t, e = Graph.Invalid (Graph.incomplete_tour vs t)) ∧
    (¬ length (Tour.min_sub_tour vs sol) < length vs →
     Graph.tour (Graph.solve optimize (Graph.make hypot ceil vs) total_time).1 =
       Ok (Tour.min_sub_tour vs sol) ∧
     length (Tour.min_sub_tour vs sol) = length vs ∧
     Graph.solution (Graph.solve optimize (Graph.make hypot ceil vs) total_time).1 =
       Ok ((λ v, vs !!! v) <$> Tour.min_sub_tour vs sol) ∧
     length ((λ v, vs !!! v) <$> Tour.min_sub_tour vs sol) = length vs).
Proof.
  intros Hcount.
  destruct (solve_keeps optimize (Graph.make hypot ceil vs) total_time)
    as (Hvars & Hverts & Hmodel).
  destruct (graph_make_spec hypot ceil vs) as (m1 & _ & Hvs & _).
  rewrite Hvs in Hverts.
  set (g := Graph.make hypot ceil vs) in *.
  set (g' := (Graph.solve optimize g total_time).1) in *.
  assert ((Graph.solve optimize g total_time).2 =
          if decide (Gurobi.SolCount (optimize (Graph.model g)) ≤ 0)%Z
          then Err (Graph.zero_solutions vs) else Ok total_time) as Hres.
  { unfold Graph.solve, Graph.solution_count. simpl. rewrite Hvs.
    by case_decide. }
  split_and!; [done|done|done| | |].
  - rewrite Hres. case_decide; split; [lia|done|done|lia].
  - rewrite Hres. case_decide; split; [lia|done|done|lia].
  - destruct (Elimination.get_solutions (length vs) (Graph.selected g'))
      as [sol|] eqn:Hsol.
    + exists sol.
      destruct (get_solutions_at _ _ _ Hsol) as (Hwf & Hsz & Hat & _).
      assert (Graph.order g' = length vs) as Hord
        by (unfold Graph.order; by rewrite Hverts).
      rewrite <- Hord in Hsol.
      destruct (tour_outcome g' sol Hsol) as (Herr & Honly & Hok).
      unfold Graph.order in Herr, Hok.
      rewrite !Hverts in Herr. rewrite !Hverts in Honly. rewrite !Hverts in Hok.
      split_and!; [done|done|done| |done|done|].
      * intros i j Hi Hj Hne.
        specialize (Hat i j Hi Hj Hne).
        apply selected_Some in Hat as (h & Hh & Hb).
        rewrite Hvars in Hh. rewrite Hmodel in Hb. by exists h.
      * intros Hge. destruct (Hok Hge) as (Ht & Hlen & s & Hs & Hls & ->).
        split_and!; [done|done|done|]. by rewrite length_fmap.
    + exfalso. apply get_solutions_None in Hsol as (i & j & Hi & Hj & Hne & Hp).
      apply selected_None in Hp. rewrite Hvars in Hp.
      destruct (graph_make_handles hypot ceil vs i j Hi Hj Hne) as (h & Hh & _).
      unfold g in Hp. congruence.
Qed.

(** ** Reading vertices: [vertex::read] *)

Section ReadFacts.
Variable extract_double : string → option (float * string).
Variable files : string → option (list string).

Lemma copy_id v : Vertex.copy v = v.
Proof. by destruct v. Qed.

Lemma extract_vertex_id line v v' :
  Vertex.extract_vertex extract_double line v = Some v' → id v' = id v.
Proof.
  unfold Vertex.extract_vertex. intros H.
  repeat (apply bind_Some in H as ([? ?] & _ & H)). by injection H as <-.
Qed.

Lemma read_lines_Ok filename lines acc vs :
  Vertex.read_lines extract_double filename lines acc = Ok vs ↔
  ∃ new, vs = acc ++ new ∧
    Forall2 (λ line v,
      Vertex.extract_vertex extract_double line vertex_default = Some v)
      lines new.
Proof.
  revert acc. induction lines as [|line lines IH]; intros acc; simpl.
  - split.
    + intros [= <-]. exists []. by rewrite app_nil_r.
    + intros (new & -> & Hf). apply Forall2_nil_inv_l in Hf as ->.
      by rewrite app_nil_r.
  - destruct (Vertex.extract_vertex _ line _) as [v|] eqn:Hv.
    + rewrite IH, copy_id. split.
      * intros (new & -> & Hf). exists (v :: new).
        rewrite <- app_assoc. split; [done|]. by constructor.
      * intros (new & -> & Hf).
        apply Forall2_cons_inv_l in Hf as (v' & new' & Hv' & Hf & ->).
        exists new'. rewrite <- app_assoc. split; [|done].
        rewrite Hv in Hv'. by injection Hv' as ->.
    + split; [done|]. intros (new & _ & Hf).
      apply Forall2_cons_inv_l in Hf as (v' & new' & Hv' & _).
      by rewrite Hv in Hv'.
Qed.

Lemma read_lines_Err filename lines acc e :
  Vertex.read_lines extract_double filename lines acc = Err e ↔
  e = contains_invalid_data filename ∧
  Exists (λ line, Vertex.extract_vertex extract_double line vertex_default = None) lines.
Proof.
  revert acc. induction lines as [|line lines IH]; intros acc; simpl.
  - split; [done|]. intros [_ H]. by apply Exists_nil in H.
  - destruct (Vertex.extract_vertex _ line _) as [v|] eqn:Hv.
    + rewrite IH, Exists_cons. split; [intros [? ?]; by auto|].
      intros [? [?|?]]; [congruence|done].
    + split.
      * intros [= <-]. split; [done|]. by left.
      * intros [-> _]. done.
Qed.

(** An empty or missing source is refused as such. *)
Lemma read_no_line filename :
  default [] (files filename) = [] →
  Vertex.read extract_double files filename = Err (is_empty_or_missing filename).
Proof. unfold Vertex.read. by intros ->. Qed.

(** A line that does not parse makes the whole call fail. *)
Lemma read_malformed filename :
  Exists (λ line, Vertex.extract_vertex extract_double line vertex_default = None)
         (default [] (files filename)) →
  Vertex.read extract_double files filename = Err (contains_invalid_data filename).
Proof.
  intros Hex. unfold Vertex.read.
  destruct (Vertex.read_lines _ _ _ _) as [vs|e] eqn:Hr.
  - apply read_lines_Ok in Hr as (new & _ & Hf).
    exfalso. induction Hf as [|line v lines new Hp Hf IH].
    + by apply Exists_nil in Hex.
    + apply Exists_cons in Hex as [Hn|Hex]; [congruence|by apply IH].
  - apply read_lines_Err in Hr as [-> _]. done.
Qed.

(** All or nothing: the call fails, or it returns one vertex per line of
    the source, in order, and there is at least one. *)
Lemma read_all_or_nothing filename :
  Vertex.read extract_double files filename = Err (is_empty_or_missing filename) ∨
  Vertex.read extract_double files filename = Err (contains_invalid_data filename) ∨
  ∃ vs, Vertex.read extract_double files filename = Ok vs ∧ vs ≠ [] ∧
        Forall2 (λ line v,
          Vertex.extract_vertex extract_double line vertex_default = Some v)
          (default [] (files filename)) vs.
Proof.
  unfold Vertex.read.
  destruct (Vertex.read_lines _ _ _ _) as [vs|e] eqn:Hr.
  - apply read_lines_Ok in Hr as (new & -> & Hf). simpl.
    case_decide as Hlen; [by left|]. right. right.
    exists new. split_and!; [done| |done]. intros ->. simpl in Hlen. lia.
  - apply read_lines_Err in Hr as [-> _]. right. by left.
Qed.

(** Every vertex [read] returns carries the id of the default
    constructor. *)
Lemma read_ids filename vs :
  Vertex.read extract_double files filename = Ok vs →
  Forall (λ v, id v = SIZE_MAX) vs.
Proof.
  intros Hr.
  destruct (read_all_or_nothing filename) as [H|[H|(vs' & H & _ & Hf)]];
    rewrite Hr in H; try done.
  injection H as <-. clear Hr.
  induction Hf as [|line v lines new Hp Hf IH]; constructor; [|done].
  by apply extract_vertex_id in Hp.
Qed.

End ReadFacts.

(** ** C7 *)

(** C7.  On a source of two well-formed records [read] returns two
    vertices that both carry the id [SIZE_MAX] of the default
    constructor, so that [operator==] takes them for the same vertex;
    the public constructor, fed the same coordinates, numbers them 1
    and 2.  The other parts of the claim hold: [read_no_line],
    [read_malformed], [read_all_or_nothing]. *)
Theorem read_gives_every_vertex_the_same_id :
  Vertex.read Examples.toy_extract Examples.toy_files "two.txt" =
    Ok [with_id SIZE_MAX 0 0 0 0; with_id SIZE_MAX 1 1 1 1] ∧
  Vertex.eqb (with_id SIZE_MAX 0 0 0 0) (with_id SIZE_MAX 1 1 1 1) = true ∧
  (Vertex.vertex_new 1 0 0 0 0).1 = with_id 1 0 0 0 0 ∧
  (Vertex.vertex_new (Vertex.vertex_new 1 0 0 0 0).2 1 1 1 1).1 = with_id 2 1 1 1 1 ∧
  Vertex.eqb (with_id 1 0 0 0 0) (with_id 2 1 1 1 1) = false.
Proof. vm_compute. done. Qed.


(** ** The counters at their C++ types *)

Lemma machine_scan_agrees p n todo from fuel :
  from + todo = n → (N.of_nat n < 2 ^ 32)%N → todo < fuel →
  Machine.scan fuel p (N.of_nat n) (N.of_nat from) = Some (scan p from todo).
Proof.
  revert from fuel. induction todo as [|todo IH]; intros from fuel Hn Hb Hf.
  - destruct fuel as [|fuel]; [lia|]. simpl.
    replace from with n by lia. by rewrite N.ltb_irrefl.
  - destruct fuel as [|fuel]; [lia|]. simpl.
    rewrite (proj2 (N.ltb_lt _ _)) by lia.
    rewrite Nat2N.id. destruct (p from); [done|].
    assert (Machine.to_unsigned (N.of_nat from + 1) = N.of_nat (S from)) as ->.
    { unfold Machine.to_unsigned. rewrite N.mod_small by lia. lia. }
    apply IH; lia.
Qed.

Lemma machine_new_node_agrees fuel it :
  (Machine.count it < 2 ^ 32)%N → count it < fuel →
  Machine.new_node fuel it = Some (new_node it).
Proof.
  intros Hb Hf. unfold Machine.new_node, new_node, Machine.count in *.
  by apply (machine_scan_agrees _ (count it) (count it) 0).
Qed.

Lemma machine_best_next_agrees fuel it u :
  (Machine.count it < 2 ^ 32)%N → count it < fuel →
  Machine.best_next fuel it u = Some (best_next it u).
Proof.
  intros Hb Hf. unfold Machine.best_next, best_next, Machine.count in *.
  by apply (machine_scan_agrees _ (count it) (count it) 0).
Qed.

Lemma machine_walk_agrees fuel len it node acc :
  (Machine.count it < 2 ^ 32)%N → count it < fuel →
  Machine.walk fuel len it node acc = Some (walk len it node acc).
Proof.
  revert it node acc. induction len as [|len IH]; intros it node acc Hb Hf.
  - done.
  - simpl. rewrite machine_best_next_agrees by done.
    destruct (best_next _ node) as [next|]; [|done].
    by apply IH.
Qed.

Lemma machine_next_tour_agrees fuel it :
  (Machine.count it < 2 ^ 32)%N → count it < fuel →
  Machine.next_tour fuel it = Some (next_tour it).
Proof.
  intros Hb Hf. unfold Machine.next_tour, next_tour.
  rewrite machine_new_node_agrees by done.
  destruct (new_node it) as [node|]; [|done].
  unfold Machine.next_tour_from, next_tour_from.
  assert (N.to_nat (Machine.to_unsigned (Machine.count it)) = count it) as ->.
  { unfold Machine.to_unsigned. rewrite N.mod_small by done.
    unfold Machine.count, count. by rewrite Nat2N.id. }
  by rewrite machine_walk_agrees.
Qed.

Lemma next_tour_count it t it' :
  ready it → next_tour it = Some (t, it') →
  ready it' ∧ count it' = count it ∧ Machine.count it' = Machine.count it ∧
  unseen (seen it') < unseen (seen it).
Proof.
  intros Hr Hn. destruct (next_tour_unseen it t it' Hr Hn) as [Hr' Hlt].
  destruct (next_tour_Some it t it' Hr Hn) as (_ & _ & _ & _ & _ & _ & Hm & _).
  destruct Hm as (Hv & _). unfold count, Machine.count. by rewrite Hv.
Qed.

Lemma machine_min_loop_agrees fuel inner it m :
  ready it → (Machine.count it < 2 ^ 32)%N → count it < inner →
  Machine.min_loop fuel inner it m = min_loop fuel it m.
Proof.
  revert it m. induction fuel as [|fuel IH]; intros it m Hr Hb Hf; [done|].
  simpl. rewrite machine_next_tour_agrees by done.
  destruct (next_tour it) as [[t it']|] eqn:Hn; [|done].
  destruct (next_tour_count it t it' Hr Hn) as (Hr' & Hc & Hmc & _).
  apply IH; [done|by rewrite Hmc|by rewrite Hc].
Qed.

Lemma machine_min_sub_tour_agrees fuel vs sol :
  (N.of_nat (length vs) < 2 ^ 32)%N → length vs < fuel →
  Machine.min_sub_tour_fuel fuel vs sol = Some (min_sub_tour vs sol).
Proof.
  intros Hb Hf.
  assert (min_sub_tour_fuel fuel vs sol = Some (min_sub_tour vs sol)) as <-.
  { by rewrite min_sub_tour_fuel_tours, min_sub_tour_tours by lia. }
  unfold Machine.min_sub_tour_fuel, min_sub_tour_fuel.
  rewrite machine_next_tour_agrees by done.
  destruct (next_tour (init vs sol)) as [[first it']|] eqn:Hn; [|done].
  destruct (next_tour_count _ _ _ (init_ready vs sol) Hn) as (Hr' & Hc & Hmc & _).
  apply machine_min_loop_agrees; [done| |].
  - by rewrite Hmc.
  - by rewrite Hc.
Qed.

Lemma machine_drain_agrees fuel inner it :
  ready it → (Machine.count it < 2 ^ 32)%N → count it < inner →
  unseen (seen it) < fuel →
  Machine.drain fuel inner it = Some (tours_from fuel it).
Proof.
  revert it. induction fuel as [|fuel IH]; intros it Hr Hb Hf Hu; [lia|].
  simpl. rewrite machine_next_tour_agrees by done.
  destruct (next_tour it) as [[t it']|] eqn:Hn; [|done].
  destruct (next_tour_count it t it' Hr Hn) as (Hr' & Hc & Hmc & Hlt).
  rewrite IH; [done|done|by rewrite Hmc|by rewrite Hc|lia].
Qed.

Lemma machine_all_tours vs sol :
  (N.of_nat (length vs) < 2 ^ 32)%N →
  Machine.drain (S (length vs)) (S (length vs)) (init vs sol) =
    Some (all_tours vs sol).
Proof.
  intros Hb.
  assert (unseen (seen (init vs sol)) = length vs) as Hu by apply unseen_replicate.
  rewrite machine_drain_agrees; [|apply init_ready|done|unfold count; simpl; lia|lia].
  f_equal. unfold all_tours.
  apply tours_from_stable; [apply init_ready|lia|lia].
Qed.

Lemma machine_walk_length fuel len it node acc t it' :
  Machine.walk fuel len it node acc = Some (t, it') →
  length t ≤ length acc + len.
Proof.
  revert it node acc. induction len as [|len IH]; intros it node acc; simpl.
  - intros [= <- <-]. lia.
  - destruct (Machine.best_next _ _ node) as [[next|]|]; [| |done].
    + intros Hw. apply IH in Hw. rewrite length_app in Hw. simpl in Hw. lia.
    + intros [= <- <-]. rewrite length_app. simpl. lia.
Qed.

(** With [2^32] vertices [unsigned len] is 0: the walk does nothing,
    the tour is empty and no position is marked. *)
Lemma machine_next_tour_wraps fuel vs sol :
  N.of_nat (length vs) = (2 ^ 32)%N →
  Machine.next_tour (S fuel) (init vs sol) = Some (Some ([], init vs sol)).
Proof.
  intros Hn.
  assert (Machine.count (init vs sol) = (2 ^ 32)%N) as Hc by done.
  assert (seen (init vs sol) !!! 0 = false) as Hs.
  { unfold init. simpl. apply lookup_total_replicate_2. lia. }
  assert (Machine.new_node (S fuel) (init vs sol) = Some (Some 0)) as Hnew.
  { unfold Machine.new_node. rewrite Hc. cbn [Machine.scan].
    change (0 <? 2 ^ 32)%N with true. cbv iota.
    change (N.to_nat 0) with 0. by rewrite Hs. }
  assert (Machine.next_tour_from (S fuel) (init vs sol) 0 =
          Some ([], init vs sol)) as Hfrom.
  { unfold Machine.next_tour_from. rewrite Hc.
    by change (N.to_nat (Machine.to_unsigned (2 ^ 32))) with 0. }
  unfold Machine.next_tour. by rewrite Hnew, Hfrom.
Qed.

Lemma machine_min_loop_wraps fuel inner vs sol :
  N.of_nat (length vs) = (2 ^ 32)%N →
  Machine.min_loop fuel inner (init vs sol) [] = None.
Proof.
  intros Hn. induction fuel as [|fuel IH]; [done|].
  simpl. destruct inner as [|inner]; [done|].
  rewrite machine_next_tour_wraps by done. simpl. apply IH.
Qed.

Lemma machine_diverges fuel vs sol :
  N.of_nat (length vs) = (2 ^ 32)%N →
  Machine.min_sub_tour_fuel fuel vs sol = None.
Proof.
  intros Hn. unfold Machine.min_sub_tour_fuel.
  destruct fuel as [|fuel]; [done|].
  rewrite machine_next_tour_wraps by done.
  by apply machine_min_loop_wraps.
Qed.

(** ** C5 *)

(** C5.  On fewer than [2^32] vertices [tour::min_sub_tour], with its
    counters at their C++ types, terminates on every boolean matrix,
    whatever the number of [true] entries of its rows: once every loop
    is allowed more than [vertices.size()] evaluations of its condition
    it returns, and more fuel does not change the result; the iterator
    is exhausted after at most [n] tours; a walk of [len] iterations
    adds at most [len] vertices, so each tour has at most [n] of them; a
    walk stops at the first vertex without an unseen adjacent neighbour;
    the iterator yields nothing exactly when every vertex has been
    seen. *)
Theorem min_sub_tour_terminates (vs : list vertex) (sol : Utils.matrix bool) :
  (N.of_nat (length vs) < 2 ^ 32)%N →
  (∀ fuel, length vs < fuel →
     Machine.min_sub_tour_fuel fuel vs sol = Some (min_sub_tour vs sol)) ∧
  Machine.drain (S (length vs)) (S (length vs)) (init vs sol) =
    Some (all_tours vs sol) ∧
  (∀ t, t ∈ all_tours vs sol → length t ≤ length vs) ∧
  (∀ fuel len it node acc t it',
     Machine.walk fuel len it node acc = Some (t, it') →
     length t ≤ length acc + len) ∧
  (∀ fuel len it node acc,
     Machine.best_next fuel (set_seen it (<[node := true]> (seen it))) node
       = Some None →
     Machine.walk fuel (S len) it node acc =
       Some (acc ++ [node], set_seen it (<[node := true]> (seen it)))) ∧
  (∀ fuel it, ready it → (Machine.count it < 2 ^ 32)%N → count it < fuel →
     (Machine.next_tour fuel it = Some None ↔
      ∀ v, v < count it → seen it !!! v = true)).
Proof.
  intros Hb. split_and!.
  - intros fuel Hfuel. by apply machine_min_sub_tour_agrees.
  - by apply machine_all_tours.
  - intros t Hin.
    destruct (tours_from_each _ _ _ (init_ready vs sol) Hin)
      as (? & ? & _ & _ & _ & Hl).
    done.
  - intros fuel len it node acc t it'. apply machine_walk_length.
  - intros fuel len it node acc Hnext. simpl. by rewrite Hnext.
  - intros fuel it Hr Hc Hf. rewrite machine_next_tour_agrees by done.
    assert (next_tour it = None ↔ ∀ v, v < count it → seen it !!! v = true)
      as <-.
    { rewrite next_tour_None, unseen_zero by done.
      unfold ready in Hr. by rewrite Hr. }
    split; [by intros [= ->]|by intros ->].
Qed.

(** ** The cost functions on binary64 numbers *)










(** ** C9 *)

(** ** Instances *)

Lemma min_sub_tour_hamiltonian_witness :
  hamiltonian 4 Examples.c4 ∧ encodes 4 Examples.sol4 [Examples.c4] ∧
  min_sub_tour Examples.square Examples.sol4 = [0; 2; 1; 3].
Proof.
  assert (hamiltonian 4 Examples.c4) as Hham.
  { unfold hamiltonian, Examples.c4. simpl. solve_Permutation. }
  pose proof (encodes_matrix_of 4 [Examples.c4]) as Henc.
  split_and!; [done|done|].
  apply (min_sub_tour_hamiltonian Examples.square Examples.sol4 Examples.c4 Hham Henc).
Defined.

Lemma min_sub_tour_shortest_witness :
  3 ≤ length Examples.tri1 ∧ 3 ≤ length Examples.tri2 ∧
  Examples.tri1 ++ Examples.tri2 ≡ₚ seq 0 6 ∧
  encodes 6 Examples.sol6 [Examples.tri1; Examples.tri2] ∧
  length (min_sub_tour Examples.six Examples.sol6) = 3.
Proof.
  assert (Examples.tri1 ++ Examples.tri2 ≡ₚ seq 0 6) as Hperm.
  { unfold Examples.tri1, Examples.tri2. simpl. solve_Permutation. }
  pose proof (encodes_matrix_of 6 [Examples.tri1; Examples.tri2]) as Henc.
  split_and!; [simpl; lia|simpl; lia|done|done|].
  apply (proj2 (proj2 (proj2 (min_sub_tour_shortest Examples.six Examples.sol6)))
           Examples.tri1 Examples.tri2); [simpl; lia|simpl; lia|done|done].
Defined.

Lemma min_sub_tour_terminates_witness :
  (N.of_nat (length Examples.square) < 2 ^ 32)%N ∧
  Machine.min_sub_tour_fuel 7 Examples.square Examples.ragged = Some [0].
Proof.
  assert (N.of_nat (length Examples.square) < 2 ^ 32)%N as Hb by done.
  split; [done|].
  apply (proj1 (min_sub_tour_terminates Examples.square Examples.ragged Hb) 7).
  simpl. lia.
Defined.

Lemma min_sub_tour_runs_for_ever :
  N.of_nat (length MoreExamples.huge) = (2 ^ 32)%N ∧
  ∀ sol fuel, Machine.min_sub_tour_fuel fuel MoreExamples.huge sol = None.
Proof.
  assert (N.of_nat (length MoreExamples.huge) = (2 ^ 32)%N) as Hn.
  { unfold MoreExamples.huge. rewrite length_replicate. apply N2Nat.id. }
  split; [done|]. intros sol fuel. by apply machine_diverges.
Qed.



Lemma solve_and_tour_outcome_witness :
  (0 ≤ Gurobi.SolCount
         (Examples.toy_optimize
            (Graph.model
               (Graph.make Examples.toy_hypot Examples.toy_ceil Examples.square))))%Z ∧
  (Graph.solve Examples.toy_optimize
     (Graph.make Examples.toy_hypot Examples.toy_ceil Examples.square) 0).2 =
    Ok 0%float.
Proof.
  assert (0 ≤ Gurobi.SolCount
         (Examples.toy_optimize
            (Graph.model
               (Graph.make Examples.toy_hypot Examples.toy_ceil Examples.square))))%Z
    as Hc by (vm_compute; discriminate).
  split; [done|].
  apply (solve_and_tour_outcome Examples.toy_hypot Examples.toy_ceil
           Examples.toy_optimize Examples.square 0 Hc).
  vm_compute. discriminate.
Defined.

(** ** Evaluations *)

Example all_tours_ragged :
  all_tours Examples.square Examples.ragged = [[0]; [1; 2; 3]].
Proof. by vm_compute. Qed.

Example min_sub_tour_ragged :
  min_sub_tour Examples.square Examples.ragged = [0].
Proof. by vm_compute. Qed.

Example min_sub_tour_two_triangles :
  all_tours Examples.six Examples.sol6 = [[0; 2; 4]; [1; 3; 5]] ∧
  min_sub_tour Examples.six Examples.sol6 = [0; 2; 4].
Proof. by vm_compute. Qed.

Example min_sub_tour_complete_graph :
  min_sub_tour Examples.square (Utils.of_fun 4 (λ _ _, true)) = [0; 1; 2; 3].
Proof. by vm_compute. Qed.

Example read_blank_line :
  Vertex.read Examples.toy_extract Examples.toy_files "blank.txt" =
    Err (contains_invalid_data "blank.txt").
Proof. by vm_compute. Qed.

Example read_empty_file :
  Vertex.read Examples.toy_extract Examples.toy_files "empty.txt" =
    Err (is_empty_or_missing "empty.txt").
Proof. by vm_compute. Qed.

Example read_missing_file :
  Vertex.read Examples.toy_extract Examples.toy_files "missing.txt" =
    Err (is_empty_or_missing "missing.txt").
Proof. by vm_compute. Qed.

Example tour_of_square :
  Graph.tour
    (Graph.solve Examples.toy_optimize
       (Graph.make Examples.toy_hypot Examples.toy_ceil Examples.square) 0).1 =
    Ok [0; 1; 2; 3].
Proof. by vm_compute. Qed.

Example tour_of_split_square :
  Graph.tour
    (Graph.solve Examples.split_optimize
       (Graph.make Examples.toy_hypot Examples.toy_ceil Examples.square) 0).1 =
    Err (Graph.Invalid (Graph.incomplete_tour Examples.square [0; 1])).
Proof. by vm_compute. Qed.

Example solve_without_solution :
  (Graph.solve (λ m, m)
     (Graph.make Examples.toy_hypot Examples.toy_ceil Examples.square) 0).2 =
    Err (Graph.zero_solutions Examples.square).
Proof. by vm_compute. Qed.

Example shared_of_toy_candidate :
  DualGraph.shared
    (DualGraph.make Examples.toy_hypot Examples.toy_ceil Examples.square 2)
    Examples.toy_candidate = 2.
Proof. by vm_compute. Qed.

Example similarity_of_toy_candidate :
  Forall (λ q, Gurobi.holds_quad Examples.toy_candidate q = true)
    (Gurobi.qconstrs (DualGraph.model
       (DualGraph.make Examples.toy_hypot Examples.toy_ceil Examples.square 2))) ∧
  Forall (λ q, Gurobi.holds_quad Examples.toy_candidate q = false)
    (Gurobi.qconstrs (DualGraph.model
       (DualGraph.make Examples.toy_hypot Examples.toy_ceil Examples.square 3))).
Proof. split; vm_compute; repeat constructor. Qed.

Example degree_of_toy_candidate :
  Forall (λ c, Gurobi.holds_lin Examples.toy_candidate c = true)
    (Gurobi.constrs (DualGraph.model
       (DualGraph.make Examples.toy_hypot Examples.toy_ceil Examples.square 2))).
Proof. vm_compute. repeat constructor. Qed.

(* ================================================================= *)
(** * Further properties *)
(* ================================================================= *)

(** ** The path of a walk *)

Lemma NoDup_full (l : list nat) n :
  NoDup l → (∀ x, x ∈ l → x < n) → n ≤ length l → l ≡ₚ seq 0 n.
Proof.
  intros Hnd Hlt Hlen. apply submseteq_length_Permutation.
  - apply NoDup_submseteq; [done|]. intros x Hx. apply elem_of_seq.
    specialize (Hlt x Hx). lia.
  - by rewrite length_seq.
Qed.

Lemma elem_of_concat {A} (x : A) (ls : list (list A)) :
  x ∈ concat ls ↔ ∃ l, x ∈ l ∧ l ∈ ls.
Proof.
  induction ls as [|l ls IH]; simpl.
  - split; [by intros ?%elem_of_nil|]. intros (l & _ & ?%elem_of_nil). done.
  - rewrite elem_of_app, IH. split.
    + intros [?|(l' & ? & ?)]; [exists l; split; [done|left]|].
      exists l'. split; [done|by right].
    + intros (l' & Hx & [->|?]%elem_of_cons); [by left|right; by exists l'].
Qed.

Lemma chain_cons sol u v l :
  Utils.at_ sol u v = true → More.chain sol (v :: l) → More.chain sol (u :: v :: l).
Proof.
  intros Huv Hc [|i] a b; simpl.
  - by intros [= <-] [= <-].
  - apply Hc.
Qed.

Lemma chain_single sol u : More.chain sol [u].
Proof. intros [|i] a b; simpl; [done|]. by destruct i. Qed.

Lemma walk_path len it node acc :
  ready it → node < count it → seen it !!! node = false →
  ∃ new,
    (walk (S len) it node acc).1 = acc ++ node :: new ∧
    marks it (node :: new) (walk (S len) it node acc).2 ∧
    More.chain (solution it) (node :: new) ∧
    (length new = len ∨
     ∀ u, last (node :: new) = Some u → ∀ v, v < count it →
       Utils.at_ (solution it) u v = true →
       seen (walk (S len) it node acc).2 !!! v = true).
Proof.
  revert it node acc. induction len as [|len IH]; intros it node acc Hr Hn Hs.
  - exists []. rewrite walk_S; simpl.
    pose proof (marks_single it node ltac:(unfold ready in Hr; lia) Hn Hs) as Hm.
    destruct (best_next _ node); simpl;
      (split_and!; [done|done|apply chain_single|by left]).
  - rewrite walk_S. cbv zeta.
    pose proof (marks_single it node ltac:(unfold ready in Hr; lia) Hn Hs) as Hm.
    set (it1 := set_seen it (<[node:=true]> (seen it))) in *.
    destruct (best_next it1 node) as [next|] eqn:Hb.
    + apply best_next_Some in Hb as (Hnn & Hadj & Hsn & _).
      destruct (IH it1 next (acc ++ [node])) as (new & Ht & Hm' & Hc & Hend).
      { by eapply marks_ready. }
      { done. }
      { done. }
      exists (next :: new). split_and!.
      * rewrite Ht. by rewrite <- app_assoc.
      * apply (marks_app _ _ _ [node] (next :: new) Hm Hm').
      * by apply chain_cons.
      * destruct Hend as [Hl|Hend]; [left; simpl; lia|right].
        intros u Hu. rewrite last_cons_cons in Hu. by apply Hend.
    + exists []. simpl. split_and!; [done|done|apply chain_single|right].
      intros u [= <-] v Hv Hav.
      by apply (proj1 (best_next_None it1 node) Hb v Hv).
Qed.

Lemma next_tour_path it t it' :
  ready it → next_tour it = Some (t, it') →
  More.chain (solution it) t ∧
  ∀ u, last t = Some u → ∀ v, v < count it →
    Utils.at_ (solution it) u v = true → seen it' !!! v = true.
Proof.
  intros Hr. unfold next_tour, next_tour_from.
  destruct (new_node it) as [node|] eqn:Hnode; [|done].
  intros [= Hw]. apply new_node_Some in Hnode as (Hn & Hs & _).
  destruct (count it) as [|len] eqn:Hc; [lia|].
  destruct (walk_path len it node [] Hr ltac:(lia) Hs) as (new & Ht & Hm & Hch & Hend).
  rewrite Hw in Ht, Hm, Hend. simpl in *. subst t. split; [done|].
  destruct Hend as [Hlen|Hend]; [|by rewrite Hc in Hend].
  intros u _ v Hv _.
  destruct Hm as (_ & _ & _ & Hnd & Hin & Hseen & _).
  apply Hseen. right.
  assert (node :: new ≡ₚ seq 0 (S len)) as Hp.
  { apply NoDup_full; [done| |simpl; lia].
    intros x Hx. destruct (Hin x Hx). lia. }
  rewrite Hp. apply elem_of_seq. lia.
Qed.


Lemma all_tours_partition vs sol :
  concat (all_tours vs sol) ≡ₚ seq 0 (length vs).
Proof.
  destruct (tours_from_exhausts (length vs) (init vs sol)) as (it' & Hr' & Hn & Hm).
  { apply init_ready. }
  { unfold init; simpl. by rewrite unseen_replicate. }
  fold (all_tours vs sol) in Hm.
  destruct Hm as (Hv & _ & Hlen & Hnd & Hin & Hseen & _).
  apply NoDup_Permutation; [done|apply NoDup_seq|].
  intros x. rewrite elem_of_seq. split.
  - intros Hx. destruct (Hin x Hx) as [Hlt _]. unfold count, init in Hlt. simpl in Hlt. lia.
  - intros [_ Hx]. simpl in Hx.
    apply next_tour_None in Hn; [|done].
    rewrite unseen_zero in Hn.
    assert (seen it' !!! x = true) as Hs.
    { apply Hn. rewrite Hlen. unfold init; simpl. by rewrite length_replicate. }
    apply Hseen in Hs as [Hs|?]; [|done].
    unfold init in Hs; simpl in Hs.
    rewrite lookup_total_replicate_2 in Hs by done. done.
Qed.

Lemma all_tours_nonempty vs sol t : t ∈ all_tours vs sol → t ≠ [].
Proof.
  intros Hin.
  destruct (tours_from_each _ _ _ (init_ready vs sol) Hin) as (node & new & -> & _).
  done.
Qed.

(** ** Matrices of degree two *)

Section TwoRegular.
Variables (n : nat) (sol : Utils.matrix bool).
Hypothesis Hreg : More.two_regular n sol.

Lemma two_regular_sym u v :
  u < n → v < n → Utils.at_ sol u v = true → Utils.at_ sol v u = true.
Proof. intros Hu Hv H. destruct Hreg as (Hsym & _). by rewrite <- Hsym. Qed.

Lemma two_regular_irrefl u v :
  u < n → Utils.at_ sol u v = true → u ≠ v.
Proof.
  intros Hu H ->. destruct Hreg as (_ & Hirr & _).
  rewrite Hirr in H by done. done.
Qed.

(** Two distinct neighbours of a vertex are all its neighbours. *)
Lemma two_regular_only u x y v :
  u < n → x < n → y < n → v < n → x ≠ y →
  Utils.at_ sol u x = true → Utils.at_ sol u y = true →
  Utils.at_ sol u v = true → v = x ∨ v = y.
Proof.
  intros Hu Hx Hy Hv Hxy Hax Hay Hav.
  destruct Hreg as (_ & _ & Hdeg).
  destruct (Hdeg u Hu) as (a & b & _ & _ & _ & Hab).
  apply Hab in Hax, Hay, Hav; try done.
  destruct Hax, Hay, Hav; subst; auto; done.
Qed.

(** A vertex has two distinct neighbours. *)
Lemma two_regular_two u :
  u < n → ∃ a b, a < n ∧ b < n ∧ a ≠ b ∧
    Utils.at_ sol u a = true ∧ Utils.at_ sol u b = true.
Proof.
  intros Hu. destruct Hreg as (_ & _ & Hdeg).
  destruct (Hdeg u Hu) as (a & b & Ha & Hb & Hne & Hab).
  exists a, b. split_and!; try done; apply Hab; auto.
Qed.

(** In a closed chain of at least three distinct vertices, the rows of
    its vertices are its edges. *)
Lemma closed_chain_rows t u v :
  NoDup t → 3 ≤ length t → (∀ x, x ∈ t → x < n) →
  More.closed_chain sol t →
  u ∈ t → v < n → (Utils.at_ sol u v = true ↔ adj t u v).
Proof.
  intros Hnd Hlen Hlt Hcl Hu Hv. split.
  - intros Hav. apply list_elem_of_lookup_1 in Hu as (i & Hi).
    pose proof (lookup_lt_Some _ _ _ Hi) as Hilt.
    (* the successor *)
    destruct (lookup_lt_is_Some_2 t (nxt (length t) i)) as [x Hx];
      [by apply nxt_lt|].
    (* the predecessor *)
    set (j := if decide (i = 0) then length t - 1 else i - 1).
    assert (nxt (length t) j = i) as Hj
      by (unfold nxt, j; repeat case_decide; lia).
    destruct (lookup_lt_is_Some_2 t j) as [y Hy];
      [unfold j; case_decide; lia|].
    assert (u < n) as Hun by (apply Hlt; by eapply list_elem_of_lookup_2).
    assert (x < n) as Hxn by (apply Hlt; by eapply list_elem_of_lookup_2).
    assert (y < n) as Hyn by (apply Hlt; by eapply list_elem_of_lookup_2).
    assert (Utils.at_ sol u x = true) as Hux by (by eapply Hcl).
    assert (Utils.at_ sol u y = true) as Huy.
    { apply two_regular_sym; [done..|]. eapply (Hcl j); [done|by rewrite Hj]. }
    assert (x ≠ y) as Hxy.
    { intros ->. pose proof (NoDup_lookup _ _ _ _ Hnd Hx Hy) as Heq.
      unfold nxt, j in Heq. repeat case_decide; lia. }
    destruct (two_regular_only u x y v Hun Hxn Hyn Hv Hxy Hux Huy Hav) as [->| ->];
      apply adj_iff.
    + exists i. by left.
    + exists j. right. by rewrite Hj.
  - rewrite adj_iff. intros (i & [[H1 H2]|[H1 H2]]).
    + by eapply Hcl.
    + apply two_regular_sym; [by apply Hlt; eapply list_elem_of_lookup_2|
        by apply Hlt; eapply list_elem_of_lookup_2|]. by eapply Hcl.
Qed.

Lemma next_tour_two_regular it t it' :
  ready it → count it = n → solution it = sol → More.closed_seen n sol (seen it) →
  next_tour it = Some (t, it') →
  3 ≤ length t ∧ NoDup t ∧ (∀ x, x ∈ t → x < n) ∧
  More.closed_chain sol t ∧ More.closed_seen n sol (seen it').
Proof.
  intros Hr Hc Hsol Hclosed Hn. unfold tour in *.
  destruct (next_tour_Some it t it' Hr Hn) as (node & new & Ht & _ & _ & _ & Hm & _).
  destruct (next_tour_path it t it' Hr Hn) as [Hch Hend].
  rewrite Hsol, Hc in *.
  destruct Hm as (_ & _ & _ & Hnd & Hin & Hseen & _). rewrite Hc in Hin.
  assert (∀ x, x ∈ t → x < n) as Hlt by (intros x Hx; by destruct (Hin x Hx)).
  (* a vertex of the tour has no neighbour seen before the tour *)
  assert (∀ u w, u ∈ t → w < n → Utils.at_ sol u w = true →
            seen it !!! w = false) as Hfresh.
  { intros u w Hu Hw Huw. destruct (seen it !!! w) eqn:Hsw; [|done].
    destruct (Hin u Hu) as [Hun Hsu].
    rewrite (Hclosed w u Hw Hun (two_regular_sym u w Hun Hw Huw) Hsw) in Hsu. done. }
  (* the neighbours of the last vertex are in the tour *)
  assert (∀ u w, last t = Some u → w < n → Utils.at_ sol u w = true → w ∈ t)
    as Hlast.
  { intros u w Hu Hw Huw.
    destruct (proj1 (Hseen w) (Hend u Hu w Hw Huw)) as [Hs|?]; [|done].
    rewrite (Hfresh u w) in Hs; [done| |done|done].
    by apply last_Some_elem_of. }
  (* neighbours along the chain *)
  assert (∀ i u v, t !! i = Some u → t !! S i = Some v →
            Utils.at_ sol u v = true ∧ Utils.at_ sol v u = true) as Hstep.
  { intros i u v Hi HSi. assert (Utils.at_ sol u v = true) by (by eapply Hch).
    split; [done|]. apply two_regular_sym; [| |done]; apply Hlt;
      by eapply list_elem_of_lookup_2. }
  assert (∃ k u, length t = S k ∧ t !! k = Some u ∧ last t = Some u)
    as (k & u & Hk & Htk & Hlu).
  { subst t. exists (length new). 
    destruct (lookup_lt_is_Some_2 (node :: new) (length new)) as [u Hu];
      [simpl; lia|].
    exists u. split_and!; [done|done|].
    rewrite last_lookup. simpl. done. }
  assert (u < n) as Hun by (apply Hlt; by eapply list_elem_of_lookup_2).
  destruct (two_regular_two u Hun) as (a & b & Ha & Hb & Hab & Hua & Hub).
  pose proof (Hlast u a Hlu Ha Hua) as Hat.
  pose proof (Hlast u b Hlu Hb Hub) as Hbt.
  apply list_elem_of_lookup_1 in Hat as (ia & Hia).
  apply list_elem_of_lookup_1 in Hbt as (ib & Hib).
  pose proof (lookup_lt_Some _ _ _ Hia) as Hialt.
  pose proof (lookup_lt_Some _ _ _ Hib) as Hiblt.
  assert (ia ≠ k) as Hiak.
  { intros Heq. subst ia. assert (a = u) as -> by congruence.
    by apply (two_regular_irrefl u u). }
  assert (ib ≠ k) as Hibk.
  { intros Heq. subst ib. assert (b = u) as -> by congruence.
    by apply (two_regular_irrefl u u). }
  assert (ia ≠ ib) as Hiab by (intros Heq; subst ia; congruence).
  (* a vertex strictly inside the chain is not a neighbour of the last *)
  assert (∀ j w, t !! j = Some w → 1 ≤ j → S j < k →
            Utils.at_ sol u w = true → False) as Hinner.
  { intros j w Hj Hj1 Hjk Huw.
    destruct (lookup_lt_is_Some_2 t (j - 1)) as [p Hp]; [lia|].
    destruct (lookup_lt_is_Some_2 t (S j)) as [q Hq]; [lia|].
    assert (w < n ∧ p < n ∧ q < n) as (Hwn & Hpn & Hqn)
      by (split_and!; apply Hlt; by eapply list_elem_of_lookup_2).
    destruct (Hstep (j - 1) p w Hp) as [_ Hwp];
      [by replace (S (j - 1)) with j by lia|].
    destruct (Hstep j w q Hj Hq) as [Hwq _].
    assert (p ≠ q) as Hpq.
    { intros ->. pose proof (NoDup_lookup _ _ _ _ Hnd Hp Hq). lia. }
    destruct (two_regular_only w p q u Hwn Hpn Hqn Hun Hpq Hwp Hwq
                (two_regular_sym u w Hun Hwn Huw)) as [->| ->].
    - pose proof (NoDup_lookup _ _ _ _ Hnd Hp Htk). lia.
    - pose proof (NoDup_lookup _ _ _ _ Hnd Hq Htk). lia. }
  (* so the two neighbours of the last vertex sit at 0 and at k - 1 *)
  assert (ia = 0 ∨ S ia = k) as Hia'.
  { destruct (decide (ia = 0)); [by left|right].
    destruct (decide (S ia = k)); [done|].
    exfalso. apply (Hinner ia a Hia); [lia|lia|done]. }
  assert (ib = 0 ∨ S ib = k) as Hib'.
  { destruct (decide (ib = 0)); [by left|right].
    destruct (decide (S ib = k)); [done|].
    exfalso. apply (Hinner ib b Hib); [lia|lia|done]. }
  assert (2 ≤ k) as Hk2 by lia.
  assert (∃ w, t !! 0 = Some w ∧ Utils.at_ sol u w = true) as (w & Hw0 & Huw).
  { destruct Hia' as [->|?]; [by exists a|].
    destruct Hib' as [->|?]; [by exists b|]. lia. }
  split_and!; [lia|done|done| |].
  - intros i x y Hi Hnx. unfold nxt in Hnx. case_decide as Hd.
    + assert (i = k) as -> by lia. congruence.
    + by eapply Hch.
  - assert (More.closed_chain sol t) as Hcl.
    { intros i x y Hi Hnx. unfold nxt in Hnx. case_decide as Hd.
      + assert (i = k) as -> by lia. congruence.
      + by eapply Hch. }
    intros x y Hx Hy Hxy Hsx. apply Hseen. apply Hseen in Hsx as [Hsx|Hxt].
    + left. by apply (Hclosed x y).
    + right. apply (closed_chain_rows t x y) in Hxy; [|done|lia|done..].
      by apply adj_elem in Hxy as [_ ?].
Qed.

Lemma tours_from_two_regular fuel it t :
  ready it → count it = n → solution it = sol → More.closed_seen n sol (seen it) →
  t ∈ tours_from fuel it →
  3 ≤ length t ∧ NoDup t ∧ (∀ x, x ∈ t → x < n) ∧ More.closed_chain sol t.
Proof.
  revert it. induction fuel as [|fuel IH]; intros it Hr Hc Hsol Hcl Hin; simpl in Hin.
  { by apply elem_of_nil in Hin. }
  destruct (next_tour it) as [[t0 it']|] eqn:Hn; [|by apply elem_of_nil in Hin].
  destruct (next_tour_two_regular it t0 it' Hr Hc Hsol Hcl Hn)
    as (H3 & Hnd & Hlt & Hch & Hcl').
  destruct (next_tour_Some it t0 it' Hr Hn) as (_ & _ & _ & _ & _ & _ & Hm & _).
  apply elem_of_cons in Hin as [->|Hin]; [done|].
  apply (IH it'); try done.
  - by eapply marks_ready.
  - destruct Hm as (Hv & _). unfold count in *. by rewrite Hv.
  - destruct Hm as (_ & Hs & _). by rewrite Hs.
Qed.

End TwoRegular.

(** ** What the iterator yields *)

(** X1.  On fewer than [2^32] vertices the iterator, with its counters
    at their C++ types, is exhausted after at most [n] tours, and the
    tours it yields split the positions: together they hold every
    position of [0 .. n-1] exactly once, and none of them is empty, so
    there are at most [n] of them. *)
Theorem all_tours_split_positions (vs : list vertex) (sol : Utils.matrix bool) :
  (N.of_nat (length vs) < 2 ^ 32)%N →
  Machine.drain (S (length vs)) (S (length vs)) (init vs sol) =
    Some (all_tours vs sol) ∧
  concat (all_tours vs sol) ≡ₚ seq 0 (length vs) ∧
  Forall (λ t, t ≠ []) (all_tours vs sol) ∧
  length (all_tours vs sol) ≤ length vs.
Proof.
  intros Hb.
  pose proof (all_tours_partition vs sol) as Hp.
  assert (Forall (λ t : tour, t ≠ []) (all_tours vs sol)) as Hne.
  { apply Forall_forall. intros t Ht. by eapply all_tours_nonempty. }
  split_and!; [by apply machine_all_tours|done|done|].
  apply Permutation_length in Hp. rewrite length_seq in Hp. rewrite <- Hp.
  clear Hp. induction Hne as [|t ts Ht _ IH]; simpl; [done|].
  rewrite length_app. destruct t; [done|]. simpl. lia.
Qed.




(** X4.  On a symmetric matrix with a [false] diagonal and exactly two
    [true] entries in every row, every tour yielded is a cycle of the
    matrix with at least three vertices, the last one joined to the first,
    and the [true] entries of the matrix are exactly the edges of the
    tours; the result of [min_sub_tour] is such a cycle, and no edge
    leaves it. *)
Theorem two_regular_tours_are_cycles (vs : list vertex) (sol : Utils.matrix bool) :
  More.two_regular (length vs) sol →
  Forall (λ t, 3 ≤ length t ∧ More.closed_chain sol t) (all_tours vs sol) ∧
  encodes (length vs) sol (all_tours vs sol) ∧
  More.closed_chain sol (min_sub_tour vs sol) ∧
  (∀ u v, u ∈ min_sub_tour vs sol → v < length vs →
     Utils.at_ sol u v = true → v ∈ min_sub_tour vs sol).
Proof.
  intros Hreg.
  assert (∀ t, t ∈ all_tours vs sol →
    3 ≤ length t ∧ NoDup t ∧ (∀ x, x ∈ t → x < length vs) ∧
    More.closed_chain sol t) as Hall.
  { intros t Ht.
    apply (tours_from_two_regular (length vs) sol Hreg (length vs) (init vs sol));
      [apply init_ready|done|done| |done].
    intros u v Hu Hv _ Hs. unfold init in Hs; simpl in Hs.
    rewrite lookup_total_replicate_2 in Hs by done. done. }
  assert (∀ t u v, t ∈ all_tours vs sol → u ∈ t → v < length vs →
    (Utils.at_ sol u v = true ↔ adj t u v)) as Hrows.
  { intros t u v Ht Hu Hv. destruct (Hall t Ht) as (H3 & Hnd & Hlt & Hcl).
    by apply (closed_chain_rows (length vs) sol Hreg). }
  split_and!.
  - apply Forall_forall. intros t Ht. destruct (Hall t Ht) as (? & _ & _ & ?). done.
  - intros u v Hu Hv. split.
    + intros Hav.
      assert (u ∈ concat (all_tours vs sol)) as Huin.
      { rewrite all_tours_partition. apply elem_of_seq. lia. }
      apply elem_of_concat in Huin as (t & Hut & Ht).
      exists t. split; [done|]. by apply Hrows.
    + intros (t & Ht & Hadj). apply (Hrows t); [done| |done|done].
      by apply adj_elem in Hadj as [? _].
  - destruct (min_sub_tour_cases vs sol) as [[_ ->]|Hin%first_shortest_elem].
    + intros i u v Hi. by destruct i.
    + by destruct (Hall _ Hin) as (_ & _ & _ & ?).
  - intros u v Hu Hv Hav.
    destruct (min_sub_tour_cases vs sol) as [[_ Hnil]|Hin%first_shortest_elem].
    + rewrite Hnil in Hu. by apply elem_of_nil in Hu.
    + apply (Hrows _ u v Hin Hu Hv) in Hav. by apply adj_elem in Hav as [_ ?].
Qed.

(** ** The matrix container, once more *)

Section MatrixWrite.
Context {Item : Type} `{!Inhabited Item}.

(** X5.  In a matrix of [size * size] cells, a write at [(i, j)] below
    the size is read back at [(i, j)], leaves every other cell below the
    size as it was, and keeps the size and the number of cells. *)
Theorem matrix_write_then_read (m : Utils.matrix Item) (i j : nat) (x : Item) :
  Utils.wf m → i < Utils.size m → j < Utils.size m →
  Utils.at_ (Utils.set m i j x) i j = x ∧
  (∀ i' j', i' < Utils.size m → j' < Utils.size m → (i', j') ≠ (i, j) →
     Utils.at_ (Utils.set m i j x) i' j' = Utils.at_ m i' j') ∧
  Utils.wf (Utils.set m i j x) ∧
  Utils.size (Utils.set m i j x) = Utils.size m ∧
  Utils.total (Utils.set m i j x) = length (Utils.buffer m).
Proof.
  intros Hwf Hi Hj. split_and!.
  - by apply matrix_at_set_eq.
  - intros i' j' Hi' Hj' Hne. apply matrix_at_set_ne; [done|done|].
    intros [= -> ->]. done.
  - by apply matrix_set_wf.
  - done.
  - unfold Utils.total. rewrite matrix_set_size. by rewrite Hwf.
Qed.

End MatrixWrite.

(** ** Vertices *)

Lemma construct_all_spec count coords :
  (count < 2 ^ 64)%N →
  (count + N.of_nat (length coords) ≤ 2 ^ 64)%N →
  More.construct_all count coords =
    (imap (λ i '(a, b, c, d), with_id (count + N.of_nat i) a b c d) coords,
     ((count + N.of_nat (length coords)) mod 2 ^ 64)%N).
Proof.
  intros Hc. unfold More.construct_all.
  induction coords as [|[[[a b] c] d] coords IH] using rev_ind; intros Hlen.
  - simpl. rewrite N.add_0_r, N.mod_small by done. done.
  - rewrite length_app in Hlen. simpl in Hlen.
    rewrite foldl_snoc, IH by lia.
    rewrite imap_app. simpl.
    unfold vertex_new, next_id.
    rewrite (N.mod_small (count + N.of_nat (length coords))) by lia.
    rewrite Nat.add_0_r, length_app. simpl.
    f_equal. f_equal. lia.
Qed.

(** X6.  Vertices made by successive calls of the public constructor,
    as long as the counter of [next_id] does not pass [2^64], carry the
    ids [count, count + 1, ...]: they are pairwise different under
    [operator==], and keep the coordinates they were given. *)
Theorem construct_all_fresh_ids
    (count : N) (coords : list (float * float * float * float)) :
  (count < 2 ^ 64)%N →
  (count + N.of_nat (length coords) ≤ 2 ^ 64)%N →
  id <$> (More.construct_all count coords).1 =
    (λ i, (count + N.of_nat i)%N) <$> seq 0 (length coords) ∧
  NoDup (id <$> (More.construct_all count coords).1) ∧
  (∀ i j u v, (More.construct_all count coords).1 !! i = Some u →
     (More.construct_all count coords).1 !! j = Some v →
     i ≠ j → Vertex.eqb u v = false) ∧
  (λ v, (x1 v, y1 v, x2 v, y2 v)) <$> (More.construct_all count coords).1 = coords.
Proof.
  intros Hc Hlen. rewrite construct_all_spec by done. simpl.
  assert (∀ i u,
    imap (λ i '(a, b, c, d), with_id (count + N.of_nat i) a b c d) coords !! i = Some u →
    id u = (count + N.of_nat i)%N) as Hid.
  { intros i u. rewrite list_lookup_imap.
    destruct (coords !! i) as [[[[a b] c] d]|]; simpl; [|done].
    by intros [= <-]. }
  assert (id <$> imap (λ i '(a, b, c, d), with_id (count + N.of_nat i) a b c d) coords =
          (λ i, (count + N.of_nat i)%N) <$> seq 0 (length coords)) as Hids.
  { apply list_eq. intros i. rewrite !list_lookup_fmap, list_lookup_imap.
    destruct (coords !! i) as [[[[a b] c] d]|] eqn:Hi; simpl.
    - rewrite lookup_seq_lt by (by eapply lookup_lt_Some). done.
    - rewrite lookup_seq_ge by (by apply lookup_ge_None). done. }
  split_and!.
  - done.
  - rewrite Hids. apply NoDup_fmap_2; [|apply NoDup_seq].
    intros a b Hab. lia.
  - intros i j u v Hi Hj Hne. unfold Vertex.eqb.
    rewrite (Hid i u Hi), (Hid j v Hj). apply N.eqb_neq. lia.
  - apply list_eq. intros i. rewrite list_lookup_fmap, list_lookup_imap.
    by destruct (coords !! i) as [[[[a b] c] d]|].
Qed.

(** ** Reading vertices, once more *)

(** X7.  What [vertex::read] does is decided by the lines alone: no
    line at all gives [is_empty_or_missing]; a line that does not parse,
    anywhere, gives [contains_invalid_data], whatever the other lines;
    and a list is returned exactly when there is a line and all lines
    parse, one vertex per line in the order of the lines. *)
Theorem read_outcome
    (extract_double : string → option (float * string))
    (files : string → option (list string)) (filename : string) :
  (Vertex.read extract_double files filename = Err (is_empty_or_missing filename) ↔
     default [] (files filename) = []) ∧
  (Vertex.read extract_double files filename = Err (contains_invalid_data filename) ↔
     Exists (λ line, Vertex.extract_vertex extract_double line vertex_default = None)
            (default [] (files filename))) ∧
  (∀ vs, Vertex.read extract_double files filename = Ok vs ↔
     default [] (files filename) ≠ [] ∧
     Forall2 (λ line v,
       Vertex.extract_vertex extract_double line vertex_default = Some v)
       (default [] (files filename)) vs).
Proof.
  unfold Vertex.read.
  destruct (Vertex.read_lines _ _ _ _) as [vs0|e] eqn:Hr.
  - apply read_lines_Ok in Hr as (new & -> & Hf). simpl.
    assert (¬ Exists (λ line,
      Vertex.extract_vertex extract_double line vertex_default = None)
      (default [] (files filename))) as Hnex.
    { clear -Hf. induction Hf as [|line v lines new Hp Hf IH].
      - by intros ?%Exists_nil.
      - intros [?|?]%Exists_cons; [congruence|done]. }
    pose proof (Forall2_length _ _ _ Hf) as Hlen.
    case_decide as Hz.
    + assert (new = []) as -> by (destruct new; [done|simpl in Hz; lia]).
      apply Forall2_nil_inv_r in Hf as Hnil.
      split_and!; [done|split; [done|by intros]|].
      intros vs. split; [done|]. intros [Hne _]. done.
    + assert (default [] (files filename) ≠ []) as Hne.
      { intros Heq. rewrite Heq in Hlen. simpl in Hlen. lia. }
      split_and!; [split; [done|by intros]|split; [done|by intros]|].
      intros vs. split.
      * intros [= <-]. done.
      * intros [_ Hf']. f_equal.
        clear -Hf Hf'. revert vs Hf'.
        induction Hf as [|line v lines new Hp Hf IH]; intros vs Hf'.
        -- by apply Forall2_nil_inv_l in Hf'.
        -- apply Forall2_cons_inv_l in Hf' as (v' & vs' & Hp' & Hf' & ->).
           f_equal; [congruence|by apply IH].
  - apply read_lines_Err in Hr as [-> Hex].
    split_and!.
    + split; [done|]. intros Heq. rewrite Heq in Hex. by apply Exists_nil in Hex.
    + done.
    + intros vs. split; [done|]. intros [_ Hf]. exfalso.
      clear -Hex Hf. induction Hf as [|line v lines new Hp Hf IH].
      * by apply Exists_nil in Hex.
      * apply Exists_cons in Hex as [?|?]; [congruence|by apply IH].
Qed.

(** ** [utils::sample] *)

Lemma sublist_full {A} (l k : list A) :
  l `sublist_of` k → length k ≤ length l → l = k.
Proof.
  induction 1 as [|x l k Hs IH|x l k Hs IH]; simpl; intros Hlen.
  - done.
  - f_equal. apply IH. lia.
  - apply sublist_length in Hs. lia.
Qed.

(** X8.  Whatever items [std::ranges::sample] picks, as long as it keeps
    its contract (it writes [min(count, size)] items of the input, in
    their order): [utils::sample] throws [not_enough_items], with the
    two sizes, exactly when more items are asked for than there are;
    otherwise it returns [count] items of the input; asked for all of
    them it returns the input itself. *)
Theorem sample_guard {Item : Type}
    (ranges_sample : list Item → nat → N → list Item)
    (input : list Item) (count : nat) (seed : N) :
  (∀ input count seed,
     ranges_sample input count seed `sublist_of` input ∧
     length (ranges_sample input count seed) = count `min` length input) →
  (Sample.sample ranges_sample input count seed =
     Err (Sample.NotEnoughItems (length input) count) ↔ length input < count) ∧
  (count ≤ length input ↔
     ∃ out, Sample.sample ranges_sample input count seed = Ok out) ∧
  (∀ out, Sample.sample ranges_sample input count seed = Ok out →
     length out = count ∧ out `sublist_of` input) ∧
  Sample.sample ranges_sample input (length input) seed = Ok input.
Proof.
  intros Hlib. unfold Sample.sample. split_and!.
  - case_decide; [done|]. split; [done|lia].
  - case_decide; split.
    + lia.
    + by intros [out ?].
    + by eexists.
    + lia.
  - intros out. case_decide; [done|]. intros [= <-].
    destruct (Hlib input count seed) as [Hs Hl]. split; [lia|done].
  - case_decide; [lia|]. f_equal.
    destruct (Hlib input (length input) seed) as [Hs Hl].
    apply sublist_full; [done|lia].
Qed.

(** ** [utils::join] *)

Lemma string_app_nil_l (s : string) : "" +:+ s = s.
Proof. reflexivity. Qed.

Lemma string_app_cons c (s t : string) : String c s +:+ t = String c (s +:+ t).
Proof. reflexivity. Qed.

Lemma string_app_nil_r (s : string) : s +:+ "" = s.
Proof.
  induction s as [|c s IH]; [done|]. by rewrite string_app_cons, IH.
Qed.

Lemma string_app_assoc (s t u : string) : s +:+ (t +:+ u) = (s +:+ t) +:+ u.
Proof.
  induction s as [|c s IH]; [done|]. by rewrite !string_app_cons, IH.
Qed.

Lemma string_app_length (s t : string) :
  String.length (s +:+ t) = String.length s + String.length t.
Proof.
  induction s as [|c s IH]; [done|]. rewrite string_app_cons. simpl.
  by rewrite IH.
Qed.

(** What the loop of [join] appends to the buffer once the first item
    is written: a separator before every item. *)
Lemma join_rest {Item} (show : Item → string) sep buf l :
  foldl (Join.join_step show sep) (buf, false) l =
  (buf +:+ foldr (λ x acc, sep +:+ show x +:+ acc) "" l, false).
Proof.
  revert buf. induction l as [|x l IH]; intros buf; simpl.
  - by rewrite string_app_nil_r.
  - rewrite IH. by rewrite !string_app_assoc.
Qed.

Lemma concat_rest (sep : string) (ss : list string) s :
  String.concat sep (s :: ss) = s +:+ foldr (λ x acc, sep +:+ x +:+ acc) "" ss.
Proof.
  revert s. induction ss as [|t ss IH]; intros s.
  - simpl. by rewrite string_app_nil_r.
  - change (String.concat sep (s :: t :: ss))
      with (s +:+ sep +:+ String.concat sep (t :: ss)).
    rewrite IH. simpl. by rewrite !string_app_assoc.
Qed.

Lemma rest_length (sep : string) (ss : list string) :
  String.length (foldr (λ x acc, sep +:+ x +:+ acc) "" ss) =
  sum_list (String.length <$> ss) + length ss * String.length sep.
Proof.
  induction ss as [|s ss IH]; csimpl; [done|].
  rewrite !string_app_length, IH. lia.
Qed.

(** X9.  [utils::join] writes the items in order with the separator
    between them: no separator before the first or after the last item,
    the empty text for an empty range.  Its length is the lengths of the
    items plus one separator less than there are items. *)
Theorem join_is_concat {Item : Type} (show : Item → string)
    (range : list Item) (sep : string) :
  Join.join show range sep = String.concat sep (show <$> range) ∧
  String.length (Join.join show range sep) =
    sum_list (String.length ∘ show <$> range) +
    (length range - 1) * String.length sep ∧
  (∀ item, Join.join show [item] sep = show item) ∧
  (∀ a b, Join.join show [a; b] sep = show a +:+ sep +:+ show b).
Proof.
  assert (∀ x l, Join.join show (x :: l) sep =
            show x +:+ foldr (λ x acc, sep +:+ x +:+ acc) "" (show <$> l)) as Hcons.
  { intros x l. unfold Join.join.
    change (foldl (Join.join_step show sep) ("", true) (x :: l))
      with (foldl (Join.join_step show sep) ("" +:+ show x, false) l).
    rewrite string_app_nil_l, join_rest. simpl. f_equal.
    induction l as [|y l IH]; simpl; [done|by rewrite IH]. }
  split_and!.
  - destruct range as [|x l]; [done|].
    by rewrite Hcons, fmap_cons, concat_rest.
  - destruct range as [|x l]; [done|].
    rewrite Hcons, string_app_length, rest_length, length_fmap.
    rewrite <- list_fmap_compose, fmap_cons. csimpl.
    rewrite Nat.sub_0_r. lia.
  - intros item. rewrite Hcons. simpl. by rewrite string_app_nil_r.
  - intros a b. rewrite Hcons. simpl. by rewrite string_app_nil_r.
Qed.

(** ** The model the constructor builds *)

Lemma length_filter_ne n s u :
  length (filter (λ v, u ≠ v) (seq s n)) =
  n - (if bool_decide (s ≤ u < s + n) then 1 else 0).
Proof.
  revert s. induction n as [|n IH]; intros s; simpl.
  - done.
  - rewrite filter_cons. case_decide as Hu.
    + simpl. rewrite IH.
      repeat case_bool_decide; lia.
    + rewrite IH. assert (u = s) as -> by (destruct (decide (u = s)); [done|tauto]).
      rewrite bool_decide_false by lia. rewrite bool_decide_true by lia. lia.
Qed.

Lemma eval_lin_degree σ (X : Utils.matrix Gurobi.GRBVar) u l :
  Gurobi.eval_lin σ ((λ v, Utils.at_ X u v) <$> l) =
  Z.of_nat (length (filter (λ v, Gurobi.value σ (Utils.at_ X u v) = 1%Z) l)).
Proof.
  induction l as [|v l IH]; [done|].
  rewrite fmap_cons.
  change (Gurobi.eval_lin σ (Utils.at_ X u v :: ((λ v, Utils.at_ X u v) <$> l)))
    with (Gurobi.value σ (Utils.at_ X u v) +
          Gurobi.eval_lin σ ((λ v, Utils.at_ X u v) <$> l))%Z.
  rewrite IH, filter_cons. destruct (value_01 σ (Utils.at_ X u v)) as [H0|H1].
  - rewrite decide_False by lia. lia.
  - rewrite decide_True by done. simpl. lia.
Qed.

(** X10.  The constructor leaves a model of as many variables as the
    graph has edges, [order * (order - 1) / 2], and as many constraints
    as it has vertices, which is what [var_count] and [constr_count]
    report for it.  Every variable is binary in [0, 1]; every constraint
    is an equality to 2 over [order - 1] terms; nothing else is in the
    model, and the variable matrix is [order] by [order] with an empty
    diagonal. *)
Theorem graph_constructor_counts
    (hypot : float → float → float) (ceil : float → float)
    (vs : list vertex) :
  More.var_count (Graph.make hypot ceil vs) =
    Z.of_nat (Graph.size (Graph.make hypot ceil vs)) ∧
  More.constr_count (Graph.make hypot ceil vs) =
    Z.of_nat (Graph.order (Graph.make hypot ceil vs)) ∧
  Graph.order (Graph.make hypot ceil vs) = length vs ∧
  Forall (λ info, Gurobi.type info = Gurobi.GRB_BINARY ∧
                  Gurobi.lb info = 0%float ∧ Gurobi.ub info = 1%float)
         (Gurobi.vars (Graph.model (Graph.make hypot ceil vs))) ∧
  Forall (λ c, Gurobi.lin_sense c = Gurobi.GRB_EQUAL ∧ Gurobi.rhs c = 2%Z ∧
               length (Gurobi.lhs c) = length vs - 1)
         (Gurobi.constrs (Graph.model (Graph.make hypot ceil vs))) ∧
  Gurobi.qconstrs (Graph.model (Graph.make hypot ceil vs)) = [] ∧
  Utils.wf (Graph.vars (Graph.make hypot ceil vs)) ∧
  Utils.size (Graph.vars (Graph.make hypot ceil vs)) = length vs ∧
  (∀ u, u < length vs →
     Utils.at_ (Graph.vars (Graph.make hypot ceil vs)) u u = None).
Proof.
  destruct (graph_make_spec hypot ceil vs) as (m1 & Hb & Hvs & Hvars & Hcs & Hq).
  pose proof (built_count _ _ _ _ _ Hb) as Hcount.
  pose proof (λ u, built_diagonal _ _ _ _ _ u Hb) as Hdiag.
  destruct Hb as (Hv1 & _ & _ & _ & _ & Hwf & Hsz & _ & _).
  simpl in *.
  unfold More.var_count, More.constr_count, Graph.size, Graph.order.
  rewrite Hvs, Hvars, Hcs, Hcount, length_fmap, length_seq.
  split_and!; try done.
  - rewrite Hv1. simpl. apply Forall_fmap, Forall_forall. by intros [u v] _.
  - apply Forall_fmap, Forall_forall. intros u Hu%elem_of_seq. simpl.
    split_and!; [done|done|].
    rewrite deg_2_expr_eq, length_fmap, length_filter_ne.
    rewrite bool_decide_true by lia. done.
Qed.

(** X11.  For any values 0 or 1 of the variables, the constraint the
    constructor adds for the vertex [u] holds exactly when two of the
    variables of the pairs with [u] are at 1.  There is one per vertex,
    so with one or two vertices the model has no candidate at all. *)
Theorem degree_constraints_meaning
    (hypot : float → float → float) (ceil : float → float)
    (vs : list vertex) (σ : Gurobi.candidate) :
  length (Gurobi.constrs (Graph.model (Graph.make hypot ceil vs))) = length vs ∧
  (∀ u c, Gurobi.constrs (Graph.model (Graph.make hypot ceil vs)) !! u = Some c →
     (Gurobi.holds_lin σ c = true ↔
      More.degree σ (length vs) (Graph.vars (Graph.make hypot ceil vs)) u = 2)) ∧
  (∀ u, u < length vs →
     More.degree σ (length vs) (Graph.vars (Graph.make hypot ceil vs)) u
       ≤ length vs - 1) ∧
  (Forall (λ c, Gurobi.holds_lin σ c = true)
          (Gurobi.constrs (Graph.model (Graph.make hypot ceil vs))) →
   length vs = 0 ∨ 3 ≤ length vs).
Proof.
  destruct (graph_make_model hypot ceil vs) as (Hrow & Hlen & _).
  assert (∀ u c,
    Gurobi.constrs (Graph.model (Graph.make hypot ceil vs)) !! u = Some c →
    (Gurobi.holds_lin σ c = true ↔
     More.degree σ (length vs) (Graph.vars (Graph.make hypot ceil vs)) u = 2))
    as Hmean.
  { intros u c Hc.
    assert (u < length vs) as Hu by (apply lookup_lt_Some in Hc; lia).
    rewrite (Hrow u Hu) in Hc. injection Hc as <-.
    unfold Gurobi.holds_lin, More.degree. simpl.
    rewrite eval_lin_degree, Z.eqb_eq. lia. }
  assert (∀ u, u < length vs →
            More.degree σ (length vs) (Graph.vars (Graph.make hypot ceil vs)) u
              ≤ length vs - 1) as Hle.
  { intros u Hu. unfold More.degree.
    etrans; [apply length_filter|]. rewrite length_filter_ne.
    rewrite bool_decide_true by lia. done. }
  split_and!; [done|done|done|].
  intros Hall. destruct (decide (length vs = 0)) as [|Hne]; [by left|right].
  destruct (Gurobi.constrs (Graph.model (Graph.make hypot ceil vs)) !! 0)
    as [c|] eqn:Hc.
  - pose proof (proj1 (Forall_lookup _ _) Hall 0 c Hc) as Hh. simpl in Hh.
    apply (Hmean 0 c Hc) in Hh. specialize (Hle 0). lia.
  - apply lookup_ge_None in Hc. lia.
Qed.

(** ** What is read back from the engine *)


Lemma lookup_all (vs : list vertex) :
  (λ v, vs !!! v) <$> seq 0 (length vs) = vs.
Proof.
  apply list_eq. intros i. rewrite list_lookup_fmap.
  destruct (vs !! i) as [x|] eqn:Hx.
  - rewrite lookup_seq_lt by (by eapply lookup_lt_Some). simpl.
    f_equal. by apply list_lookup_total_correct.
  - rewrite lookup_seq_ge by (by apply lookup_ge_None). done.
Qed.

(** X13.  When [solution] returns, it returns the vertices of the
    graph, each of them once, in the order of the tour: a rearrangement
    of the vertex list. *)
Theorem solution_rearranges_vertices (g : Graph.graph) (s : list vertex) :
  Graph.solution g = Ok s →
  s ≡ₚ Graph.vertices g ∧
  ∃ t, Graph.tour g = Ok t ∧ NoDup t ∧ t ≡ₚ seq 0 (Graph.order g) ∧
       s = (λ v, Graph.vertices g !!! v) <$> t.
Proof.
  unfold Graph.solution. destruct (Graph.tour g) as [t|e] eqn:Ht; [|done].
  intros [= <-]. rewrite foldl_push_back. simpl.
  unfold Graph.tour, Elimination.min_sub_tour in Ht.
  destruct (Elimination.get_solutions (length (Graph.vertices g)) (Graph.selected g))
    as [sol|]; simpl in Ht; [|done].
  case_decide as Hlen; [done|].
  injection Ht as <-.
  assert (length (min_sub_tour (Graph.vertices g) sol) = Graph.order g) as Hlen'.
  { destruct (decide (length (min_sub_tour (Graph.vertices g) sol)
                      = Graph.order g)); [done|].
    by destruct Hlen. }
  destruct (min_sub_tour_props (Graph.vertices g) sol) as (Hnd & Hlt & _).
  assert (min_sub_tour (Graph.vertices g) sol ≡ₚ seq 0 (Graph.order g)) as Hperm.
  { apply NoDup_full; [done|done|]. unfold Graph.order in *.
    unfold tour in *. lia. }
  split.
  - rewrite Hperm. unfold Graph.order. by rewrite lookup_all.
  - eexists. split_and!; done.
Qed.

(** ** [program] and [main] *)

(** X14.  The seed handed to the engine is the low 28 bits of the
    program's seed: between 0 and [2^28 - 1], so the conversions to
    [unsigned] and then to [int] lose nothing and it is never negative. *)
Theorem env_seed_low_bits (seed : Z) :
  Program.env_seed seed = (seed mod 2 ^ 28)%Z ∧
  (0 ≤ Program.env_seed seed < 2 ^ 28)%Z ∧
  Program.env_seed (Program.env_seed seed) = Program.env_seed seed.
Proof.
  assert (∀ s, Program.env_seed s = (s mod 2 ^ 28)%Z) as Heq.
  { intros s. unfold Program.env_seed.
    change 0x0FFFFFFF%Z with (Z.ones 28).
    rewrite Z.land_ones by lia.
    pose proof (Z.mod_pos_bound s (2 ^ 28) ltac:(lia)) as Hb.
    rewrite (Z.mod_small (s mod 2 ^ 28) (2 ^ 32)) by lia.
    destruct (Z.ltb_spec (s mod 2 ^ 28) (2 ^ 31)); [done|lia]. }
  pose proof (Z.mod_pos_bound seed (2 ^ 28) ltac:(lia)) as Hb.
  split; [|split].
  - apply Heq.
  - rewrite Heq. lia.
  - rewrite !Heq. apply Z.mod_small. lia.
Qed.

(** X15.  [main] returns [EXIT_FAILURE] for every exception of [run]
    but one: the handler of [utils::invalid_solution], first in the
    list, has no [return], so after its report [main] returns
    [EXIT_SUCCESS], as when [run] returns.  The exceptions of
    [vertex.hpp] reach the handler of [std::exception]. *)
Theorem main_status_by_exception (thrown : option Program.exn_class) :
  (Program.main_status thrown = Program.EXIT_SUCCESS ↔
     thrown = None ∨ thrown = Some Program.invalid_solution) ∧
  (Program.main_status thrown = Program.EXIT_FAILURE ↔
     ¬ (thrown = None ∨ thrown = Some Program.invalid_solution)) ∧
  Program.catches 3 Program.std_exception Program.invalid_file = true ∧
  Program.catches 3 Program.std_exception Program.not_enough_items = true ∧
  Program.catches 3 Program.std_exception Program.invalid_solution = true ∧
  Program.catches 3 Program.std_exception Program.GRBException = false.
Proof.
  split_and!; try reflexivity.
  - destruct thrown as [[]|]; vm_compute; intuition congruence.
  - destruct thrown as [[]|]; vm_compute; intuition congruence.
Qed.

Lemma length_concat_ge {A} (ts : list (list A)) m :
  (∀ t, t ∈ ts → m ≤ length t) → length ts * m ≤ length (concat ts).
Proof.
  induction ts as [|t ts IH]; intros Hm; simpl; [done|].
  rewrite length_app.
  assert (m ≤ length t) by (apply Hm; left).
  assert (length ts * m ≤ length (concat ts)).
  { apply IH. intros t' Ht'. apply Hm. by right. }
  lia.
Qed.

(** X16.  The result is short when there are several tours: the number
    of tours yielded times the length of the result is at most [n].  So
    a result that is no complete tour holds at most half of the
    vertices. *)
Theorem min_sub_tour_at_most_half (vs : list vertex) (sol : Utils.matrix bool) :
  length (all_tours vs sol) * length (min_sub_tour vs sol) ≤ length vs ∧
  (length (min_sub_tour vs sol) = length vs ∨
   2 * length (min_sub_tour vs sol) ≤ length vs).
Proof.
  pose proof (all_tours_partition vs sol) as Hp.
  apply Permutation_length in Hp. rewrite length_seq in Hp.
  assert (length (all_tours vs sol) * length (min_sub_tour vs sol) ≤ length vs)
    as Hmul.
  { rewrite <- Hp.
    destruct (min_sub_tour_cases vs sol) as [[-> _]|(i & _ & Hmin & _)]; [done|].
    apply length_concat_ge. intros t (j & Hj)%list_elem_of_lookup.
    by apply (Hmin j). }
  split; [done|].
  rewrite min_sub_tour_tours in *.
  destruct (all_tours vs sol) as [|t [|t' ts]]; simpl in *.
  - left. lia.
  - left. rewrite length_app in Hp. simpl in Hp. lia.
  - right. unfold tour in *. lia.
Qed.

(** ** Instances of the further properties *)

Lemma all_tours_split_positions_witness :
  (N.of_nat (length Examples.square) < 2 ^ 32)%N ∧
  concat (all_tours Examples.square Examples.ragged) ≡ₚ seq 0 4.
Proof.
  assert (N.of_nat (length Examples.square) < 2 ^ 32)%N as Hb by done.
  split; [done|].
  apply (all_tours_split_positions Examples.square Examples.ragged Hb).
Defined.



Lemma two_regular_tours_are_cycles_witness :
  More.two_regular (length Examples.six) MoreExamples.triangles ∧
  More.closed_chain MoreExamples.triangles
    (min_sub_tour Examples.six MoreExamples.triangles).
Proof.
  assert (More.two_regular (length Examples.six) MoreExamples.triangles) as Hreg.
  { change (length Examples.six) with 6. split_and!.
    - intros u v Hu Hv.
      do 6 (destruct u as [|u];
            [do 6 (destruct v as [|v]; [reflexivity|]); lia|]).
      lia.
    - intros u Hu. do 6 (destruct u as [|u]; [reflexivity|]). lia.
    - intros u Hu.
      assert (∀ a b, a < 6 → b < 6 → a ≠ b →
        (∀ v, v < 6 → Utils.at_ MoreExamples.triangles u v =
                       bool_decide (v = a ∨ v = b)) →
        ∃ a b, a < 6 ∧ b < 6 ∧ a ≠ b ∧
          ∀ v, v < 6 →
            (Utils.at_ MoreExamples.triangles u v = true ↔ v = a ∨ v = b)) as Hrow.
      { intros a b Ha Hb Hab Hv. exists a, b. split_and!; [done..|].
        intros v Hlt. rewrite (Hv v Hlt). apply bool_decide_eq_true. }
      destruct u as [|[|[|[|[|[|u]]]]]]; try lia.
      + apply (Hrow 1 2); [lia..|]. intros v Hv.
        do 6 (destruct v as [|v]; [reflexivity|]). lia.
      + apply (Hrow 0 2); [lia..|]. intros v Hv.
        do 6 (destruct v as [|v]; [reflexivity|]). lia.
      + apply (Hrow 0 1); [lia..|]. intros v Hv.
        do 6 (destruct v as [|v]; [reflexivity|]). lia.
      + apply (Hrow 4 5); [lia..|]. intros v Hv.
        do 6 (destruct v as [|v]; [reflexivity|]). lia.
      + apply (Hrow 3 5); [lia..|]. intros v Hv.
        do 6 (destruct v as [|v]; [reflexivity|]). lia.
      + apply (Hrow 3 4); [lia..|]. intros v Hv.
        do 6 (destruct v as [|v]; [reflexivity|]). lia. }
  split; [done|].
  apply (two_regular_tours_are_cycles Examples.six MoreExamples.triangles Hreg).
Defined.

Lemma matrix_write_then_read_witness :
  Utils.wf Examples.ragged ∧
  Utils.at_ (Utils.set Examples.ragged 0 1 true) 0 1 = true.
Proof.
  assert (Utils.wf Examples.ragged) as Hwf by reflexivity.
  assert (0 < Utils.size Examples.ragged) as H0 by (vm_compute; lia).
  assert (1 < Utils.size Examples.ragged) as H1 by (vm_compute; lia).
  split; [done|].
  apply (matrix_write_then_read Examples.ragged 0 1 true Hwf H0 H1).
Defined.

Lemma construct_all_fresh_ids_witness :
  (1 < 2 ^ 64)%N ∧
  NoDup (id <$> (More.construct_all 1
                   [(0, 0, 0, 0); (0, 1, 0, 1); (1, 1, 1, 1)]%float).1).
Proof.
  assert (1 < 2 ^ 64)%N as Hc by done.
  split; [done|].
  refine (proj1 (proj2 (construct_all_fresh_ids 1
    [(0, 0, 0, 0); (0, 1, 0, 1); (1, 1, 1, 1)]%float Hc _))).
  vm_compute. discriminate.
Defined.

Lemma sample_guard_witness :
  (∀ input count seed,
     MoreExamples.first_items input count seed `sublist_of` input ∧
     length (MoreExamples.first_items input count seed) =
       count `min` length input) ∧
  Sample.sample MoreExamples.first_items Examples.square 4 0 = Ok Examples.square.
Proof.
  assert (∀ input count seed,
     MoreExamples.first_items input count seed `sublist_of` input ∧
     length (MoreExamples.first_items input count seed) =
       count `min` length input) as Hlib.
  { intros input count seed. unfold MoreExamples.first_items.
    split; [apply sublist_take|apply length_take]. }
  split; [done|].
  apply (sample_guard MoreExamples.first_items Examples.square 4 0 Hlib).
Defined.


Lemma solution_rearranges_vertices_witness :
  Graph.solution
    (Graph.solve Examples.toy_optimize
       (Graph.make Examples.toy_hypot Examples.toy_ceil Examples.square) 0).1
    = Ok Examples.square ∧
  Examples.square ≡ₚ
    Graph.vertices
      (Graph.solve Examples.toy_optimize
         (Graph.make Examples.toy_hypot Examples.toy_ceil Examples.square) 0).1.
Proof.
  assert (Graph.solution
    (Graph.solve Examples.toy_optimize
       (Graph.make Examples.toy_hypot Examples.toy_ceil Examples.square) 0).1
    = Ok Examples.square) as Hs by (by vm_compute).
  split; [done|].
  apply (solution_rearranges_vertices _ _ Hs).
Defined.
